(** * speckit-autopilot: task checklist parser, task mutator and workflow state store

    A shallow embedding of the file utilities (parseTasksMd,
    markTaskComplete, getIncompleteTasks and the file primitives readFile,
    writeFile and fileExists, imported as [utils/files.js] and found at the
    end of [src/utils/scripts.ts]) and of [src/utils/state.ts]
    (getWorkflowState, setWorkflowState, initWorkflowState,
    updateWorkflowState), with the properties the specification states
    about them.  The development goes on to the callers of these
    functions in [src/tools/implement.ts] (speckitImplement,
    markTaskAsComplete) with getFeaturePaths, to parseJSONFromOutput of
    [src/utils/scripts.ts] and to generateShortName of the specification
    tool, with properties read off the code.

    JavaScript strings are sequences of UTF-16 code units; the three regular
    expressions of the source carry no [u] flag, so they match code unit by
    code unit.  A string is therefore a [list N]. *)

From Stdlib Require Import NArith ZArith Ascii String.
From stdpp Require Import gmap strings list fin_maps.

Set Default Proof Using "Type".
Local Open Scope N_scope.

(** ** JavaScript strings *)

Module Js.

Abbreviation str := (list N).

(** An ASCII literal as a JavaScript string. *)
Definition js (s : string) : str := map N_of_ascii (list_ascii_of_string s).

Definition LF : N := 10.

(** WhiteSpace and LineTerminator code points of ECMAScript: the class [\s]
    and the characters removed by [String.prototype.trim]. *)
Definition isSpace (c : N) : bool :=
  (9 <=? c) && (c <=? 13) || (c =? 32) || (c =? 160) || (c =? 5760)
  || (8192 <=? c) && (c <=? 8202) || (c =? 8232) || (c =? 8233)
  || (c =? 8239) || (c =? 8287) || (c =? 12288) || (c =? 65279).

(** LineTerminator: the characters the atom [.] refuses. *)
Definition isLineTerminator (c : N) : bool :=
  (c =? 10) || (c =? 13) || (c =? 8232) || (c =? 8233).

Definition isDot (c : N) : bool := negb (isLineTerminator c).

Definition isDigit (c : N) : bool := (48 <=? c) && (c <=? 57).

(** [s.split(sep)] for a one-character separator: never the empty list. *)
Fixpoint split (sep : N) (s : str) : list str :=
  match s with
  | [] => [[]]
  | c :: s' =>
      if c =? sep then [] :: split sep s'
      else match split sep s' with
           | l :: ls => (c :: l) :: ls
           | [] => [[c]]
           end
  end.

(** [ls.join(sep)] *)
Fixpoint join (sep : N) (ls : list str) : str :=
  match ls with
  | [] => []
  | [l] => l
  | l :: ls' => l ++ sep :: join sep ls'
  end.

Fixpoint trimStart (s : str) : str :=
  match s with
  | c :: s' => if isSpace c then trimStart s' else s
  | [] => []
  end.

Definition trimEnd (s : str) : str := rev (trimStart (rev s)).

(** [s.trim()] *)
Definition trim (s : str) : str := trimEnd (trimStart s).

Fixpoint startsWith (p s : str) : bool :=
  match p, s with
  | [], _ => true
  | a :: p', b :: s' => (a =? b) && startsWith p' s'
  | _ :: _, [] => false
  end.

(** [s.includes(p)] *)
Fixpoint includes (p s : str) : bool :=
  startsWith p s || match s with
                    | [] => false
                    | _ :: s' => includes p s'
                    end.

(** [!s] for a string: only the empty string is falsy. *)
Definition falsy (s : str) : bool :=
  match s with [] => true | _ => false end.

(** the line holds no separator *)
Definition lineOk (sep : N) (l : str) : Prop := sep ∉ l.

(** the string holds no white space *)
Definition noSpace (s : str) : bool := forallb (λ a, negb (isSpace a)) s.

(** joins lines of text into a document *)
Definition document (lines : list string) : str := join LF (map js lines).

Arguments js : simpl never.

End Js.
Import Js.

(** ** Regular expressions

    The constructs the three patterns of the source use: literals, character
    classes, a greedy [+] over a one-character class (every quantified atom
    in the source is one), concatenation, the greedy optional non-capturing
    group [(?:r)?] and numbered capture groups.  A match is computed the way
    a backtracking matcher explores it: [run r s] lists, in the order in
    which backtracking tries them, the ways [r] can match a prefix of [s],
    each as the unread rest of the input with the captures made. *)

Module Regex.

Inductive regex :=
| Eps
| Chr (c : N)
| Cls (p : N -> bool)
| Plus (p : N -> bool)
| Seq (r1 r2 : regex)
| Opt (r : regex)
| Grp (i : nat) (r : regex).

Definition captures := list (nat * str).

(** The rests of [s] after one or more [p]-characters, longest match first. *)
Fixpoint runs (p : N -> bool) (s : str) : list str :=
  match s with
  | c :: s' => if p c then runs p s' ++ [s'] else []
  | [] => []
  end.

Fixpoint run (r : regex) (s : str) : list (str * captures) :=
  match r with
  | Eps => [(s, [])]
  | Chr c =>
      match s with
      | x :: s' => if x =? c then [(s', [])] else []
      | [] => []
      end
  | Cls p =>
      match s with
      | x :: s' => if p x then [(s', [])] else []
      | [] => []
      end
  | Plus p => map (fun s' => (s', [])) (runs p s)
  | Seq r1 r2 =>
      flat_map (fun '(s1, c1) =>
                  map (fun '(s2, c2) => (s2, c1 ++ c2)) (run r2 s1))
               (run r1 s)
  | Opt r => run r s ++ [(s, [])]
  | Grp i r =>
      map (fun '(s', c) => (s', (i, take (length s - length s') s) :: c))
          (run r s)
  end.

(** What a match is, without the order of search: [matches r w c] when the
    pattern [r] reads the whole word [w] and captures [c]. *)
Inductive matches : regex -> str -> captures -> Prop :=
| m_Eps : matches Eps [] []
| m_Chr x : matches (Chr x) [x] []
| m_Cls (p : N -> bool) a : p a = true -> matches (Cls p) [a] []
| m_Plus (p : N -> bool) w :
    w <> [] -> forallb p w = true -> matches (Plus p) w []
| m_Seq r1 r2 w1 w2 c1 c2 :
    matches r1 w1 c1 -> matches r2 w2 c2 ->
    matches (Seq r1 r2) (w1 ++ w2) (c1 ++ c2)
| m_Opt_some r w c : matches r w c -> matches (Opt r) w c
| m_Opt_none r : matches (Opt r) [] []
| m_Grp i r w c : matches r w c -> matches (Grp i r) w ((i, w) :: c).

(** [w] is one or more [p]-characters: what [p+] reads *)
Definition plus (p : N -> bool) (w : str) : bool :=
  negb (falsy w) && forallb p w.

Definition atEnd (x : str * captures) : bool := falsy x.1.

(** [s.match(/^r$/)]: the pattern is tried at index 0 only (anchor [^]
    without the [m] flag) and [$] accepts only the end of the input, so the
    result is the first way of matching that reads the whole string. *)
Definition exec (r : regex) (s : str) : option captures :=
  snd <$> List.find atEnd (run r s).

(** [m[i]] of a match result: [None] is [undefined], a group that did not
    take part in the match. *)
Fixpoint group (i : nat) (m : captures) : option str :=
  match m with
  | [] => None
  | (j, w) :: m' => if Nat.eqb i j then Some w else group i m'
  end.

(** a group that always takes part in a successful match *)
Definition group' (i : nat) (m : captures) : str := default [] (group i m).

Definition seq (rs : list regex) : regex := foldr Seq Eps rs.

(** a literal string *)
Definition lit (s : string) : list regex := map Chr (js s).

(** With the flag [i] a pattern character matches the characters with the
    same canonical form (the simple upper-case mapping, except that a
    non-ASCII character is never folded onto an ASCII one): for an ASCII
    letter these are its two cases. *)
Definition foldCase (c : N) : N :=
  if (97 <=? c) && (c <=? 122) then c - 32 else c.

Definition ChrI (c : N) : regex := Cls (fun x => foldCase x =? foldCase c).

Definition litI (s : string) : list regex := map ChrI (js s).

(** adds the capture of group [i] to a way of matching *)
Definition capture (i : nat) (w : str) (x : str * captures) : str * captures :=
  (x.1, (i, w) :: x.2).

(** the input does not go on with a [p]-character *)
Definition stops (p : N -> bool) (s : str) : bool :=
  match s with a :: _ => negb (p a) | [] => true end.

End Regex.
Import Regex.

(** ** The checklist document: parseTasksMd and markTaskComplete *)

Module Files.

(** [/^##\s+Phase\s+\d+[:\s]+(.+)$/i] *)
Definition phaseRe : regex :=
  seq (lit "##" ++ [Plus isSpace] ++ litI "Phase" ++
       [Plus isSpace; Plus isDigit;
        Plus (fun c => (c =? 58) || isSpace c);
        Grp 1 (Plus isDot)]).

(** [[\sxX]] *)
Definition isBox (c : N) : bool := isSpace c || (c =? 120) || (c =? 88).

(** [/^-\s+\[([\sxX])\]\s+(T\d+)(?:\s+\[P\])?(?:\s+\[(US\d+)\])?\s+(.+)$/],
    cut after the checkbox: [taskHead] reads [-\s+\[([\sxX])\]]. *)
Definition taskHead : list regex :=
  lit "-" ++ [Plus isSpace] ++ lit "[" ++ [Grp 1 (Cls isBox)] ++ lit "]".

Definition taskTail : list regex :=
  [Plus isSpace;
   Grp 2 (seq (lit "T" ++ [Plus isDigit]));
   Opt (seq ([Plus isSpace] ++ lit "[P]"));
   Opt (seq ([Plus isSpace] ++ lit "[" ++
             [Grp 3 (seq (lit "US" ++ [Plus isDigit]))] ++ lit "]"));
   Plus isSpace;
   Grp 4 (Plus isDot)].

Definition taskRe : regex := seq (taskHead ++ taskTail).

(** [/^(-\s+\[)([\sxX])(\]\s+)(T\d+)(.+)$/] *)
Definition markRe : regex :=
  seq [Grp 1 (seq (lit "-" ++ [Plus isSpace] ++ lit "["));
       Grp 2 (Cls isBox);
       Grp 3 (seq (lit "]" ++ [Plus isSpace]));
       Grp 4 (seq (lit "T" ++ [Plus isDigit]));
       Grp 5 (Plus isDot)].

Record Task := {
  id : str;
  completed : bool;
  description : str;
  phase : str;
  parallel : bool;
  story : option str;
}.

(** [checked.toLowerCase() === 'x']: the only strings whose lower case is
    ["x"] are ["x"] and ["X"]. *)
Definition lowerIsX (checked : str) : bool :=
  match checked with
  | [c] => (c =? 120) || (c =? 88)
  | _ => false
  end.

(** the object literal pushed for a matching task line *)
Definition mkTask (line currentPhase : str) (taskMatch : captures) : Task :=
  {| id := trim (group' 2 taskMatch);
     completed := lowerIsX (group' 1 taskMatch);
     description := trim (group' 4 taskMatch);
     phase := currentPhase;
     parallel := includes (js "[P]") line;
     story := trim <$> group 3 taskMatch |}.

(** The body of the [for (const line of lines)] loop of parseTasksMd, with
    its two variables [currentPhase] and [tasks]. *)
Fixpoint parseLoop (lines : list str) (currentPhase : str) (tasks : list Task)
  : list Task :=
  match lines with
  | [] => tasks
  | line :: rest =>
      match exec phaseRe line with
      | Some phaseMatch => parseLoop rest (trim (group' 1 phaseMatch)) tasks
      | None =>
          match exec taskRe line with
          | Some taskMatch =>
              parseLoop rest currentPhase
                        (tasks ++ [mkTask line currentPhase taskMatch])
          | None => parseLoop rest currentPhase tasks
          end
      end
  end.

(** parseTasksMd after the read: from the content to the tasks *)
Definition parseContent (content : str) : list Task :=
  parseLoop (split LF content) [] [].

(** The callback of [lines.map] in markTaskComplete. *)
Definition markLine (taskId line : str) : str :=
  match exec markRe line with
  | Some taskMatch =>
      if decide (group' 4 taskMatch = taskId)
      then group' 1 taskMatch ++ js "X" ++ group' 3 taskMatch ++
           group' 4 taskMatch ++ group' 5 taskMatch
      else line
  | None => line
  end.

(** markTaskComplete between the read and the write *)
Definition markContent (taskId content : str) : str :=
  join LF (map (markLine taskId) (split LF content)).

End Files.
Import Files.

(** ** Notions the properties are stated with *)

Module Lines.

(** The line is a task line of the mutator whose id is [taskId]: the test
    [taskMatch && taskMatch[4] === taskId]. *)
Definition isTarget (taskId line : str) : bool :=
  match exec markRe line with
  | Some taskMatch => bool_decide (group' 4 taskMatch = taskId)
  | None => false
  end.

(** the character in the checkbox of a task line of the mutator *)
Definition boxOf (line : str) : option N :=
  m ← exec markRe line; head (group' 2 m).

(** what taskRe reads after the checkbox character *)
Definition taskRest : regex := seq (lit "]" ++ taskTail).

(** the three parts of taskRe after the id *)
Definition tagPRe : list regex := [Plus isSpace] ++ lit "[P]".

Definition storyRe : list regex :=
  [Plus isSpace] ++ lit "[" ++ [Grp 3 (seq (lit "US" ++ [Plus isDigit]))]
  ++ lit "]".

Definition descriptionRe : list regex := [Plus isSpace; Grp 4 (Plus isDot)].

Definition afterId : regex :=
  Seq (Opt (seq tagPRe)) (Seq (Opt (seq storyRe)) (seq descriptionRe)).

(** a bracketed tag holds no closing bracket *)
Definition noClose (tag : str) : bool := forallb (λ c, negb (c =? 93)) tag.

(** [US\d+] *)
Definition isStoryTag (tag : str) : bool :=
  match tag with
  | 85 :: 83 :: digits => plus isDigit digits
  | _ => false
  end.

(** the title a heading line sets as current phase *)
Definition phaseTitle (line : str) : option str :=
  (λ phaseMatch, trim (group' 1 phaseMatch)) <$> exec phaseRe line.

(** the title of the last heading among [before], or [currentPhase] *)
Definition phaseFrom (currentPhase : str) (before : list str) : str :=
  default currentPhase (last (omap phaseTitle before)).

(** The phase of the nearest heading line above: the title of the last
    heading among the lines [before], the empty string without one. *)
Definition nearestPhase (before : list str) : str := phaseFrom [] before.

(** the id parseTasksMd reads from a line, if the line is a task line *)
Definition taskIdOf (line : str) : option str :=
  (λ taskMatch, trim (group' 2 taskMatch)) <$> exec taskRe line.

(** the example of the specification *)
Definition checklist : str :=
  document ["# Tasks"; "## Phase 1: Setup"; "- [ ] T001 Initial setup";
            "- [X] T002 Already done"; "## Phase 2: Core";
            "- [ ] T003 [P] [US1] Build core"].

End Lines.
Import Lines.

(** ** Files, the clock and failures

    The functions of the two modules are [async] and touch the file
    system; a call is a function from the world before to its outcome, a
    thrown exception or a value, with the world after.  The world records
    every file-system call in [trace]. *)

Module Io.

Inductive exn :=
| Error (message : string)
| ReadFailed (filePath : str)
| WriteFailed (filePath : str).

Inductive event :=
| Access (filePath : str)
| Read (filePath : str)
| Write (filePath content : str)
| Now
| Exec (command : str).

Record World := {
  files : gmap str str;
  unreadable : gset str;
  unwritable : gset str;
  clock : str;
  trace : list event;
}.

Definition logged (e : event) (w : World) : World :=
  {| files := files w; unreadable := unreadable w; unwritable := unwritable w;
     clock := clock w; trace := trace w ++ [e] |}.

Definition stored (filePath content : str) (w : World) : World :=
  {| files := <[filePath := content]> (files w); unreadable := unreadable w;
     unwritable := unwritable w; clock := clock w; trace := trace w |}.

Definition IO (A : Type) : Type := World -> (exn + A) * World.

Definition ret {A} (a : A) : IO A := fun w => (inr a, w).

Definition throw {A} (e : exn) : IO A := fun w => (inl e, w).

Definition bind {A B} (m : IO A) (k : A -> IO B) : IO B :=
  fun w => match m w with
           | (inr a, w') => k a w'
           | (inl e, w') => (inl e, w')
           end.

(** [try { m } catch { h }] *)
Definition catch {A} (m : IO A) (h : exn -> IO A) : IO A :=
  fun w => match m w with
           | (inr a, w') => (inr a, w')
           | (inl e, w') => h e w'
           end.

End Io.
Import Io.

Notation "x <- m ;; k" := (bind m (fun x => k))
  (at level 100, m at next level, right associativity).
Notation "m ;;; k" := (bind m (fun _ => k))
  (at level 100, right associativity).

Module FilesIo.

(** [fs.readFile(filePath, 'utf-8')], any failure rethrown as
    [Failed to read file ...] *)
Definition readFile (filePath : str) : IO str :=
  fun w =>
    let w' := logged (Read filePath) w in
    match files w !! filePath with
    | Some content =>
        if decide (filePath ∈ unreadable w) then (inl (ReadFailed filePath), w')
        else (inr content, w')
    | None => (inl (ReadFailed filePath), w')
    end.

(** [fs.mkdir(dirname)] then [fs.writeFile], any failure rethrown as
    [Failed to write file ...] *)
Definition writeFile (filePath content : str) : IO unit :=
  fun w =>
    let w' := logged (Write filePath content) w in
    if decide (filePath ∈ unwritable w) then (inl (WriteFailed filePath), w')
    else (inr tt, stored filePath content w').

(** [fs.access(filePath)] succeeded *)
Definition fileExists (filePath : str) : IO bool :=
  fun w => (inr (bool_decide (is_Some (files w !! filePath))),
            logged (Access filePath) w).

Definition parseTasksMd (filePath : str) : IO (list Task) :=
  if falsy filePath then throw (Error "File path is required")
  else content <- readFile filePath ;;
       ret (parseContent content).

Definition markTaskComplete (filePath taskId : str) : IO unit :=
  if falsy filePath then throw (Error "File path is required")
  else if falsy taskId || falsy (trim taskId)
       then throw (Error "Task ID is required")
  else content <- readFile filePath ;;
       writeFile filePath (markContent taskId content).

Definition getIncompleteTasks (filePath : str) : IO (list Task) :=
  if falsy filePath then throw (Error "File path is required")
  else tasks <- parseTasksMd filePath ;;
       ret (filter (fun task => negb (completed task) = true) tasks).

End FilesIo.
Import FilesIo.

Module Worlds.

(** The checklist at [filePath] holds [content] and can be read. *)
Definition readable (w : World) (filePath content : str) : Prop :=
  files w !! filePath = Some content ∧ (filePath ∉ unreadable w).

(** The checklist at [filePath] holds [content] and can be read and
    written. *)
Definition holds (w : World) (filePath content : str) : Prop :=
  files w !! filePath = Some content
  ∧ (filePath ∉ unreadable w) ∧ (filePath ∉ unwritable w).

(** [w'] differs from [w] by calls that left every file as it was *)
Definition sameFiles (w w' : World) : Prop :=
  files w' = files w ∧ unreadable w' = unreadable w
  ∧ unwritable w' = unwritable w ∧ clock w' = clock w.

(** a world with one file *)
Definition oneFile (filePath content : str) : World :=
  {| files := {[ filePath := content ]}; unreadable := ∅; unwritable := ∅;
     clock := js "2025-01-01T00:00:00.000Z"; trace := [] |}.

(** a world without files *)
Definition noFiles : World :=
  {| files := ∅; unreadable := ∅; unwritable := ∅;
     clock := js "2025-01-01T00:00:00.000Z"; trace := [] |}.

End Worlds.
Import Worlds.

(** ** The workflow state store: state.ts *)

Module State.

(** the values a step payload holds: what survives [JSON.stringify] *)
#[warnings="-register-all"]
Inductive json :=
| JNull
| JBool (b : bool)
| JNum (n : Z)
| JStr (s : str)
| JArr (items : list json)
| JObj (fields : list (str * json)).

(** [WorkflowState['currentStep']] *)
Inductive Step :=
| specify | clarify | plan | tasks | implement | review | complete.

#[global] Instance Step_eq_dec : EqDecision Step.
Proof. solve_decision. Defined.

Definition Step_index (s : Step) : nat :=
  match s with
  | specify => 0 | clarify => 1 | plan => 2 | tasks => 3 | implement => 4
  | review => 5 | complete => 6
  end.

Definition Step_at (n : nat) : option Step :=
  match n with
  | 0 => Some specify | 1 => Some clarify | 2 => Some plan | 3 => Some tasks
  | 4 => Some implement | 5 => Some review | 6 => Some complete
  | _ => None
  end%nat.

#[global] Instance Step_countable : Countable Step.
Proof.
  apply (inj_countable Step_index Step_at). by intros [].
Defined.

Record Metadata := {
  startedAt : option str;
  completedAt : option str;
  featureDescription : option str;
}.

Record WorkflowState := {
  featureDir : str;
  currentStep : Step;
  stepStatus : gmap Step (gmap str json);
  metadata : Metadata;
}.

Definition STATE_FILE : str := js ".speckit-workflow-state.json".

Section Store.

(** Node's [path.join] and the platform's [JSON.stringify(_, null, 2)] and
    [JSON.parse]; [JSON_parse] is [None] where [JSON.parse] throws, and the
    text it accepts is taken to have the shape of a WorkflowState, as the
    cast [as WorkflowState] of the source does. *)
Variable path_join : str -> str -> str.
Variable JSON_stringify : WorkflowState -> str.
Variable JSON_parse : str -> option WorkflowState.

Definition getWorkflowState (featureDir : str) : IO (option WorkflowState) :=
  let statePath := path_join featureDir STATE_FILE in
  ex <- fileExists statePath ;;
  if negb ex then ret None
  else catch (content <- readFile statePath ;;
              match JSON_parse content with
              | Some state => ret (Some state)
              | None => throw (Error "SyntaxError")
              end)
             (fun _ => ret None).

Definition setWorkflowState (state : WorkflowState) : IO unit :=
  let statePath := path_join (featureDir state) STATE_FILE in
  writeFile statePath (JSON_stringify state).

(** [new Date().toISOString()] *)
Definition toISOString_now : IO str :=
  fun w => (inr (clock w), logged Now w).

Definition initWorkflowState (featureDir featureDescription : str)
  : IO WorkflowState :=
  startedAt <- toISOString_now ;;
  let state :=
    {| featureDir := featureDir;
       currentStep := specify;
       stepStatus := ∅;
       metadata := {| startedAt := Some startedAt;
                      completedAt := None;
                      featureDescription := Some featureDescription |} |} in
  setWorkflowState state ;;;
  ret state.

(** [{ ...state.stepStatus[step], ...stepData, completed: true }] *)
Definition mergeStep (old : option (gmap str json)) (stepData : gmap str json)
  : gmap str json :=
  <[js "completed" := JBool true]> (stepData ∪ default ∅ old).

(** The type of the [step] parameter, [Exclude<WorkflowState['currentStep'],
    'complete'>], is checked by the compiler and erased from the code that
    runs: the function has no test of its own, and a call with [complete]
    runs like any other.  The parameter is a step name. *)
Definition updateWorkflowState (featureDir : str) (step : Step)
    (stepData : gmap str json) : IO WorkflowState :=
  found <- getWorkflowState featureDir ;;
  state <- match found with
           | Some state => ret state
           | None => initWorkflowState featureDir []
           end ;;
  let state :=
    {| featureDir := State.featureDir state;
       currentStep := step;
       stepStatus :=
         <[step := mergeStep (stepStatus state !! step) stepData]>
           (stepStatus state);
       metadata := metadata state |} in
  setWorkflowState state ;;;
  ret state.

(** the assignments of updateWorkflowState to [state] *)
Definition stepped (step : Step) (stepData : gmap str json)
    (state : WorkflowState) : WorkflowState :=
  {| featureDir := State.featureDir state;
     currentStep := step;
     stepStatus :=
       <[step := mergeStep (stepStatus state !! step) stepData]>
         (stepStatus state);
     metadata := metadata state |}.

(** the state initWorkflowState makes at the instant [startedAt] *)
Definition initial (dir featureDescription startedAt : str) : WorkflowState :=
  {| featureDir := dir;
     currentStep := specify;
     stepStatus := ∅;
     metadata := {| startedAt := Some startedAt;
                    completedAt := None;
                    featureDescription := Some featureDescription |} |}.

(** the state file of the directory [dir] *)
Definition statePath (dir : str) : str := path_join dir STATE_FILE.

(** the state a read of [dir] finds *)
Definition found (w : World) (dir : str) : option WorkflowState :=
  match files w !! statePath dir with
  | Some content =>
      if decide (statePath dir ∈ unreadable w) then None
      else JSON_parse content
  | None => None
  end.

(** The store at [dir] is consistent: a state kept in the file of [dir]
    names, as its [featureDir], a directory with that same file.  The store
    without a file is consistent, and setWorkflowState keeps every
    directory consistent, since it writes a state to the file of the
    directory the state names. *)
Definition consistent (w : World) (dir : str) : Prop :=
  ∀ st, found w dir = Some st →
        statePath (State.featureDir st) = statePath dir.

(** The state file of [dir] holds what the store puts there: it is
    missing, or [JSON.parse] refuses its text, or its text is what
    [JSON.stringify] gives for a state, and [JSON.parse] reads that state
    back.  A file with other JSON text, such as [42] or [{}], is outside:
    [JSON.parse] accepts it and the code goes on with a value that is no
    state. *)
Definition wellFormed (w : World) (dir : str) : Prop :=
  ∀ content, files w !! statePath dir = Some content →
    JSON_parse content = None
    ∨ ∃ st, content = JSON_stringify st ∧ JSON_parse content = Some st.

(** the state updateWorkflowState starts from *)
Definition base (w : World) (dir : str) : WorkflowState :=
  default (initial dir [] (clock w)) (found w dir).

End Store.

End State.
Import State.

(** ** An instance of the platform functions

    A printer in the format of [JSON.stringify(state, null, 2)], a reader
    of JSON text and a [path.join] for plain segments, to run the store on
    examples.  Numbers are the integers; text that is JSON without the
    shape of a state is refused. *)

Module Json.

Fixpoint digitsOf (fuel : nat) (n : N) (acc : str) : str :=
  match fuel with
  | O => acc
  | S fuel' =>
      let acc' := (48 + n mod 10) :: acc in
      if n / 10 =? 0 then acc' else digitsOf fuel' (n / 10) acc'
  end.

Definition showN (n : N) : str := digitsOf (S (N.to_nat (N.log2 n))) n [].

Definition showZ (z : Z) : str :=
  match z with
  | Z0 => js "0"
  | Zpos p => showN (Npos p)
  | Zneg p => js "-" ++ showN (Npos p)
  end.

Definition hexDigit (n : N) : N := if n <? 10 then 48 + n else 87 + n.

Definition escape (c : N) : str :=
  if c =? 34 then [92; 34]
  else if c =? 92 then js "\\"
  else if c =? 8 then js "\b"
  else if c =? 12 then js "\f"
  else if c =? 10 then js "\n"
  else if c =? 13 then js "\r"
  else if c =? 9 then js "\t"
  else if c <? 32 then js "\u00" ++ [hexDigit (c / 16); hexDigit (c mod 16)]
  else [c].

Definition quote (s : str) : str := 34 :: flat_map escape s ++ [34].

Definition indent (depth : nat) : str := repeat 32 (2 * depth).

Fixpoint sepBy (sep : str) (ls : list str) : str :=
  match ls with
  | [] => []
  | [l] => l
  | l :: ls' => l ++ sep ++ sepBy sep ls'
  end.

Definition block (open close : N) (depth : nat) (entries : list str) : str :=
  match entries with
  | [] => [open; close]
  | _ => open :: LF :: sepBy [44; LF] (map (app (indent (S depth))) entries)
              ++ LF :: indent depth ++ [close]
  end.

Fixpoint print (depth : nat) (v : json) : str :=
  match v with
  | JNull => js "null"
  | JBool true => js "true"
  | JBool false => js "false"
  | JNum n => showZ n
  | JStr s => quote s
  | JArr items => block 91 93 depth (map (print (S depth)) items)
  | JObj fields =>
      block 123 125 depth
        (map (λ kv, quote kv.1 ++ js ": " ++ print (S depth) kv.2) fields)
  end.

Fixpoint skipws (s : str) : str :=
  match s with
  | c :: r =>
      if (c =? 32) || (c =? 9) || (c =? 10) || (c =? 13) then skipws r else s
  | [] => []
  end.

Definition hexValue (c : N) : option N :=
  if (48 <=? c) && (c <=? 57) then Some (c - 48)
  else if (97 <=? c) && (c <=? 102) then Some (c - 87)
  else if (65 <=? c) && (c <=? 70) then Some (c - 55)
  else None.

Definition unescape (e : N) : option N :=
  if e =? 34 then Some 34 else if e =? 92 then Some 92
  else if e =? 47 then Some 47 else if e =? 98 then Some 8
  else if e =? 102 then Some 12 else if e =? 110 then Some 10
  else if e =? 114 then Some 13 else if e =? 116 then Some 9
  else None.

(** the characters of a string literal, after its opening quote *)
Fixpoint readString (s acc : str) : option (str * str) :=
  match s with
  | [] => None
  | 34 :: r => Some (rev acc, r)
  | 92 :: 117 :: h1 :: h2 :: h3 :: h4 :: r =>
      match hexValue h1, hexValue h2, hexValue h3, hexValue h4 with
      | Some a, Some b, Some c, Some d =>
          readString r (((a * 16 + b) * 16 + c) * 16 + d :: acc)
      | _, _, _, _ => None
      end
  | 92 :: e :: r =>
      match unescape e with
      | Some c => readString r (c :: acc)
      | None => None
      end
  | c :: r => if c <? 32 then None else readString r (c :: acc)
  end.

Fixpoint readDigits (s : str) (acc : N) : N * str :=
  match s with
  | c :: r => if isDigit c then readDigits r (acc * 10 + (c - 48)) else (acc, s)
  | [] => (acc, [])
  end.

(** an integer; a fraction or an exponent is refused *)
Definition readNumber (s : str) : option (json * str) :=
  let '(negative, s1) :=
    match s with 45 :: r => (true, r) | _ => (false, s) end in
  match s1 with
  | c :: _ =>
      if isDigit c then
        let '(n, r) := readDigits s1 0 in
        match r with
        | 46 :: _ | 101 :: _ | 69 :: _ => None
        | _ => Some (JNum (if negative then - Z.of_N n else Z.of_N n), r)
        end
      else None
  | [] => None
  end.

Fixpoint readValue (fuel : nat) (s : str) : option (json * str) :=
  match fuel with
  | O => None
  | S fuel' =>
      match skipws s with
      | 110 :: 117 :: 108 :: 108 :: r => Some (JNull, r)
      | 116 :: 114 :: 117 :: 101 :: r => Some (JBool true, r)
      | 102 :: 97 :: 108 :: 115 :: 101 :: r => Some (JBool false, r)
      | 34 :: r =>
          match readString r [] with
          | Some (t, r') => Some (JStr t, r')
          | None => None
          end
      | 91 :: r =>
          match skipws r with
          | 93 :: r' => Some (JArr [], r')
          | _ =>
              (fix items (n : nat) (s : str) (acc : list json) {struct n} :=
                 match n with
                 | O => None
                 | S n' =>
                     match readValue fuel' s with
                     | Some (v, r1) =>
                         match skipws r1 with
                         | 44 :: r2 => items n' r2 (v :: acc)
                         | 93 :: r2 => Some (JArr (rev (v :: acc)), r2)
                         | _ => None
                         end
                     | None => None
                     end
                 end) fuel' r []
          end
      | 123 :: r =>
          match skipws r with
          | 125 :: r' => Some (JObj [], r')
          | _ =>
              (fix fields (n : nat) (s : str) (acc : list (str * json))
                   {struct n} :=
                 match n with
                 | O => None
                 | S n' =>
                     match skipws s with
                     | 34 :: r0 =>
                         match readString r0 [] with
                         | Some (k, r1) =>
                             match skipws r1 with
                             | 58 :: r2 =>
                                 match readValue fuel' r2 with
                                 | Some (v, r3) =>
                                     match skipws r3 with
                                     | 44 :: r4 => fields n' r4 ((k, v) :: acc)
                                     | 125 :: r4 =>
                                         Some (JObj (rev ((k, v) :: acc)), r4)
                                     | _ => None
                                     end
                                 | None => None
                                 end
                             | _ => None
                             end
                         | None => None
                         end
                     | _ => None
                     end
                 end) fuel' r []
          end
      | s' => readNumber s'
      end
  end.

Definition read (s : str) : option json :=
  match readValue (S (length s)) s with
  | Some (v, r) => if falsy (skipws r) then Some v else None
  | None => None
  end.

Definition steps : list Step :=
  [specify; clarify; plan; tasks; implement; review; complete].

Definition stepName (s : Step) : str :=
  match s with
  | specify => js "specify" | clarify => js "clarify" | plan => js "plan"
  | tasks => js "tasks" | implement => js "implement"
  | review => js "review" | complete => js "complete"
  end.

Definition stepNamed (name : str) : option Step :=
  List.find (λ s, bool_decide (stepName s = name)) steps.

Definition field (k : string) (fields : list (str * json)) : option json :=
  snd <$> List.find (λ kv, bool_decide (kv.1 = js k)) fields.

Definition optional (k : string) (o : option str) : list (str * json) :=
  match o with Some s => [(js k, JStr s)] | None => [] end.

Definition textField (k : string) (fields : list (str * json))
  : option (option str) :=
  match field k fields with
  | Some (JStr s) => Some (Some s)
  | Some _ => None
  | None => Some None
  end.

Definition toJson (st : WorkflowState) : json :=
  JObj [(js "featureDir", JStr (featureDir st));
        (js "currentStep", JStr (stepName (currentStep st)));
        (js "stepStatus",
         JObj (map (λ sp, (stepName sp.1, JObj (map_to_list sp.2)))
                   (map_to_list (stepStatus st))));
        (js "metadata",
         JObj (optional "startedAt" (startedAt (metadata st))
               ++ optional "completedAt" (completedAt (metadata st))
               ++ optional "featureDescription"
                    (featureDescription (metadata st))))].

Definition statusOf (kv : str * json) : option (Step * gmap str json) :=
  match stepNamed kv.1, kv.2 with
  | Some s, JObj payload => Some (s, list_to_map payload)
  | _, _ => None
  end.

Definition fromJson (v : json) : option WorkflowState :=
  match v with
  | JObj fs =>
      match field "featureDir" fs, field "currentStep" fs,
            field "stepStatus" fs, field "metadata" fs with
      | Some (JStr dir), Some (JStr current), Some (JObj ss), Some (JObj ms) =>
          current ← stepNamed current;
          statuses ← mapM statusOf ss;
          started ← textField "startedAt" ms;
          completed ← textField "completedAt" ms;
          described ← textField "featureDescription" ms;
          Some {| featureDir := dir; currentStep := current;
                  stepStatus := list_to_map statuses;
                  metadata := {| startedAt := started;
                                 completedAt := completed;
                                 featureDescription := described |} |}
      | _, _, _, _ => None
      end
  | _ => None
  end.

Definition stringify (st : WorkflowState) : str := print 0 (toJson st).

Definition parse (s : str) : option WorkflowState := read s ≫= fromJson.

(** [path.join] of a directory without a trailing separator and a name *)
Definition pathJoin (dir name : str) : str := dir ++ js "/" ++ name.

End Json.

(** the store after the step [implement], from a world without files *)
Definition implementing : World :=
  (updateWorkflowState Json.pathJoin Json.stringify Json.parse
     (js "feat") State.implement ∅ noFiles).2.

(** a state of the directory [other] kept in the state file of [feat], as
    after a copy of the directory *)
Definition copied : World :=
  oneFile (Json.pathJoin (js "feat") STATE_FILE)
    (Json.stringify
       (initial (js "other") (js "demo") (js "2025-01-01T00:00:00.000Z"))).

(** a world in which the state file of [feat] cannot be written *)
Definition locked : World :=
  {| files := ∅; unreadable := ∅;
     unwritable := {[ Json.pathJoin (js "feat") STATE_FILE ]};
     clock := js "2025-01-01T00:00:00.000Z"; trace := [] |}.

(** a state file that does not parse *)
Definition broken : World :=
  oneFile (Json.pathJoin (js "feat") STATE_FILE) (js "{ oops").

(** ** The implementation tool: tools/implement.ts, with getFeaturePaths
    of utils/scripts.ts *)

Module Implement.

(** the object getFeaturePaths resolves to; a field the script left out is
    the empty string, which is falsy as [undefined] is *)
Record FeaturePaths := {
  REPO_ROOT : str;
  BRANCH : str;
  FEATURE_DIR : str;
  FEATURE_SPEC : str;
  IMPL_PLAN : str;
  TASKS : str;
  AVAILABLE_DOCS : option (list str);
}.

Record PathOptions := {
  requireTasks : bool;
  includeTasks : bool;
  pathsOnly : bool;
  optFeatureDir : option str;
}.

Record ImplementResult := {
  success : bool;
  tasksCompleted : nat;
  totalTasks : nat;
  filesCreated : list str;
  filesModified : list str;
  message : str;
}.

Section Tools.

(** Node's [path] functions and the platform's JSON functions; [root],
    what the run of git in getRepoRoot answers, or the working directory
    when git fails; executeScriptJSON, the run of the prerequisites script
    with the parse of its output, [None] for [null]; and the text of
    [`Invalid paths returned: ${JSON.stringify(paths)}`]. *)
Variable path_join : str -> str -> str.
Variable path_isAbsolute : str -> bool.
Variable path_basename : str -> str.
Variable JSON_stringify : WorkflowState -> str.
Variable JSON_parse : str -> option WorkflowState.
Variable root : str.
Variable executeScriptJSON :
  str -> list str -> str -> IO (option FeaturePaths).
Variable invalidPaths : option FeaturePaths -> string.

(** [execSync('git rev-parse --show-toplevel')] in a [try] whose [catch]
    answers [process.cwd()]: the call runs a process, leaves no file
    changed and throws nothing. *)
Definition getRepoRoot : IO str :=
  fun w => (inr root, logged (Exec (js "git rev-parse --show-toplevel")) w).

Definition getFeaturePaths (options : PathOptions)
  : IO (option FeaturePaths) :=
  repoRoot <- getRepoRoot ;;
  match optFeatureDir options with
  | Some ((_ :: _) as featureDir) =>
      let absoluteFeatureDir :=
        if path_isAbsolute featureDir then featureDir
        else path_join repoRoot featureDir in
      let branchName := path_basename absoluteFeatureDir in
      ret (Some {| REPO_ROOT := repoRoot;
                   BRANCH := branchName;
                   FEATURE_DIR := absoluteFeatureDir;
                   FEATURE_SPEC := path_join absoluteFeatureDir (js "spec.md");
                   IMPL_PLAN := path_join absoluteFeatureDir (js "plan.md");
                   TASKS := path_join absoluteFeatureDir (js "tasks.md");
                   AVAILABLE_DOCS := None |})
  | _ =>
      let scriptPath :=
        path_join repoRoot (js ".specify/scripts/bash/check-prerequisites.sh") in
      let args :=
        (if requireTasks options then [js "--require-tasks"] else [])
        ++ (if includeTasks options then [js "--include-tasks"] else [])
        ++ (if pathsOnly options then [js "--paths-only"] else []) in
      executeScriptJSON scriptPath args repoRoot
  end.

(** [!paths || !paths.TASKS] *)
Definition noTasks (paths : option FeaturePaths) : bool :=
  match paths with
  | Some paths => falsy (TASKS paths)
  | None => true
  end.

(** [tasks.filter(t => t.completed).length] *)
Definition completedCount (parsed : list Task) : nat :=
  length (filter (fun t => completed t = true) parsed).

Definition speckitImplement (featureDir : str) (autoContinue : bool)
  : IO ImplementResult :=
  paths <- getFeaturePaths {| requireTasks := true; includeTasks := true;
                              pathsOnly := false;
                              optFeatureDir := Some featureDir |} ;;
  if noTasks paths then throw (Error (invalidPaths paths))
  else
    let TASKS := default [] (TASKS <$> paths) in
    ex <- fileExists TASKS ;;
    if negb ex
    then throw (Error "tasks.md not found. Run speckit_tasks first.")
    else
      parsed <- parseTasksMd TASKS ;;
      incompleteTasks <- getIncompleteTasks TASKS ;;
      ret {| success := true;
             tasksCompleted := completedCount parsed;
             totalTasks := length parsed;
             filesCreated := [];
             filesModified := [];
             message :=
               js "Found "
               ++ Json.showZ (Z.of_nat (length incompleteTasks))
               ++ js " incomplete tasks. Implementation should proceed automatically without interruptions." |}.

Definition markTaskAsComplete (featureDir taskId : str) : IO unit :=
  paths <- getFeaturePaths {| requireTasks := true; includeTasks := true;
                              pathsOnly := false;
                              optFeatureDir := Some featureDir |} ;;
  if noTasks paths then throw (Error (invalidPaths paths))
  else
    let TASKS := default [] (TASKS <$> paths) in
    if falsy taskId || falsy (trim taskId)
    then throw (Error "Task ID is required")
    else
      markTaskComplete TASKS taskId ;;;
      parsed <- parseTasksMd TASKS ;;
      let completed := completedCount parsed in
      updateWorkflowState path_join JSON_stringify JSON_parse
        featureDir State.implement
        {[ js "tasksCompleted" := JNum (Z.of_nat completed);
           js "totalTasks" := JNum (Z.of_nat (length parsed)) ]} ;;;
      ret tt.

(** the checklist of a feature directory given by name *)
Definition tasksPath (featureDir : str) : str :=
  path_join (if path_isAbsolute featureDir then featureDir
             else path_join root featureDir)
    (js "tasks.md").

End Tools.

End Implement.
Import Implement.

(** ** An instance of the tool's environment, to run it on examples *)

Module Posix.

(** [path.isAbsolute] and [path.basename] for plain POSIX paths *)
Definition isAbsolute (p : str) : bool :=
  match p with
  | 47 :: _ => true
  | _ => false
  end.

Definition basename (p : str) : str := default [] (last (split 47 p)).

Definition repoRoot : str := js "/repo".

(** a repository without the prerequisites script *)
Definition noScript (scriptPath : str) (args : list str) (cwd : str)
  : IO (option FeaturePaths) :=
  throw (Error "Script failed").

Definition invalid (paths : option FeaturePaths) : string :=
  "Invalid paths returned".

(** a feature directory with the example checklist *)
Definition feature : World :=
  oneFile (js "/repo/feat/tasks.md") checklist.

(** the same, its state file write-protected *)
Definition featureLocked : World :=
  {| files := {[ js "/repo/feat/tasks.md" := checklist ]};
     unreadable := ∅;
     unwritable := {[ Json.pathJoin (js "/repo/feat") STATE_FILE ]};
     clock := js "2025-01-01T00:00:00.000Z"; trace := [] |}.

End Posix.

(** ** JSON in the output of a script: parseJSONFromOutput of
    utils/scripts.ts *)

Module Scripts.

(** [s.indexOf(c)] for a one-character [c], [-1] without one; [from] is
    the index of the head of [s] *)
Fixpoint indexFrom (from : Z) (c : N) (s : str) : Z :=
  match s with
  | [] => -1
  | a :: s' => if a =? c then from else indexFrom (from + 1) c s'
  end.

Definition indexOf (c : N) (s : str) : Z := indexFrom 0 c s.

(** The [for] loop over [output[i]] for [i] from [startIndex], with its
    five variables; [rest] is the output from [i] on.  The result is
    [jsonStr] when the loop ends, by [break] or at the end of the output. *)
Fixpoint extractLoop (rest jsonStr : str) (braceCount bracketCount : Z)
    (inString escapeNext : bool) : str :=
  match rest with
  | [] => jsonStr
  | char :: rest' =>
      if escapeNext then
        extractLoop rest' (jsonStr ++ [char]) braceCount bracketCount
          inString false
      else if char =? 92 then
        extractLoop rest' (jsonStr ++ [char]) braceCount bracketCount
          inString true
      else if char =? 34 then
        extractLoop rest' (jsonStr ++ [char]) braceCount bracketCount
          (negb inString) escapeNext
      else if inString then
        extractLoop rest' (jsonStr ++ [char]) braceCount bracketCount
          inString escapeNext
      else if char =? 123 then
        extractLoop rest' (jsonStr ++ [char]) (braceCount + 1) bracketCount
          inString escapeNext
      else if char =? 125 then
        if (braceCount - 1 =? 0)%Z && (bracketCount =? 0)%Z
        then jsonStr ++ [char]
        else extractLoop rest' (jsonStr ++ [char]) (braceCount - 1)
               bracketCount inString escapeNext
      else if char =? 91 then
        extractLoop rest' (jsonStr ++ [char]) braceCount (bracketCount + 1)
          inString escapeNext
      else if char =? 93 then
        if (braceCount =? 0)%Z && (bracketCount - 1 =? 0)%Z
        then jsonStr ++ [char]
        else extractLoop rest' (jsonStr ++ [char]) braceCount
               (bracketCount - 1) inString escapeNext
      else
        extractLoop rest' (jsonStr ++ [char]) braceCount bracketCount
          inString escapeNext
  end.

(** the message of the error thrown *)
Definition failed (output : str) : str :=
  js "Failed to parse JSON output: " ++ output.

(** where the extraction starts, [-1] without a brace or bracket *)
Definition startOf (output : str) : Z :=
  let objectStart := indexOf 123 output in
  let arrayStart := indexOf 91 output in
  if negb (objectStart =? -1)%Z
     && ((arrayStart =? -1)%Z || (objectStart <? arrayStart)%Z)
  then objectStart
  else if negb (arrayStart =? -1)%Z then arrayStart
  else (-1)%Z.

Section Parse.

(** [JSON.parse] at the type [T] of the caller, [None] where it throws *)
Variable T : Type.
Variable JSON_parse : str -> option T.

(** The result is the value returned or the message of the error
    thrown. *)
Definition parseJSONFromOutput (output : str) : str + T :=
  match JSON_parse output with
  | Some value => inr value
  | None =>
      let startIndex := startOf output in
      if negb (startIndex =? -1)%Z then
        let jsonStr :=
          extractLoop (drop (Z.to_nat startIndex) output) [] 0 0 false false in
        match JSON_parse jsonStr with
        | Some value => inr value
        | None => inl (failed output)
        end
      else inl (failed output)
  end.

End Parse.

(** a brace or a bracket that opens *)
Definition opens (c : N) : bool := (c =? 123) || (c =? 91).

(** the bracket that closes [c] *)
Definition closing (c : N) : N := if c =? 123 then 125 else 93.

(** a character that is no brace, bracket, quote or backslash *)
Definition plain (c : N) : bool :=
  negb ((c =? 123) || (c =? 125) || (c =? 91) || (c =? 93) || (c =? 34)
        || (c =? 92)).

(** the inside of a string literal: a backslash takes the next character
    with it, and no quote stands alone *)
Inductive stringBody : str -> Prop :=
| sb_nil : stringBody []
| sb_char c s :
    (c =? 34) = false -> (c =? 92) = false -> stringBody s ->
    stringBody (c :: s)
| sb_escape c s : stringBody s -> stringBody (92 :: c :: s).

(** text whose braces and brackets outside string literals are nested and
    closed, as in a JSON value *)
Inductive nested : str -> Prop :=
| n_nil : nested []
| n_plain c s : plain c = true -> nested s -> nested (c :: s)
| n_string body s :
    stringBody body -> nested s -> nested (34 :: body ++ 34 :: s)
| n_object inner s :
    nested inner -> nested s -> nested (123 :: inner ++ 125 :: s)
| n_array inner s :
    nested inner -> nested s -> nested (91 :: inner ++ 93 :: s).

End Scripts.
Import Scripts.

(** ** The short name of a feature: generateShortName of tools/specify.ts *)

Module Specify.

(** [String.prototype.toLowerCase] on one code unit, for the characters
    whose lower case holds a code unit of the class [[a-z0-9\s]] that the
    next step keeps: the capitals [A] to [Z], the capital I with dot
    U+0130, whose lower case is [i] followed by U+0307, and the Kelvin
    sign U+212A, whose lower case is [k].  No other character has such a
    lower case, so every other code unit, which the next step removes
    lowered or not, is left as it is here. *)
Definition lowerUnit (c : N) : str :=
  if (65 <=? c) && (c <=? 90) then [c + 32]
  else if c =? 304 then [105; 775]
  else if c =? 8490 then [107]
  else [c].

Definition toLowerCase (s : str) : str := flat_map lowerUnit s.

(** [[a-z0-9]] *)
Definition isLowerAlnum (c : N) : bool :=
  (97 <=? c) && (c <=? 122) || isDigit c.

(** [s.replace(/[^a-z0-9\s]/g, '')] *)
Definition keepWords (s : str) : str :=
  filter (fun c => (isLowerAlnum c || isSpace c) = true) s.

(** [s.split(/\s+/)]: [word] is the piece being read and [gap] says that
    the last character was white space *)
Fixpoint splitSpaces (s word : str) (gap : bool) : list str :=
  match s with
  | [] => [word]
  | c :: s' =>
      if isSpace c then
        if gap then splitSpaces s' [] true
        else word :: splitSpaces s' [] true
      else splitSpaces s' (word ++ [c]) false
  end.

Definition generateShortName (description : str) : str :=
  let words :=
    take 4 (filter (fun w : str => (0 <? length w)%nat = true)
              (splitSpaces (keepWords (toLowerCase description)) [] false)) in
  take 50 (join 45 words).

(** the number of hyphens of a name *)
Definition hyphens (name : str) : nat :=
  length (filter (fun c => c = 45) name).

End Specify.
Import Specify.

(** ** Further notions on the checklist *)

Module Marks.

(** the record with its completion flag set *)
Definition finished (t : Task) : Task :=
  {| id := id t; completed := true; description := description t;
     phase := phase t; parallel := parallel t; story := story t |}.

(** the record marking makes of a record: itself, or itself finished *)
Definition marked (t t' : Task) : Prop := t' = t ∨ t' = finished t.

(** The line is empty or ends with a line terminator, as every line of a
    document with CR LF line ends does. *)
Definition endsLine (line : str) : bool :=
  match last line with
  | Some c => isLineTerminator c
  | None => true
  end.

(** The text holds no line terminator other than the line feed. *)
Definition plainLines (content : str) : bool :=
  forallb (λ c, isDot c || (c =? LF)) content.

End Marks.
Import Marks.

(** ** The lines the mutator rewrites, said without the pattern *)

Module Targets.

(** [line'] is [line] with [X] in its checkbox: the line is a hyphen, white
    space, an opening bracket, a checkbox character, a closing bracket and
    more, and [line'] differs from it in the checkbox character only.  The
    white space is all there is between the hyphen and the bracket, so the
    checkbox is at one place of the line and [line'] is one text. *)
Definition ticked (line line' : str) : Prop :=
  ∃ ws c post,
    line = js "-" ++ ws ++ js "[" ++ c :: js "]" ++ post
    ∧ plus isSpace ws = true ∧ isBox c = true
    ∧ line' = js "-" ++ ws ++ js "[" ++ 88 :: js "]" ++ post.

(** The lines markTaskComplete rewrites for [taskId]: a hyphen, white
    space, a checkbox in brackets, white space, the id, a [T] with digits,
    and then text without line terminator, which either does not go on
    with a digit or is one character long.  The last case is that of a
    line that ends with digits: the pattern asks for a character after the
    id and takes the last digit for it, so the line [- [ ] T0012] is
    rewritten for the id [T001]. *)
Definition targetLine (taskId line : str) : Prop :=
  ∃ ws c ws' ds rest,
    line = js "-" ++ ws ++ js "[" ++ c :: js "]" ++ ws' ++ taskId ++ rest
    ∧ taskId = js "T" ++ ds
    ∧ plus isSpace ws = true ∧ isBox c = true ∧ plus isSpace ws' = true
    ∧ plus isDigit ds = true ∧ plus isDot rest = true
    ∧ (stops isDigit rest = true ∨ length rest = 1%nat).

(** The line is one the parser reads as the task [taskId], and holds no
    line terminator. *)
Definition taskLine (taskId line : str) : Prop :=
  taskIdOf line = Some taskId ∧ forallb isDot line = true.

End Targets.
Import Targets.

(** ** The phase of a task, said without [trim] *)

Module Phases.

(** [p] is [s] without the white space at its two ends: [s] is white space,
    [p] and white space, and [p] neither begins nor ends with white
    space. *)
Definition trimmed (s p : str) : Prop :=
  ∃ l r, s = l ++ p ++ r
         ∧ forallb isSpace l = true ∧ forallb isSpace r = true
         ∧ stops isSpace p = true ∧ stops isSpace (rev p) = true.

(** [p] is the phase that the lines [before] give the line after them: the
    empty string when none of them is a heading line, and otherwise the
    title of the last heading line among them, trimmed.  A heading line is
    a line the heading pattern accepts, and its title what the group of
    the pattern holds. *)
Definition phaseAbove (before : list str) (p : str) : Prop :=
  (∀ l, l ∈ before → exec phaseRe l = None) ∧ p = []
  ∨ ∃ earlier heading phaseMatch between,
      before = earlier ++ heading :: between
      ∧ exec phaseRe heading = Some phaseMatch
      ∧ (∀ l, l ∈ between → exec phaseRe l = None)
      ∧ trimmed (group' 1 phaseMatch) p.

(** a checklist whose headings have white space after their titles *)
Definition spaced : str :=
  document ["## Phase 1: Setup  "; "- [ ] T001 Initial setup";
            "## Phase 2:  Core "; "- [x] T002 Build core"].

End Phases.
Import Phases.

(** * Properties *)

Ltac matches_inv :=
  repeat match goal with
         | H : matches ?r _ _ |- _ =>
             first [ is_var r; fail 1 | inversion H; subst; clear H ]
         end.

(** unfolds a pattern into its constructors, keeping the classes folded *)
Ltac norm_regex r :=
  let r' := eval cbv -[isSpace isBox isDigit isDot] in r in
  change r with r' in *.

(** brings concatenations to the right-nested form *)
Ltac list_norm := repeat (progress (simpl; rewrite <- ?app_assoc)).

(** evaluates the string literals of the goal *)
Ltac js_norm :=
  repeat match goal with
         | |- context [js ?s] =>
             let v := eval vm_compute in (js s) in change (js s) with v
         | H : context [js ?s] |- _ =>
             let v := eval vm_compute in (js s) in change (js s) with v in H
         end.

(** ** Strings *)

Section StringFacts.

Implicit Types (s t : str) (ls : list str).

Lemma split_nonempty sep s : split sep s ≠ [].
Proof. destruct s as [|c s]; simpl; [done|]. by repeat case_match. Qed.

Lemma join_split sep s : join sep (split sep s) = s.
Proof.
  induction s as [|c s IH]; simpl; [done|].
  destruct (N.eqb_spec c sep) as [->|Hne].
  - pose proof (split_nonempty sep s).
    destruct (split sep s) as [|l ls]; [done|]. simpl in *. by rewrite IH.
  - pose proof (split_nonempty sep s).
    destruct (split sep s) as [|l ls]; [done|].
    simpl in *. rewrite <- IH. by destruct ls.
Qed.

Lemma split_lineOk sep s : Forall (lineOk sep) (split sep s).
Proof.
  induction s as [|c s IH]; simpl.
  - repeat constructor. apply not_elem_of_nil.
  - destruct (N.eqb_spec c sep) as [->|Hne].
    + constructor; [apply not_elem_of_nil | done].
    + pose proof (split_nonempty sep s).
      destruct (split sep s) as [|l ls]; [done|].
      inversion_clear IH as [|?? Hl Hls]. constructor; [|done].
      unfold lineOk in *. rewrite elem_of_cons. intros [?|?]; [congruence|tauto].
Qed.

Lemma split_app_line sep l s :
  lineOk sep l → split sep (l ++ sep :: s) = l :: split sep s.
Proof.
  unfold lineOk. induction l as [|c l IH]; simpl; intros Hl.
  - by rewrite N.eqb_refl.
  - rewrite not_elem_of_cons in Hl. destruct Hl as [Hc Hl].
    destruct (N.eqb_spec c sep); [congruence|]. by rewrite IH.
Qed.

Lemma split_line sep l : lineOk sep l → split sep l = [l].
Proof.
  unfold lineOk. induction l as [|c l IH]; simpl; intros Hl; [done|].
  rewrite not_elem_of_cons in Hl. destruct Hl as [Hc Hl].
  destruct (N.eqb_spec c sep); [congruence|]. by rewrite IH.
Qed.

Lemma split_join sep ls :
  ls ≠ [] → Forall (lineOk sep) ls → split sep (join sep ls) = ls.
Proof.
  induction ls as [|l ls IH]; [done|]. intros _ Hall.
  inversion_clear Hall as [|?? Hl Hls]. destruct ls as [|l' ls].
  - simpl. by apply split_line.
  - change (join sep (l :: l' :: ls)) with (l ++ sep :: join sep (l' :: ls)).
    rewrite split_app_line by done. by rewrite IH.
Qed.

Lemma trimStart_spaces s : forallb isSpace s = true → trimStart s = [].
Proof.
  induction s as [|c s IH]; simpl; [done|].
  intros [Hc Hs]%andb_true_iff. rewrite Hc. auto.
Qed.

Lemma trim_spaces s : forallb isSpace s = true → trim s = [].
Proof. intros H. unfold trim. by rewrite trimStart_spaces. Qed.

Lemma trimStart_app x b y :
  isSpace b = false → trimStart (x ++ b :: y) = trimStart x ++ b :: y.
Proof.
  intros Hb. induction x as [|a x IH]; simpl.
  - by rewrite Hb.
  - by destruct (isSpace a).
Qed.

(** Trimming the end stops at the last character that is not white
    space. *)
Lemma trimEnd_app pre b tail :
  isSpace b = false → trimEnd (pre ++ b :: tail) = pre ++ b :: trimEnd tail.
Proof.
  intros Hb. unfold trimEnd.
  rewrite rev_app_distr. cbn [rev]. rewrite <- app_assoc. cbn [app].
  rewrite trimStart_app by done.
  rewrite rev_app_distr. cbn [rev]. rewrite rev_involutive.
  by rewrite <- app_assoc.
Qed.

Lemma trimStart_keeps s : noSpace s = true → trimStart s = s.
Proof.
  destruct s as [|a s]; simpl; [done|].
  intros [Ha%negb_true_iff _]%andb_true_iff. by rewrite Ha.
Qed.

(** A string without white space is its own trim. *)
Lemma trim_keeps s : noSpace s = true → trim s = s.
Proof.
  intros H. unfold trim, trimEnd. rewrite (trimStart_keeps s) by done.
  rewrite trimStart_keeps; [apply rev_involutive|].
  unfold noSpace in *. rewrite forallb_forall in *.
  intros a Ha%in_rev. by apply H.
Qed.

End StringFacts.

(** ** The matcher *)

Section RegexFacts.

Implicit Types (p : N → bool) (r : regex) (s w : str) (c : captures).

Lemma plus_intro p w : w ≠ [] → forallb p w = true → plus p w = true.
Proof. unfold plus. intros Hne ->. by destruct w. Qed.

Lemma plus_elim p w : plus p w = true → w ≠ [] ∧ forallb p w = true.
Proof. unfold plus. intros [H1 H2]%andb_true_iff. by destruct w. Qed.

Lemma runs_inv p s s' :
  In s' (runs p s) → ∃ w, s = w ++ s' ∧ w ≠ [] ∧ forallb p w = true.
Proof.
  revert s'. induction s as [|a s IH]; simpl; intros s' H; [done|].
  destruct (p a) eqn:Ha; [|done].
  apply in_app_iff in H as [H|[<-|[]]].
  - destruct (IH _ H) as (w & -> & _ & Hw).
    exists (a :: w). simpl. by rewrite Ha, Hw.
  - exists [a]. simpl. by rewrite Ha.
Qed.

Lemma runs_intro p w s : w ≠ [] → forallb p w = true → In s (runs p (w ++ s)).
Proof.
  induction w as [|a w IH]; [done|]. simpl. intros _ [Ha Hw]%andb_true_iff.
  rewrite Ha. apply in_app_iff. destruct w as [|b w]; [right; by left|].
  left. by apply IH.
Qed.

(** [run] lists exactly the matches: [In (s', c) (run r (w ++ s'))] holds
    when [r] reads the word [w] and captures [c]. *)
Lemma run_sound r s s' c :
  In (s', c) (run r s) → ∃ w, s = w ++ s' ∧ matches r w c.
Proof.
  revert s s' c. induction r as [|x|p|p|r1 IH1 r2 IH2|r IH|i r IH];
    simpl; intros s s' c H.
  - destruct H as [[= <- <-]|[]]. exists []. split; [done|constructor].
  - destruct s as [|a s]; [done|]. destruct (N.eqb_spec a x) as [->|]; [|done].
    destruct H as [[= <- <-]|[]]. exists [x]. split; [done|constructor].
  - destruct s as [|a s]; [done|]. destruct (p a) eqn:Ha; [|done].
    destruct H as [[= <- <-]|[]]. exists [a]. split; [done|by constructor].
  - apply in_map_iff in H as (t & [= <- <-] & H).
    destruct (runs_inv _ _ _ H) as (w & -> & ? & ?).
    exists w. split; [done|by constructor].
  - apply in_flat_map in H as ([s1 c1] & H1 & H).
    apply in_map_iff in H as ([s2 c2] & [= <- <-] & H2).
    destruct (IH1 _ _ _ H1) as (w1 & -> & ?).
    destruct (IH2 _ _ _ H2) as (w2 & -> & ?).
    exists (w1 ++ w2). split; [by rewrite <- app_assoc|by constructor].
  - apply in_app_iff in H as [H|[[= <- <-]|[]]].
    + destruct (IH _ _ _ H) as (w & -> & ?). exists w. split; [done|by constructor].
    + exists []. split; [done|apply m_Opt_none].
  - apply in_map_iff in H as ([t c'] & [= <- <-] & H).
    destruct (IH _ _ _ H) as (w & -> & ?). exists w. split; [done|].
    rewrite length_app, Nat.add_sub, take_app_length. by constructor.
Qed.

Lemma run_complete r w c s' : matches r w c → In (s', c) (run r (w ++ s')).
Proof.
  intros H. revert s'.
  induction H as [|x|p a Ha|p w Hne Hw|r1 r2 w1 w2 c1 c2 _ IH1 _ IH2
                  |r w c _ IH|r|i r w c _ IH]; intros s'; simpl.
  - by left.
  - rewrite N.eqb_refl. by left.
  - rewrite Ha. by left.
  - apply in_map_iff. exists s'. split; [done|]. by apply runs_intro.
  - apply in_flat_map. exists (w2 ++ s', c1). rewrite <- app_assoc.
    split; [apply IH1|]. apply in_map_iff. exists (s', c2). split; [done|apply IH2].
  - apply in_app_iff. left. apply IH.
  - apply in_app_iff. right. by left.
  - apply in_map_iff. exists (s', c). split; [|apply IH].
    by rewrite length_app, Nat.add_sub, take_app_length.
Qed.

Lemma exec_In r s c : exec r s = Some c → In ([], c) (run r s).
Proof.
  unfold exec. destruct (List.find atEnd (run r s)) as [[t c']|] eqn:E; [|done].
  intros [= <-]. apply find_some in E as [E1 E2]. by destruct t.
Qed.

(** A successful [exec] is a match of the whole string. *)
Lemma exec_matches r s c : exec r s = Some c → matches r s c.
Proof.
  intros H%exec_In. apply run_sound in H as (w & -> & H).
  by rewrite app_nil_r.
Qed.

Lemma In_exec r s c : In ([], c) (run r s) → is_Some (exec r s).
Proof.
  unfold exec. intros H.
  destruct (List.find atEnd (run r s)) as [x|] eqn:E; [by eexists|].
  by specialize (find_none _ _ E _ H).
Qed.

(** A string the pattern matches is never refused. *)
Lemma matches_exec r s c : matches r s c → is_Some (exec r s).
Proof.
  intros H. apply In_exec with c.
  rewrite <- (app_nil_r s). by apply run_complete.
Qed.

(** *** The order of search

    Equations that compute [run] along the input, for the places where a
    pattern leaves the matcher one way only. *)

Lemma map_caps_nil (l : list (str * captures)) :
  map (λ '(s2, c2), (s2, c2)) l = l.
Proof. induction l as [|[] l IH]; simpl; [done|]. by rewrite IH. Qed.

Lemma run_Seq_Chr x r a s :
  run (Seq (Chr x) r) (a :: s) = if a =? x then run r s else [].
Proof.
  simpl. destruct (a =? x); simpl; [|done].
  by rewrite app_nil_r, map_caps_nil.
Qed.

Lemma run_Seq_Chr_nil x r : run (Seq (Chr x) r) [] = [].
Proof. done. Qed.

Lemma run_Seq_Plus p r s :
  run (Seq (Plus p) r) s = flat_map (run r) (runs p s).
Proof.
  simpl. induction (runs p s) as [|t l IH]; simpl; [done|].
  by rewrite map_caps_nil, IH.
Qed.

Lemma runs_stops p s : stops p s = true → runs p s = [].
Proof. destruct s as [|a s]; simpl; [done|]. by destruct (p a). Qed.

Lemma flat_map_runs_first {B} p (F : str → list B) w s :
  plus p w = true → stops p s = true →
  ∃ l, flat_map F (runs p (w ++ s)) = F s ++ l.
Proof.
  intros [Hne Hw]%andb_true_iff Hs%runs_stops.
  induction w as [|a w IH]; [done|]. clear Hne.
  simpl in *. apply andb_true_iff in Hw as [-> Hw].
  rewrite flat_map_app. simpl. rewrite app_nil_r.
  destruct w as [|b w].
  - simpl. rewrite Hs. simpl. exists []. by rewrite app_nil_r.
  - destruct IH as [l ->]; [done|done|]. rewrite <- app_assoc. by eexists.
Qed.

Lemma flat_map_runs_max {B} p (F : str → list B) w s :
  plus p w = true → stops p s = true →
  (∀ a t, p a = true → F (a :: t) = []) →
  flat_map F (runs p (w ++ s)) = F s.
Proof.
  intros [Hne Hw]%andb_true_iff Hs%runs_stops Hrej.
  induction w as [|a w IH]; [done|]. clear Hne.
  simpl in *. apply andb_true_iff in Hw as [-> Hw].
  rewrite flat_map_app. simpl. rewrite app_nil_r.
  destruct w as [|b w].
  - simpl. rewrite Hs. by simpl.
  - rewrite IH by done. simpl in Hw. apply andb_true_iff in Hw as [Hb _].
    simpl. rewrite (Hrej b) by done. by rewrite app_nil_r.
Qed.

(** After the longest run of [p]-characters the search goes on first. *)
Lemma run_Seq_Plus_first p r w s :
  plus p w = true → stops p s = true →
  ∃ l, run (Seq (Plus p) r) (w ++ s) = run r s ++ l.
Proof. rewrite run_Seq_Plus. apply flat_map_runs_first. Qed.

(** When what follows cannot start with a [p]-character, only the longest
    run of [p]-characters leads on. *)
Lemma run_Seq_Plus_max p r w s :
  plus p w = true → stops p s = true →
  (∀ a t, p a = true → run r (a :: t) = []) →
  run (Seq (Plus p) r) (w ++ s) = run r s.
Proof. rewrite run_Seq_Plus. apply flat_map_runs_max. Qed.

(** Two readings of the same input as a run of [p]-characters and a rest
    that stops the run are the same reading. *)
Lemma span_unique p w1 w2 s1 s2 :
  forallb p w1 = true → forallb p w2 = true →
  stops p s1 = true → stops p s2 = true →
  w1 ++ s1 = w2 ++ s2 → w1 = w2 ∧ s1 = s2.
Proof.
  revert w2. induction w1 as [|a w1 IH]; intros [|b w2]; simpl.
  - done.
  - intros _ [Hb _]%andb_true_iff Hs1 _ ->. simpl in Hs1. by rewrite Hb in Hs1.
  - intros [Ha _]%andb_true_iff _ _ Hs2 <-. simpl in Hs2. by rewrite Ha in Hs2.
  - intros [_ H1]%andb_true_iff [_ H2]%andb_true_iff Hs1 Hs2 [= -> H].
    destruct (IH _ H1 H2 Hs1 Hs2 H) as [-> ->]. done.
Qed.

(** An input no prefix of which the pattern matches is refused. *)
Lemma run_nil r s :
  (∀ w c s', s = w ++ s' → ¬ matches r w c) → run r s = [].
Proof.
  intros H. destruct (run r s) as [|[s' c] l] eqn:E; [done|].
  assert (In (s', c) (run r s)) as Hin by (rewrite E; by left).
  apply run_sound in Hin as (w & -> & Hm). by destruct (H w c s').
Qed.

Lemma run_Seq_ext r1 r2 r2' :
  (∀ s, run r2 s = run r2' s) → ∀ s, run (Seq r1 r2) s = run (Seq r1 r2') s.
Proof.
  intros H s. simpl. induction (run r1 s) as [|[s1 c1] l IH]; simpl; [done|].
  by rewrite H, IH.
Qed.

Lemma run_Seq_Eps_l r s : run (Seq Eps r) s = run r s.
Proof. simpl. by rewrite app_nil_r, map_caps_nil. Qed.

Lemma run_Seq_Grp i r1 r2 s :
  run (Seq (Grp i r1) r2) s
  = flat_map (λ '(s1, c1),
       map (λ '(s2, c2), (s2, (i, take (length s - length s1) s) :: c1 ++ c2))
           (run r2 s1))
      (run r1 s).
Proof.
  simpl. induction (run r1 s) as [|[s1 c1] l IH]; simpl; [done|].
  by rewrite IH.
Qed.

Lemma flat_map_run_Eps {B} (G : str * captures → list B) (l : list str) :
  flat_map G (flat_map (run Eps) l) = flat_map (λ s1, G (s1, [])) l.
Proof.
  induction l as [|t l IH]; [done|]. cbn [flat_map].
  change (run Eps t) with [(t, [] : captures)]. cbn [app flat_map].
  by rewrite IH.
Qed.

(** A group [(x p+)] before a pattern that cannot start with a
    [p]-character captures the longest run. *)
Lemma run_Seq_Grp_Chr_Plus i x p r w s :
  plus p w = true → stops p s = true →
  (∀ a t, p a = true → run r (a :: t) = []) →
  run (Seq (Grp i (Seq (Chr x) (Seq (Plus p) Eps))) r) (x :: w ++ s)
  = map (capture i (x :: w)) (run r s).
Proof.
  intros Hw Hs Hrej. rewrite run_Seq_Grp, run_Seq_Chr, N.eqb_refl, run_Seq_Plus.
  pose (full := x :: w ++ s).
  pose (G := λ '(s1, c1),
         map (λ '(s2, c2),
                (s2, (i, take (length full - length s1) full) :: c1 ++ c2))
             (run r s1)).
  change (flat_map G (flat_map (run Eps) (runs p (w ++ s)))
          = map (capture i (x :: w)) (run r s)).
  rewrite flat_map_run_Eps, flat_map_runs_max; [|done|done|].
  - unfold G, full. change (x :: w ++ s) with ((x :: w) ++ s).
    rewrite length_app, Nat.add_sub, take_app_length.
    apply map_ext. by intros [].
  - intros a t Ha. unfold G. by rewrite Hrej.
Qed.

(** The same group before any pattern: the longest run is tried first. *)
Lemma run_Seq_Grp_Chr_Plus_first i x p r w s :
  plus p w = true → stops p s = true →
  ∃ l, run (Seq (Grp i (Seq (Chr x) (Seq (Plus p) Eps))) r) (x :: w ++ s)
       = map (capture i (x :: w)) (run r s) ++ l.
Proof.
  intros Hw Hs. rewrite run_Seq_Grp, run_Seq_Chr, N.eqb_refl, run_Seq_Plus.
  pose (full := x :: w ++ s).
  pose (G := λ '(s1, c1),
         map (λ '(s2, c2),
                (s2, (i, take (length full - length s1) full) :: c1 ++ c2))
             (run r s1)).
  change (∃ l, flat_map G (flat_map (run Eps) (runs p (w ++ s)))
               = map (capture i (x :: w)) (run r s) ++ l).
  rewrite flat_map_run_Eps.
  destruct (flat_map_runs_first p (λ s1, G (s1, [])) w s Hw Hs) as [l ->].
  exists l. f_equal.
  unfold G, full. change (x :: w ++ s) with ((x :: w) ++ s).
  rewrite length_app, Nat.add_sub, take_app_length.
  apply map_ext. by intros [].
Qed.

Lemma run_Seq_Grp_Cls i p r a s :
  run (Seq (Grp i (Cls p)) r) (a :: s)
  = if p a then map (capture i [a]) (run r s) else [].
Proof.
  rewrite run_Seq_Grp. simpl. destruct (p a); simpl; [|done].
  rewrite app_nil_r.
  replace (S (length s) - length s)%nat with 1%nat by lia.
  apply map_ext. by intros [].
Qed.

Lemma run_Seq_Opt r1 r2 s :
  run (Seq (Opt r1) r2) s = run (Seq r1 r2) s ++ run r2 s.
Proof.
  simpl. rewrite flat_map_app. simpl.
  by rewrite app_nil_r, map_caps_nil.
Qed.

Lemma run_Seq_assoc r1 r2 r3 s :
  run (Seq (Seq r1 r2) r3) s = run (Seq r1 (Seq r2 r3)) s.
Proof.
  simpl. induction (run r1 s) as [|[s1 c1] l IH]; simpl; [done|].
  rewrite flat_map_app, IH. f_equal.
  clear IH. induction (run r2 s1) as [|[s2 c2] l2 IH2]; simpl; [done|].
  rewrite map_app, IH2. f_equal.
  rewrite map_map. apply map_ext. intros [s3 c3]. by rewrite app_assoc.
Qed.

(** a sequence in front of [r] is the sequence going on with [r] *)
Lemma run_Seq_seq rs r s : run (Seq (seq rs) r) s = run (foldr Seq r rs) s.
Proof.
  revert s. induction rs as [|a rs IH]; intros s.
  - apply run_Seq_Eps_l.
  - change (seq (a :: rs)) with (Seq a (seq rs)).
    rewrite run_Seq_assoc. by apply run_Seq_ext.
Qed.

Lemma run_Seq_Eps_r r s : run (Seq r Eps) s = run r s.
Proof.
  simpl. induction (run r s) as [|[s1 c1] l IH]; simpl; [done|].
  by rewrite app_nil_r, IH.
Qed.

Lemma find_atEnd_capture i w (l : list (str * captures)) :
  List.find atEnd (map (capture i w) l) = capture i w <$> List.find atEnd l.
Proof.
  induction l as [|[s1 c1] l IH]; simpl; [done|].
  unfold atEnd at 1 3. simpl. by destruct (falsy s1).
Qed.

(** The first match that reads everything heads the list. *)
Lemma exec_first r s c l : run r s = ([], c) :: l → exec r s = Some c.
Proof. unfold exec. by intros ->. Qed.

Lemma exec_none r s : run r s = [] → exec r s = None.
Proof. unfold exec. by intros ->. Qed.

Lemma runs_all p w : w ≠ [] → forallb p w = true → ∃ l, runs p w = [] :: l.
Proof.
  induction w as [|a w IH]; [done|]. simpl. intros _ [-> Hw]%andb_true_iff.
  destruct w as [|b w]; [by exists []|].
  destruct IH as [l ->]; [done|done|]. by eexists.
Qed.

End RegexFacts.

(** ** The mutator's pattern *)

Section MarkFacts.

Implicit Types (line taskId : str).

(** What a line that markRe accepts looks like, and what the five groups
    hold. *)
Lemma markRe_sound line m :
  exec markRe line = Some m →
  ∃ ws c ws' ds rest,
    line = js "-" ++ ws ++ js "[" ++ [c] ++ js "]" ++ ws' ++ js "T" ++ ds ++ rest
    ∧ ws ≠ [] ∧ forallb isSpace ws = true ∧ isBox c = true
    ∧ ws' ≠ [] ∧ forallb isSpace ws' = true
    ∧ ds ≠ [] ∧ forallb isDigit ds = true
    ∧ rest ≠ [] ∧ forallb isDot rest = true
    ∧ m = [(1, js "-" ++ ws ++ js "[")%nat; (2, [c])%nat; (3, js "]" ++ ws')%nat;
           (4, js "T" ++ ds)%nat; (5, rest)%nat].
Proof.
  intros H%exec_matches. norm_regex markRe. matches_inv.
  exists w1, a, w2, w3, w4. rewrite !app_nil_r. js_norm. simpl.
  rewrite <- !app_assoc. by repeat split.
Qed.

Lemma markLine_other taskId line :
  isTarget taskId line = false → markLine taskId line = line.
Proof.
  unfold isTarget, markLine. destruct (exec markRe line) as [m|]; [|done].
  intros H%bool_decide_eq_false. by rewrite decide_False.
Qed.

(** A target line is rewritten with [X] in its checkbox, and nothing else
    of it changes. *)
Lemma markLine_target taskId line :
  isTarget taskId line = true →
  ∃ ws c post,
    line = js "-" ++ ws ++ js "[" ++ c :: js "]" ++ post
    ∧ markLine taskId line = js "-" ++ ws ++ js "[" ++ 88 :: js "]" ++ post
    ∧ plus isSpace ws = true ∧ isBox c = true
    ∧ boxOf line = Some c.
Proof.
  unfold isTarget, markLine, boxOf.
  destruct (exec markRe line) as [m|] eqn:E; [|done].
  intros H%bool_decide_eq_true. rewrite decide_True by done.
  destruct (markRe_sound _ _ E)
    as (ws & c & ws' & ds & rest & -> & ? & ? & ? & _ & _ & _ & _ & _ & _ & ->).
  exists ws, c, (ws' ++ js "T" ++ ds ++ rest). js_norm. simpl.
  rewrite <- !app_assoc. repeat split; try done. by apply plus_intro.
Qed.

Lemma markLine_length taskId line :
  length (markLine taskId line) = length line.
Proof.
  destruct (isTarget taskId line) eqn:E.
  - destruct (markLine_target _ _ E) as (ws & c & post & -> & -> & _).
    js_norm. simpl. rewrite !length_app. by simpl.
  - by rewrite markLine_other.
Qed.

Lemma markLine_lineOk taskId line :
  lineOk LF line → lineOk LF (markLine taskId line).
Proof.
  destruct (isTarget taskId line) eqn:E.
  - destruct (markLine_target _ _ E) as (ws & c & post & -> & -> & _).
    unfold lineOk. js_norm. simpl.
    rewrite !elem_of_cons, !elem_of_app, !elem_of_cons.
    intros H [?|[?|[?|[?|?]]]]; [done| |done|done|]; apply H; auto.
  - by rewrite markLine_other.
Qed.

(** The rewritten document, line by line. *)
Lemma markContent_lines taskId content :
  split LF (markContent taskId content)
  = map (markLine taskId) (split LF content).
Proof.
  unfold markContent. apply split_join.
  - pose proof (split_nonempty LF content). by destruct (split LF content).
  - apply Forall_forall. intros l (l0 & -> & Hl0)%list_elem_of_fmap.
    apply markLine_lineOk.
    by apply (proj1 (Forall_forall _ _) (split_lineOk LF content)).
Qed.

End MarkFacts.

(** ** The mutator: markTaskComplete *)

Section Mutator.

Implicit Types (w : World) (filePath taskId content line : str).

(** On such a checklist, with a path and an id that pass the two guards, the
    call returns and writes the rewritten document back. *)
Lemma markTaskComplete_run w filePath taskId content :
  filePath ≠ [] → trim taskId ≠ [] → holds w filePath content →
  markTaskComplete filePath taskId w
  = (inr tt,
     stored filePath (markContent taskId content)
       (logged (Write filePath (markContent taskId content))
          (logged (Read filePath) w))).
Proof.
  intros Hp Hid (Hf & Hr & Hw). unfold markTaskComplete.
  destruct filePath as [|a p]; [done|]. simpl falsy.
  destruct taskId as [|b t]; [done|]. simpl falsy.
  destruct (trim (b :: t)); [done|]. simpl.
  unfold bind, readFile, writeFile. rewrite Hf.
  rewrite decide_False by done. simpl. by rewrite decide_False.
Qed.

Lemma markTaskComplete_written w filePath taskId content :
  filePath ≠ [] → trim taskId ≠ [] → holds w filePath content →
  ∃ w', markTaskComplete filePath taskId w = (inr tt, w')
        ∧ files w' !! filePath = Some (markContent taskId content).
Proof.
  intros. eexists. split; [by apply markTaskComplete_run|].
  simpl. by rewrite lookup_insert_eq.
Qed.

(** The lines written back are the lines read, each through [markLine]. *)
Lemma markTaskComplete_lines w filePath taskId content :
  filePath ≠ [] → trim taskId ≠ [] → holds w filePath content →
  ∃ w' content',
    markTaskComplete filePath taskId w = (inr tt, w')
    ∧ files w' !! filePath = Some content'
    ∧ split LF content' = map (markLine taskId) (split LF content).
Proof.
  intros Hp Hid Hh.
  destruct (markTaskComplete_written _ _ _ _ Hp Hid Hh) as (w' & Hrun & Hw').
  exists w', (markContent taskId content).
  by rewrite markContent_lines.
Qed.



End Mutator.

Lemma oneFile_holds filePath content :
  holds (oneFile filePath content) filePath content.
Proof.
  repeat split; simpl.
  - apply lookup_singleton_eq.
  - apply not_elem_of_empty.
  - apply not_elem_of_empty.
Defined.

Section MutatorClaims.

Implicit Types (w : World) (filePath taskId content line : str).

(** C8.  An id that is empty or made of white space only is refused before
    any file-system call: the call throws a validation error that names the
    field, [File path is required] when the path is empty as well and
    [Task ID is required] otherwise, and the world, its trace of
    file-system calls included, is the one before the call. *)
Theorem markTaskComplete_blank_id w filePath taskId :
  forallb isSpace taskId = true →
  ∃ message,
    markTaskComplete filePath taskId w = (inl (Error message), w)
    ∧ (filePath = [] ∧ message = "File path is required"%string
       ∨ filePath ≠ [] ∧ message = "Task ID is required"%string).
Proof.
  intros Hblank. unfold markTaskComplete.
  destruct filePath as [|a p]; simpl.
  - eexists. split; [done|]. by left.
  - rewrite (trim_spaces _ Hblank). rewrite orb_true_r.
    eexists. split; [done|]. by right.
Qed.

Lemma markTaskComplete_blank_id_witness :
  ∃ message,
    markTaskComplete (js "tasks.md") (js "   ")
      (oneFile (js "tasks.md") (document ["- [ ] T001 Setup"]))
    = (inl (Error message),
       oneFile (js "tasks.md") (document ["- [ ] T001 Setup"]))
    ∧ (js "tasks.md" = [] ∧ message = "File path is required"%string
       ∨ js "tasks.md" ≠ [] ∧ message = "Task ID is required"%string).
Proof.
  apply (markTaskComplete_blank_id
           (oneFile (js "tasks.md") (document ["- [ ] T001 Setup"]))
           (js "tasks.md") (js "   ")).
  reflexivity.
Defined.

End MutatorClaims.

(** ** The parser's patterns *)

Section ParserFacts.

Implicit Types (line : str) (lines : list str).

Lemma space_not a x : isSpace a = true → isSpace x = false → (a =? x) = false.
Proof. intros Ha Hx. destruct (N.eqb_spec a x) as [->|]; congruence. Qed.

(** Up to the checkbox the matcher has no choice. *)
Lemma run_taskRe ws c rest :
  plus isSpace ws = true →
  run taskRe (js "-" ++ ws ++ js "[" ++ c :: rest)
  = if isBox c then map (capture 1 [c]) (run taskRest rest) else [].
Proof.
  intros Hws. norm_regex taskRe. norm_regex taskRest. js_norm.
  cbn [app]. rewrite run_Seq_Chr. cbn [N.eqb Pos.eqb].
  rewrite run_Seq_Plus_max; [|done|done|].
  - rewrite run_Seq_Chr. cbn [N.eqb Pos.eqb]. apply run_Seq_Grp_Cls.
  - intros a t Ha. rewrite run_Seq_Chr. by rewrite (space_not a 91).
Qed.

Lemma exec_taskRe ws c rest :
  plus isSpace ws = true →
  exec taskRe (js "-" ++ ws ++ js "[" ++ c :: rest)
  = if isBox c then cons (1%nat, [c]) <$> exec taskRest rest else None.
Proof.
  intros Hws. unfold exec. rewrite run_taskRe by done.
  destruct (isBox c); [|done].
  rewrite find_atEnd_capture.
  by destruct (List.find atEnd (run taskRest rest)) as [[]|].
Qed.

Lemma phaseRe_first : ∃ r, phaseRe = Seq (Chr 35) r.
Proof. eexists. reflexivity. Qed.

Lemma taskRe_first : ∃ r, taskRe = Seq (Chr 45) r.
Proof. eexists. reflexivity. Qed.

Lemma exec_Chr_first x r line :
  head line ≠ Some x → exec (Seq (Chr x) r) line = None.
Proof.
  intros H. apply exec_none. destruct line as [|a t]; [done|].
  rewrite run_Seq_Chr. destruct (N.eqb_spec a x) as [->|]; [|done].
  by destruct H.
Qed.

(** A heading starts with [#] and a task line with [-]: no line is both. *)
Lemma exec_phaseRe_head line : head line ≠ Some 35 → exec phaseRe line = None.
Proof. destruct phaseRe_first as [r ->]. apply exec_Chr_first. Qed.

Lemma exec_taskRe_head line : head line ≠ Some 45 → exec taskRe line = None.
Proof. destruct taskRe_first as [r ->]. apply exec_Chr_first. Qed.

Lemma phase_not_task line m :
  exec phaseRe line = Some m → exec taskRe line = None.
Proof.
  intros H. apply exec_taskRe_head. intros Hd.
  rewrite exec_phaseRe_head in H; [done|]. by rewrite Hd.
Qed.

Lemma phaseFrom_cons currentPhase line before :
  phaseFrom currentPhase (line :: before)
  = phaseFrom (default currentPhase (phaseTitle line)) before.
Proof.
  unfold phaseFrom.
  change (omap phaseTitle (line :: before))
    with (match phaseTitle line with
          | Some t => t :: omap phaseTitle before
          | None => omap phaseTitle before
          end).
  destruct (phaseTitle line) as [t|]; simpl; [|done].
  rewrite last_cons. by destruct (last (omap phaseTitle before)).
Qed.

Lemma phaseFrom_none currentPhase before :
  (∀ l, l ∈ before → exec phaseRe l = None) →
  phaseFrom currentPhase before = currentPhase.
Proof.
  induction before as [|l before IH]; intros H; [done|].
  rewrite phaseFrom_cons. unfold phaseTitle at 1.
  rewrite (H l) by left. simpl. apply IH. intros l' Hl'. apply H. by right.
Qed.

Lemma phaseFrom_app currentPhase before after :
  phaseFrom currentPhase (before ++ after)
  = phaseFrom (phaseFrom currentPhase before) after.
Proof.
  revert currentPhase. induction before as [|l before IH]; intros ph; [done|].
  simpl. by rewrite !phaseFrom_cons, IH.
Qed.

Lemma phaseFrom_nearest currentPhase before h m between :
  exec phaseRe h = Some m →
  (∀ l, l ∈ between → exec phaseRe l = None) →
  phaseFrom currentPhase (before ++ h :: between) = trim (group' 1 m).
Proof.
  intros Hh Hnone. rewrite phaseFrom_app, phaseFrom_cons.
  unfold phaseTitle at 1. rewrite Hh. simpl. by apply phaseFrom_none.
Qed.

(** The loop, line by line: the record of the task line at index [i]
    carries the phase in force after the lines above it. *)
Lemma parseLoop_spec lines currentPhase acc :
  parseLoop lines currentPhase acc
  = acc ++ omap (λ made, made)
      (imap (λ i line,
               mkTask line (phaseFrom currentPhase (take i lines))
                 <$> exec taskRe line)
            lines).
Proof.
  revert currentPhase acc.
  induction lines as [|line rest IH]; intros ph acc; simpl.
  - by rewrite app_nil_r.
  - destruct (exec phaseRe line) as [pm|] eqn:Ephase.
    + rewrite (phase_not_task _ _ Ephase). simpl. rewrite IH. f_equal. f_equal.
      apply imap_ext. intros i l _. simpl. rewrite phaseFrom_cons.
      unfold phaseTitle. by rewrite Ephase.
    + assert (∀ i, phaseFrom ph (line :: take i rest) = phaseFrom ph (take i rest))
        as Hph.
      { intros i. rewrite phaseFrom_cons. unfold phaseTitle. by rewrite Ephase. }
      destruct (exec taskRe line) as [tm|]; simpl; rewrite IH.
      * rewrite <- app_assoc. simpl. do 3 f_equal.
        apply imap_ext. intros i l _. simpl. by rewrite Hph.
      * do 2 f_equal. apply imap_ext. intros i l _. simpl. by rewrite Hph.
Qed.

Lemma parseLoop_ids lines currentPhase acc :
  map id (parseLoop lines currentPhase acc)
  = map id acc ++ omap taskIdOf lines.
Proof.
  revert currentPhase acc.
  induction lines as [|line rest IH]; intros ph acc; simpl.
  - by rewrite app_nil_r.
  - unfold taskIdOf at 1.
    destruct (exec phaseRe line) as [pm|] eqn:Ephase.
    + rewrite (phase_not_task _ _ Ephase). simpl. apply IH.
    + destruct (exec taskRe line) as [tm|]; simpl; rewrite IH; [|done].
      rewrite map_app. simpl. by rewrite <- app_assoc.
Qed.

(** Marking a line changes neither whether it is a heading nor the id the
    parser reads from it. *)
Lemma taskIdOf_markLine taskId line :
  taskIdOf (markLine taskId line) = taskIdOf line.
Proof.
  destruct (isTarget taskId line) eqn:E; [|by rewrite markLine_other].
  destruct (markLine_target _ _ E) as (ws & c & post & -> & -> & Hws & Hc & _).
  unfold taskIdOf. rewrite !exec_taskRe by done. rewrite Hc.
  change (isBox 88) with true. cbv iota.
  by destruct (exec taskRest (js "]" ++ post)).
Qed.

Lemma omap_taskIdOf_mark taskId lines :
  omap taskIdOf (map (markLine taskId) lines) = omap taskIdOf lines.
Proof.
  induction lines as [|line rest IH]; [done|].
  change (omap taskIdOf (map (markLine taskId) (line :: rest)))
    with (match taskIdOf (markLine taskId line) with
          | Some t => t :: omap taskIdOf (map (markLine taskId) rest)
          | None => omap taskIdOf (map (markLine taskId) rest)
          end).
  by rewrite taskIdOf_markLine, IH.
Qed.

Lemma parseContent_ids content :
  map id (parseContent content) = omap taskIdOf (split LF content).
Proof. unfold parseContent. by rewrite parseLoop_ids. Qed.

Lemma parseContent_markContent_ids taskId content :
  map id (parseContent (markContent taskId content))
  = map id (parseContent content).
Proof.
  by rewrite !parseContent_ids, markContent_lines, omap_taskIdOf_mark.
Qed.

End ParserFacts.

(** ** The parser: parseTasksMd *)

(** ** The phase of a task *)

Section PhaseFacts.

Implicit Types (s p : str) (line : str).

Lemma forallb_rev {A} (f : A → bool) (l : list A) :
  forallb f (rev l) = forallb f l.
Proof.
  induction l as [|a l IH]; [done|]. simpl.
  rewrite forallb_app, IH. simpl. rewrite andb_true_r. apply andb_comm.
Qed.

Lemma trimStart_spec s :
  ∃ l, s = l ++ trimStart s ∧ forallb isSpace l = true
       ∧ stops isSpace (trimStart s) = true.
Proof.
  induction s as [|a s (l & Hs & Hl & Hstop)]; [by exists []|].
  simpl. destruct (isSpace a) eqn:E.
  - exists (a :: l). simpl. rewrite E, Hl. by rewrite <- Hs.
  - exists []. simpl. by rewrite E.
Qed.

Lemma trimEnd_spec s :
  ∃ r, s = trimEnd s ++ r ∧ forallb isSpace r = true
       ∧ stops isSpace (rev (trimEnd s)) = true.
Proof.
  destruct (trimStart_spec (rev s)) as (l & Hs & Hl & Hstop).
  exists (rev l). unfold trimEnd. rewrite rev_involutive.
  split; [|by rewrite forallb_rev].
  rewrite <- rev_app_distr, <- Hs. by rewrite rev_involutive.
Qed.

(** [trim] takes the white space off the two ends, and nothing else. *)
Lemma trim_trimmed s : trimmed s (trim s).
Proof.
  unfold trim.
  destruct (trimStart_spec s) as (l & Hs & Hl & Hstop).
  destruct (trimEnd_spec (trimStart s)) as (r & Ht & Hr & Hstop').
  exists l, r. split; [by rewrite <- Ht|]. split; [done|]. split; [done|].
  split; [|done].
  destruct (trimEnd (trimStart s)) as [|a q]; [done|].
  rewrite Ht in Hstop. exact Hstop.
Qed.

(** What is left of a text without the white space at its ends is one
    text. *)
Lemma trimmed_fun s p1 p2 : trimmed s p1 → trimmed s p2 → p1 = p2.
Proof.
  assert (∀ l p r, forallb isSpace l = true → forallb isSpace r = true →
                   stops isSpace p = true → stops isSpace (rev p) = true →
                   p = trim (l ++ p ++ r)) as Hkey.
  { intros l p r Hl Hr Hp Hp'. unfold trim.
    assert (trimStart (l ++ p ++ r) = trimStart (p ++ r)) as ->.
    { clear Hp Hp'. induction l as [|a l IH]; [done|]. simpl in *.
      apply andb_true_iff in Hl as [-> Hl]. by apply IH. }
    destruct p as [|a p].
    - simpl. rewrite trimStart_spaces by done. reflexivity.
    - simpl in Hp. apply negb_true_iff in Hp. cbn [app trimStart].
      rewrite Hp. unfold trimEnd.
      change (a :: p ++ r) with ((a :: p) ++ r). rewrite rev_app_distr.
      assert (trimStart (rev r ++ rev (a :: p)) = rev (a :: p)) as ->.
      { assert (forallb isSpace (rev r) = true) as Hr'
          by (by rewrite forallb_rev).
        revert Hr'. generalize (rev r). intros l' Hl'.
        induction l' as [|b l' IH].
        - destruct (rev (a :: p)) as [|b q]; [done|]. simpl in *.
          apply negb_true_iff in Hp'. by rewrite Hp'.
        - simpl in *. apply andb_true_iff in Hl' as [-> Hl']. by apply IH. }
      by rewrite rev_involutive. }
  intros (l1 & r1 & -> & ? & ? & ? & ?) (l2 & r2 & Heq & ? & ? & ? & ?).
  rewrite (Hkey l1 p1 r1) by done. rewrite Heq. symmetry. by apply Hkey.
Qed.

Lemma last_heading (before : list str) :
  (∀ l, l ∈ before → exec phaseRe l = None)
  ∨ ∃ earlier heading phaseMatch between,
      before = earlier ++ heading :: between
      ∧ exec phaseRe heading = Some phaseMatch
      ∧ (∀ l, l ∈ between → exec phaseRe l = None).
Proof.
  induction before as [|a rest IH].
  - left. intros l Hl. by apply elem_of_nil in Hl.
  - destruct IH as [Hnone|(earlier & h & m & between & -> & Hh & Hb)].
    + destruct (exec phaseRe a) as [m|] eqn:E.
      * right. by exists [], a, m, rest.
      * left. intros l [->|Hl]%elem_of_cons; [done|by apply Hnone].
    + right. by exists (a :: earlier), h, m, between.
Qed.

(** The phase the loop has reached after the lines [before]. *)
Lemma nearestPhase_above (before : list str) :
  phaseAbove before (nearestPhase before).
Proof.
  destruct (last_heading before)
    as [Hnone|(earlier & h & m & between & -> & Hh & Hb)].
  - left. split; [done|]. by apply phaseFrom_none.
  - right. exists earlier, h, m, between. split; [done|]. split; [done|].
    split; [done|]. unfold nearestPhase.
    rewrite (phaseFrom_nearest _ _ _ m) by done. apply trim_trimmed.
Qed.

(** The phase above a line is one text. *)
Lemma phaseAbove_fun (before : list str) p1 p2 :
  phaseAbove before p1 → phaseAbove before p2 → p1 = p2.
Proof.
  assert (∀ p, phaseAbove before p → p = nearestPhase before) as Hkey.
  { intros p [[Hnone ->]|(earlier & h & m & between & -> & Hh & Hb & Ht)].
    - symmetry. by apply phaseFrom_none.
    - unfold nearestPhase. rewrite (phaseFrom_nearest _ _ _ m) by done.
      apply (trimmed_fun (group' 1 m)); [done|apply trim_trimmed]. }
  intros H1 H2. by rewrite (Hkey p1), (Hkey p2).
Qed.

End PhaseFacts.

Section ParserClaims.

Implicit Types (w : World) (filePath taskId content line : str).

Lemma parseTasksMd_run w filePath content :
  filePath ≠ [] → readable w filePath content →
  parseTasksMd filePath w
  = (inr (parseContent content), logged (Read filePath) w).
Proof.
  intros Hp [Hf Hr]. unfold parseTasksMd.
  destruct filePath as [|a p]; [done|]. simpl.
  unfold bind, readFile. rewrite Hf. by rewrite decide_False.
Qed.

(** Whatever markTaskComplete does, it leaves at [filePath] the document
    it found or the rewritten one, still readable. *)
Lemma markTaskComplete_after w filePath taskId content :
  readable w filePath content →
  readable (markTaskComplete filePath taskId w).2 filePath content
  ∨ readable (markTaskComplete filePath taskId w).2 filePath
      (markContent taskId content).
Proof.
  intros [Hf Hr]. unfold markTaskComplete.
  destruct (falsy filePath); [by left|].
  destruct (falsy taskId || falsy (trim taskId)); [by left|].
  unfold bind, readFile, writeFile. rewrite Hf.
  rewrite decide_False by done. simpl.
  destruct (decide (filePath ∈ unwritable w)); [by left|].
  right. split; simpl; [apply lookup_insert_eq|done].
Qed.

Lemma oneFile_readable filePath content :
  readable (oneFile filePath content) filePath content.
Proof.
  split; simpl.
  - apply lookup_singleton_eq.
  - apply not_elem_of_empty.
Defined.

(** C4.  Reading a checklist yields exactly the records of its task lines,
    and the record of a task line carries as its phase the phase above
    that line: the empty string when no line above is a heading line, and
    otherwise the title of the last heading line above, whatever headings
    come before that one, without the white space at its two ends. *)
Theorem parseTasksMd_phase w filePath content :
  filePath ≠ [] → readable w filePath content →
  ∃ w' tasks,
    parseTasksMd filePath w = (inr tasks, w')
    ∧ (∀ t, t ∈ tasks ↔
         ∃ i line taskMatch,
           split LF content !! i = Some line
           ∧ exec taskRe line = Some taskMatch
           ∧ t = mkTask line (nearestPhase (take i (split LF content)))
                   taskMatch)
    ∧ (∀ t, t ∈ tasks →
         ∃ i line,
           split LF content !! i = Some line
           ∧ taskIdOf line = Some (id t)
           ∧ phaseAbove (take i (split LF content)) (phase t))
    ∧ (∀ i line, split LF content !! i = Some line →
         is_Some (taskIdOf line) →
         ∃ t, t ∈ tasks ∧ taskIdOf line = Some (id t)
              ∧ phaseAbove (take i (split LF content)) (phase t)).
Proof.
  intros Hp Hr. eexists _, _. split; [by apply parseTasksMd_run|].
  assert (∀ t, t ∈ parseContent content ↔
            ∃ i line taskMatch,
              split LF content !! i = Some line
              ∧ exec taskRe line = Some taskMatch
              ∧ t = mkTask line (nearestPhase (take i (split LF content)))
                      taskMatch) as Hrecords.
  { intros t. unfold parseContent. rewrite parseLoop_spec. simpl.
    rewrite list_elem_of_omap. split.
    - intros (o & Ho & ->).
      apply elem_of_lookup_imap in Ho as (i & line & Ho & Hi).
      destruct (exec taskRe line) as [m|] eqn:E; [|done].
      injection Ho as ->. by exists i, line, m.
    - intros (i & line & m & Hi & E & ->). eexists. split; [|done].
      apply elem_of_lookup_imap. exists i, line. by rewrite E. }
  split; [exact Hrecords|]. split.
  - intros t (i & line & m & Hi & E & ->)%Hrecords. exists i, line.
    split; [done|]. split; [unfold taskIdOf; by rewrite E|].
    apply nearestPhase_above.
  - intros i line Hi [parsed Hid]. unfold taskIdOf in Hid.
    destruct (exec taskRe line) as [m|] eqn:E; [|done].
    exists (mkTask line (nearestPhase (take i (split LF content))) m).
    split; [apply Hrecords; by exists i, line, m|].
    split; [unfold taskIdOf; by rewrite E|]. apply nearestPhase_above.
Qed.

Lemma parseTasksMd_phase_witness :
  ∃ w' tasks,
    parseTasksMd (js "tasks.md") (oneFile (js "tasks.md") spaced)
    = (inr tasks, w')
    ∧ (id <$> tasks) = [js "T001"; js "T002"]
    ∧ (∀ t, t ∈ tasks → id t = js "T002" → phase t = js "Core").
Proof.
  destruct (parseTasksMd_phase (oneFile (js "tasks.md") spaced)
              (js "tasks.md") spaced) as (w' & tasks & Hrun & _ & Hphase & _).
  - discriminate.
  - apply oneFile_readable.
  - exists w', tasks. split; [exact Hrun|].
    split; [vm_compute in Hrun; by injection Hrun as <- _|].
    intros t Ht Hid. destruct (Hphase t Ht) as (i & line & Hi & Hline & Habove).
    rewrite Hid in Hline.
    assert (i = 3%nat) as ->.
    { destruct i as [|[|[|[|i]]]]; vm_compute in Hi; try discriminate;
        injection Hi as <-; vm_compute in Hline; try discriminate.
      reflexivity. }
    apply (phaseAbove_fun (take 3 (split LF spaced))); [done|].
    right. exists [js "## Phase 1: Setup  "; js "- [ ] T001 Initial setup"],
             (js "## Phase 2:  Core "), [(1%nat, js "Core ")], [].
    split; [reflexivity|]. split; [reflexivity|].
    split; [intros l Hl; by apply elem_of_nil in Hl|].
    exists [], (js " "). repeat split; reflexivity.
Defined.

(** C5.  The ids parseTasksMd returns are the ids of the task lines in the
    order of the lines of the document; and after markTaskComplete has run
    on the file, for any id and whatever its outcome, reading the file
    again returns the same sequence of ids. *)
Theorem parseTasksMd_order_stable w filePath taskId content :
  filePath ≠ [] → readable w filePath content →
  ∃ w1 tasks,
    parseTasksMd filePath w = (inr tasks, w1)
    ∧ map id tasks = omap taskIdOf (split LF content)
    ∧ ∃ w3 tasks',
        parseTasksMd filePath (markTaskComplete filePath taskId w).2
        = (inr tasks', w3)
        ∧ map id tasks' = map id tasks.
Proof.
  intros Hp Hr. eexists _, _. split; [by apply parseTasksMd_run|].
  split; [apply parseContent_ids|].
  destruct (markTaskComplete_after w filePath taskId content Hr) as [Hr'|Hr'].
  - eexists _, _. split; [by apply parseTasksMd_run|done].
  - eexists _, _. split; [by apply parseTasksMd_run|].
    apply parseContent_markContent_ids.
Qed.

Lemma parseTasksMd_order_stable_witness :
  ∃ w1 tasks,
    parseTasksMd (js "tasks.md") (oneFile (js "tasks.md") checklist)
    = (inr tasks, w1)
    ∧ map id tasks = omap taskIdOf (split LF checklist)
    ∧ ∃ w3 tasks',
        parseTasksMd (js "tasks.md")
          (markTaskComplete (js "tasks.md") (js "T003")
             (oneFile (js "tasks.md") checklist)).2
        = (inr tasks', w3)
        ∧ map id tasks' = map id tasks.
Proof.
  apply (parseTasksMd_order_stable (oneFile (js "tasks.md") checklist)
           (js "tasks.md") (js "T003") checklist).
  - discriminate.
  - apply oneFile_readable.
Defined.

End ParserClaims.

Section StoryFacts.

Implicit Types (line tag tail : str) (p : N → bool).

Lemma taskRe_story line m s :
  exec taskRe line = Some m → group 3 m = Some s →
  ∃ ws c ws' ds tagP ws1 dd ws2 desc,
    line = js "-" ++ ws ++ js "[" ++ [c] ++ js "]" ++ ws' ++ js "T" ++ ds
           ++ tagP ++ ws1 ++ js "[" ++ s ++ js "]" ++ ws2 ++ desc
    ∧ s = js "US" ++ dd ∧ plus isDigit dd = true
    ∧ (tagP = [] ∨ ∃ wp, plus isSpace wp = true ∧ tagP = wp ++ js "[P]")
    ∧ plus isSpace ws = true ∧ isBox c = true ∧ plus isSpace ws' = true
    ∧ plus isDigit ds = true ∧ plus isSpace ws1 = true
    ∧ plus isSpace ws2 = true ∧ plus isDot desc = true
    ∧ group' 2 m = js "T" ++ ds ∧ group' 4 m = desc.
Proof.
  intros H%exec_matches Hs. norm_regex taskRe. matches_inv.
  all: rewrite ?app_nil_r in *. all: js_norm.
  all: simpl in Hs; try discriminate; injection Hs as <-.
  - exists w0, a, w5, w6, (w8 ++ [91; 80; 93]), w11, w14, w9, w10.
    split; [by list_norm|].
    split; [done|]. split; [by apply plus_intro|].
    split; [right; exists w8; split; [by apply plus_intro|done]|].
    repeat (split; [by apply plus_intro || done|]). done.
  - exists w0, a, w5, w6, [], w11, w14, w9, w10.
    split; [by list_norm|].
    split; [done|]. split; [by apply plus_intro|].
    split; [by left|].
    repeat (split; [by apply plus_intro || done|]). done.
Qed.

Lemma digit_not_space a : isDigit a = true → isSpace a = false.
Proof.
  unfold isDigit, isSpace. intros [H1 H2]%andb_true_iff.
  apply N.leb_le in H1, H2.
  rewrite (proj2 (N.leb_gt a 13)) by lia.
  rewrite (proj2 (N.leb_gt 8192 a)) by lia.
  repeat match goal with
         | |- context [a =? ?y] => rewrite (proj2 (N.eqb_neq a y)) by lia
         end.
  by rewrite andb_false_r.
Qed.

Lemma head_plus p w s a t :
  plus p w = true → a :: t = w ++ s → p a = true.
Proof.
  intros [Hne Hw]%plus_elim. destruct w as [|b w]; [done|].
  simpl in *. intros [= -> _]. by apply andb_true_iff in Hw as [? _].
Qed.

Lemma plus_stops p q w s :
  plus p w = true → (∀ a, p a = true → q a = false) → stops q (w ++ s) = true.
Proof.
  intros [Hne Hw]%plus_elim Hpq. destruct w as [|b w]; [done|].
  simpl in *. apply andb_true_iff in Hw as [Hb _]. by rewrite (Hpq b).
Qed.

Lemma digits_noClose w : forallb isDigit w = true → noClose w = true.
Proof.
  unfold noClose. induction w as [|a w IH]; simpl; [done|].
  intros [Ha Hw]%andb_true_iff. rewrite IH by done.
  unfold isDigit in Ha. apply andb_true_iff in Ha as [_ Ha%N.leb_le].
  rewrite (proj2 (N.eqb_neq a 93)) by lia. done.
Qed.

(** What follows the id starts with white space. *)
Lemma afterId_space a t : isSpace a = false → run afterId (a :: t) = [].
Proof.
  intros Ha. apply run_nil. intros w c s' Heq Hm.
  norm_regex afterId. matches_inv.
  all: rewrite <- ?app_assoc in Heq; simpl in Heq.
  all: match goal with
       | Hne : ?w ≠ [], Hw : forallb isSpace ?w = true, H : _ = ?w ++ ?s |- _ =>
           assert (isSpace a = true)
             by (apply (head_plus isSpace w s a t);
                 [by apply plus_intro|exact H]);
           congruence
       end.
Qed.

(** A bracketed tag that is not of the shape [US\d+] is not read as the
    story tag. *)
Lemma story_refuses ws1 tag tail r :
  plus isSpace ws1 = true → noClose tag = true → isStoryTag tag = false →
  run (Seq (seq storyRe) r) (ws1 ++ 91 :: tag ++ 93 :: tail) = [].
Proof.
  intros [_ Hws1]%plus_elim Htag Hshape. apply run_nil. intros w c s' Heq Hm.
  norm_regex (seq storyRe). matches_inv.
  rewrite <- ?app_assoc in Heq; simpl in Heq.
  apply (span_unique isSpace) in Heq as [<- Heq]; [|done..].
  injection Heq as Heq.
  match type of Heq with
  | _ = 85 :: 83 :: ?d ++ 93 :: ?x =>
      change (tag ++ 93 :: tail = (85 :: 83 :: d) ++ 93 :: x) in Heq;
      apply (span_unique (λ c, negb (c =? 93))) in Heq as [-> _];
      [|done| |done..]
  end.
  - simpl in Hshape. by rewrite plus_intro in Hshape.
  - simpl. by apply digits_noClose.
Qed.

(** A bracketed tag other than [[P]] is not read as the parallel tag. *)
Lemma tagP_refuses ws1 tag tail r :
  plus isSpace ws1 = true → noClose tag = true → tag ≠ js "P" →
  run (Seq (seq tagPRe) r) (ws1 ++ 91 :: tag ++ 93 :: tail) = [].
Proof.
  intros [_ Hws1]%plus_elim Htag Hshape. apply run_nil. intros w c s' Heq Hm.
  norm_regex (seq tagPRe). matches_inv.
  rewrite <- ?app_assoc in Heq; simpl in Heq.
  apply (span_unique isSpace) in Heq as [<- Heq]; [|done..].
  injection Heq as Heq.
  match type of Heq with
  | _ = 80 :: 93 :: ?x =>
      change (tag ++ 93 :: tail = [80] ++ 93 :: x) in Heq;
      by apply (span_unique (λ c, negb (c =? 93))) in Heq as [-> _]
  end.
Qed.

(** The description is found at the first attempt when the rest of the
    line holds no line terminator. *)
Lemma description_first ws1 rest :
  plus isSpace ws1 = true → plus isDot rest = true →
  stops isSpace rest = true →
  ∃ l, run (seq descriptionRe) (ws1 ++ rest) = ([], [(4%nat, rest)]) :: l.
Proof.
  intros Hws1 [Hne Hdot]%plus_elim Hstop.
  change (seq descriptionRe)
    with (Seq (Plus isSpace) (Seq (Grp 4 (Plus isDot)) Eps)).
  destruct (run_Seq_Plus_first isSpace
              (Seq (Grp 4 (Plus isDot)) Eps) ws1 rest Hws1 Hstop)
    as [l ->].
  rewrite run_Seq_Eps_r. simpl.
  destruct (runs_all isDot rest Hne Hdot) as [l' ->]. simpl.
  rewrite Nat.sub_0_r, firstn_all. by eexists.
Qed.

(** After the id of a line whose first bracketed tag, the [[P]] tag apart,
    is not a story tag, the matcher finds its way at once: the description
    starts at that tag. *)
Lemma run_afterId tagP ws1 tag tail :
  (tagP = [] ∧ tag ≠ js "P"
   ∨ ∃ wp, plus isSpace wp = true ∧ tagP = wp ++ js "[P]") →
  plus isSpace ws1 = true → noClose tag = true → isStoryTag tag = false →
  forallb isDot tag = true → forallb isDot tail = true →
  ∃ l, run afterId (tagP ++ ws1 ++ 91 :: tag ++ 93 :: tail)
       = ([], [(4%nat, 91 :: tag ++ 93 :: tail)]) :: l.
Proof.
  intros HP Hws1 Hclose Hshape Htag Htail.
  assert (∃ l, run (Seq (Opt (seq storyRe)) (seq descriptionRe))
                 (ws1 ++ 91 :: tag ++ 93 :: tail)
               = ([], [(4%nat, 91 :: tag ++ 93 :: tail)]) :: l) as [l Hl].
  { rewrite run_Seq_Opt, story_refuses by done. simpl.
    apply description_first; [done| |done].
    apply plus_intro; [done|]. simpl.
    rewrite forallb_app. simpl. by rewrite Htag, Htail. }
  unfold afterId. rewrite run_Seq_Opt.
  destruct HP as [[-> Hne]|(wp & Hwp & ->)].
  - rewrite app_nil_l, tagP_refuses by done. simpl. by eexists.
  - rewrite run_Seq_seq. js_norm. rewrite <- app_assoc.
    change (foldr Seq ?r tagPRe)
      with (Seq (Plus isSpace) (Seq (Chr 91) (Seq (Chr 80) (Seq (Chr 93) r)))).
    rewrite run_Seq_Plus_max; [|done|done|].
    + cbn [app]. rewrite !run_Seq_Chr. cbn [N.eqb Pos.eqb].
      rewrite Hl. by eexists.
    + intros a t Ha. rewrite run_Seq_Chr. by rewrite (space_not a 91).
Qed.

(** From the closing bracket of the checkbox to the id. *)
Lemma run_taskRest ws' ds rest :
  plus isSpace ws' = true → plus isDigit ds = true →
  stops isDigit rest = true →
  run taskRest (93 :: ws' ++ 84 :: ds ++ rest)
  = map (capture 2 (84 :: ds)) (run afterId rest).
Proof.
  intros Hws' Hds Hrest.
  change taskRest
    with (Seq (Chr 93) (Seq (Plus isSpace)
            (Seq (Grp 2 (Seq (Chr 84) (Seq (Plus isDigit) Eps))) afterId))).
  rewrite run_Seq_Chr. cbn [N.eqb Pos.eqb].
  rewrite run_Seq_Plus_max; [|done|done|].
  - apply run_Seq_Grp_Chr_Plus; [done|done|].
    intros a t Ha. by apply afterId_space, digit_not_space.
  - intros a t Ha. rewrite run_Seq_Grp, run_Seq_Chr.
    by rewrite (space_not a 84).
Qed.

Lemma space_not_digit a : isSpace a = true → isDigit a = false.
Proof.
  intros Ha. destruct (isDigit a) eqn:E; [|done].
  by rewrite (digit_not_space _ E) in Ha.
Qed.

Lemma digits_noSpace w : forallb isDigit w = true → noSpace w = true.
Proof.
  unfold noSpace. induction w as [|a w IH]; simpl; [done|].
  intros [Ha Hw]%andb_true_iff. by rewrite (digit_not_space _ Ha), IH.
Qed.

(** The parser's match of a line whose first bracketed tag after the id,
    the [[P]] tag apart, is not of the shape [US\d+]. *)
Lemma exec_taskRe_other_tag ws c ws' ds tagP ws1 tag tail :
  plus isSpace ws = true → isBox c = true → plus isSpace ws' = true →
  plus isDigit ds = true →
  (tagP = [] ∧ tag ≠ js "P"
   ∨ ∃ wp, plus isSpace wp = true ∧ tagP = wp ++ js "[P]") →
  plus isSpace ws1 = true → noClose tag = true → isStoryTag tag = false →
  forallb isDot tag = true → forallb isDot tail = true →
  exec taskRe (js "-" ++ ws ++ js "[" ++ c :: js "]" ++ ws' ++ js "T" ++ ds
               ++ tagP ++ ws1 ++ js "[" ++ tag ++ js "]" ++ tail)
  = Some [(1%nat, [c]); (2%nat, js "T" ++ ds);
          (4%nat, js "[" ++ tag ++ js "]" ++ tail)].
Proof.
  intros Hws Hc Hws' Hds HP Hws1 Hclose Hshape Htag Htail.
  destruct (run_afterId tagP ws1 tag tail) as [l Hl]; try done.
  apply exec_first with (map (capture 1 [c]) (map (capture 2 (84 :: ds)) l)).
  rewrite run_taskRe, Hc by done. js_norm. cbn [app].
  rewrite run_taskRest; [by rewrite Hl|done|done|].
  destruct HP as [[-> _]|(wp & Hwp & ->)]; rewrite <- ?app_assoc, ?app_nil_l.
  - apply plus_stops with isSpace; [done|apply space_not_digit].
  - apply plus_stops with isSpace; [done|apply space_not_digit].
Qed.

End StoryFacts.

(** ** The story tag *)

Section StoryClaims.

(** C10.  The record of a task line has a story only when the line holds,
    after the id and the optional [[P]] tag, a bracketed tag of the shape
    [US] and one or more digits, and the story is that tag.  And a line on
    which the bracketed tag at that place has another shape (and the rest
    of the line holds no line terminator) is still a task line: its record
    has no story, and its description starts with the bracketed tag. *)
Theorem parseTasksMd_story_tag :
  (∀ line currentPhase taskMatch tag,
     exec taskRe line = Some taskMatch →
     story (mkTask line currentPhase taskMatch) = Some tag →
     ∃ ws c ws' ds tagP ws1 digits ws2 desc,
       line = js "-" ++ ws ++ js "[" ++ [c] ++ js "]" ++ ws' ++ js "T" ++ ds
              ++ tagP ++ ws1 ++ js "[" ++ tag ++ js "]" ++ ws2 ++ desc
       ∧ tag = js "US" ++ digits ∧ plus isDigit digits = true
       ∧ (tagP = [] ∨ ∃ wp, plus isSpace wp = true ∧ tagP = wp ++ js "[P]")
       ∧ plus isSpace ws = true ∧ isBox c = true ∧ plus isSpace ws' = true
       ∧ plus isDigit ds = true ∧ plus isSpace ws1 = true
       ∧ plus isSpace ws2 = true ∧ plus isDot desc = true
       ∧ id (mkTask line currentPhase taskMatch) = js "T" ++ ds)
  ∧ (∀ ws c ws' ds tagP ws1 tag tail currentPhase,
       plus isSpace ws = true → isBox c = true → plus isSpace ws' = true →
       plus isDigit ds = true →
       (tagP = [] ∧ tag ≠ js "P"
        ∨ ∃ wp, plus isSpace wp = true ∧ tagP = wp ++ js "[P]") →
       plus isSpace ws1 = true → noClose tag = true →
       isStoryTag tag = false →
       forallb isDot tag = true → forallb isDot tail = true →
       let line := js "-" ++ ws ++ js "[" ++ c :: js "]" ++ ws' ++ js "T" ++ ds
                   ++ tagP ++ ws1 ++ js "[" ++ tag ++ js "]" ++ tail in
       ∃ taskMatch,
         exec taskRe line = Some taskMatch
         ∧ story (mkTask line currentPhase taskMatch) = None
         ∧ description (mkTask line currentPhase taskMatch)
           = js "[" ++ tag ++ js "]" ++ trimEnd tail).
Proof.
  split.
  - intros line ph m tag Hm Hs. simpl in Hs.
    destruct (group 3 m) as [s|] eqn:E; [|done]. injection Hs as <-.
    destruct (taskRe_story _ _ _ Hm E)
      as (ws & c & ws' & ds & tagP & ws1 & dd & ws2 & desc & Hl & -> & Hdd & HP
          & ? & ? & ? & Hds & ? & ? & ? & H2 & H4).
    assert (trim (js "US" ++ dd) = js "US" ++ dd) as Htrim.
    { apply trim_keeps. js_norm. simpl. apply digits_noSpace.
      by apply plus_elim in Hdd as []. }
    rewrite Htrim. exists ws, c, ws', ds, tagP, ws1, dd, ws2, desc.
    repeat (split; [done|]). simpl. rewrite H2.
    apply trim_keeps. js_norm. simpl. apply digits_noSpace.
    by apply plus_elim in Hds as [].
  - intros ws c ws' ds tagP ws1 tag tail ph ? ? ? ? ? ? ? ? ? ? line.
    eexists. split; [by apply exec_taskRe_other_tag|]. split; [done|].
    cbn [mkTask description].
    change (group' 4 _) with (js "[" ++ tag ++ js "]" ++ tail).
    js_norm. cbn [app]. unfold trim.
    change (trimStart (91 :: ?x)) with (91 :: x).
    by apply (trimEnd_app (91 :: tag) 93 tail).
Qed.

(** The two tags the claim names, and the test of the repository. *)
Example story_AUTH :
  (λ t, (story t, description t))
    <$> parseContent (document ["- [ ] T001 [AUTH] Login"])
  = [(None, js "[AUTH] Login")].
Proof. reflexivity. Qed.

Example story_lowercase :
  (λ t, (story t, description t))
    <$> parseContent (document ["- [ ] T001 [P] [us1] Login"])
  = [(None, js "[us1] Login")].
Proof. reflexivity. Qed.

Example story_US1 :
  (λ t, (story t, description t))
    <$> parseContent (document ["- [ ] T003 [P] [US1] Description 3"])
  = [(Some (js "US1"), js "Description 3")].
Proof. reflexivity. Qed.

Lemma parseTasksMd_story_tag_witness :
  (∃ digits, js "US12" = js "US" ++ digits ∧ plus isDigit digits = true)
  ∧ ∃ taskMatch,
      exec taskRe (js "- [x] T7 [P] [AUTH] Login ") = Some taskMatch
      ∧ story (mkTask (js "- [x] T7 [P] [AUTH] Login ") [] taskMatch) = None
      ∧ description (mkTask (js "- [x] T7 [P] [AUTH] Login ") [] taskMatch)
        = js "[AUTH] Login".
Proof.
  split.
  - destruct (proj1 parseTasksMd_story_tag (js "- [ ] T001 [US12] Go") []
                [(1%nat, js " "); (2%nat, js "T001"); (3%nat, js "US12");
                 (4%nat, js "Go")] (js "US12"))
      as (ws & c & ws' & ds & tagP & ws1 & digits & ws2 & desc & _ & Htag & Hd & _).
    + reflexivity.
    + reflexivity.
    + exists digits. split; [exact Htag|exact Hd].
  - apply (proj2 parseTasksMd_story_tag (js " ") 120 (js " ") (js "7")
             (js " [P]") (js " ") (js "AUTH") (js " Login ") []).
    + reflexivity.
    + reflexivity.
    + reflexivity.
    + reflexivity.
    + right. exists (js " "). split; reflexivity.
    + reflexivity.
    + reflexivity.
    + reflexivity.
    + reflexivity.
    + reflexivity.
Defined.

End StoryClaims.

(** ** The mutator and the parser on the same line *)

Section Agreement.

Implicit Types (line taskId : str).

(** The mutator's match of a line on which the digits of the id are
    followed by another character, and which holds no line terminator
    from there on: the id is the whole run of digits. *)
Lemma exec_markRe ws c ws' ds rest :
  plus isSpace ws = true → isBox c = true → plus isSpace ws' = true →
  plus isDigit ds = true → stops isDigit rest = true →
  plus isDot rest = true →
  exec markRe (js "-" ++ ws ++ js "[" ++ c :: js "]" ++ ws' ++ js "T" ++ ds
               ++ rest)
  = Some [(1%nat, js "-" ++ ws ++ js "["); (2%nat, [c]);
          (3%nat, js "]" ++ ws'); (4%nat, js "T" ++ ds); (5%nat, rest)].
Proof.
  intros Hws Hc Hws' Hds Hstop [Hne Hdot]%plus_elim. js_norm. cbn [app].
  set (line := 45 :: ws ++ 91 :: c :: 93 :: ws' ++ 84 :: ds ++ rest).
  change markRe
    with (Seq (Grp 1 (Seq (Chr 45) (Seq (Plus isSpace) (Seq (Chr 91) Eps))))
            (Seq (Grp 2 (Cls isBox))
               (Seq (Grp 3 (Seq (Chr 93) (Seq (Plus isSpace) Eps)))
                  (Seq (Grp 4 (Seq (Chr 84) (Seq (Plus isDigit) Eps)))
                     (Seq (Grp 5 (Plus isDot)) Eps))))).
  assert (run (Seq (Chr 45) (Seq (Plus isSpace) (Seq (Chr 91) Eps))) line
          = [(c :: 93 :: ws' ++ 84 :: ds ++ rest, [])]) as Hhead.
  { unfold line. rewrite run_Seq_Chr. cbn [N.eqb Pos.eqb].
    rewrite run_Seq_Plus_max; [|done|done|].
    - by rewrite run_Seq_Chr.
    - intros a t Ha. rewrite run_Seq_Chr. by rewrite (space_not a 91). }
  assert (take (length line - length (c :: 93 :: ws' ++ 84 :: ds ++ rest)) line
          = 45 :: ws ++ [91]) as Htake.
  { unfold line.
    replace (45 :: ws ++ 91 :: c :: 93 :: ws' ++ 84 :: ds ++ rest)
      with ((45 :: ws ++ [91]) ++ c :: 93 :: ws' ++ 84 :: ds ++ rest)
      by (by list_norm).
    by rewrite length_app, Nat.add_sub, take_app_length. }
  destruct (run_Seq_Grp_Chr_Plus_first 4 84 isDigit
              (Seq (Grp 5 (Plus isDot)) Eps) ds rest Hds Hstop) as [l Hl].
  destruct (runs_all isDot rest Hne Hdot) as [l' Hl'].
  eapply exec_first.
  rewrite run_Seq_Grp, Hhead. cbn [flat_map]. rewrite app_nil_r.
  rewrite run_Seq_Grp_Cls, Hc.
  rewrite run_Seq_Grp_Chr_Plus; [|done|done|].
  - rewrite Hl, run_Seq_Eps_r. cbn [run]. rewrite Hl'.
    cbn [map app capture fst snd].
    by rewrite Nat.sub_0_r, firstn_all, Htake.
  - intros a t Ha. rewrite run_Seq_Grp, run_Seq_Chr.
    by rewrite (space_not a 84).
Qed.

Lemma forallb_app_r (p : N → bool) (a b : str) :
  forallb p (a ++ b) = true → forallb p b = true.
Proof. rewrite forallb_app. by intros [_ ?]%andb_true_iff. Qed.

Lemma app_nonempty (w s : str) : w ≠ [] → w ++ s ≠ [].
Proof. destruct w; [done|]. intros _. discriminate. Qed.

(** What a line that taskRe accepts looks like up to its id. *)
Lemma taskRe_sound line m :
  exec taskRe line = Some m →
  ∃ ws c ws' ds rest,
    line = js "-" ++ ws ++ js "[" ++ c :: js "]" ++ ws' ++ js "T" ++ ds ++ rest
    ∧ plus isSpace ws = true ∧ isBox c = true ∧ plus isSpace ws' = true
    ∧ plus isDigit ds = true ∧ rest ≠ [] ∧ stops isDigit rest = true
    ∧ group' 2 m = js "T" ++ ds.
Proof.
  intros H%exec_matches. norm_regex taskRe. matches_inv.
  all: rewrite ?app_nil_r in *; js_norm.
  - exists w0, a, w5, w6,
      (w8 ++ [91; 80; 93] ++ w11 ++ [91; 85; 83] ++ w14 ++ [93] ++ w9 ++ w10).
    split; [by list_norm|]. repeat (split; [by apply plus_intro || done|]).
    split; [by apply app_nonempty|]. split; [|reflexivity].
    apply plus_stops with isSpace; [by apply plus_intro|apply space_not_digit].
  - exists w0, a, w5, w6, (w11 ++ [91; 85; 83] ++ w14 ++ [93] ++ w9 ++ w10).
    split; [by list_norm|]. repeat (split; [by apply plus_intro || done|]).
    split; [by apply app_nonempty|]. split; [|reflexivity].
    apply plus_stops with isSpace; [by apply plus_intro|apply space_not_digit].
  - exists w0, a, w5, w6, (w8 ++ [91; 80; 93] ++ w9 ++ w10).
    split; [by list_norm|]. repeat (split; [by apply plus_intro || done|]).
    split; [by apply app_nonempty|]. split; [|reflexivity].
    apply plus_stops with isSpace; [by apply plus_intro|apply space_not_digit].
  - exists w0, a, w5, w6, (w9 ++ w10).
    split; [by list_norm|]. repeat (split; [by apply plus_intro || done|]).
    split; [by apply app_nonempty|]. split; [|reflexivity].
    apply plus_stops with isSpace; [by apply plus_intro|apply space_not_digit].
Qed.

(** On a line that the parser reads as a task line and that holds no line
    terminator, the mutator's test is the comparison of the target with
    the id the parser reads. *)
Lemma isTarget_task_line line taskId parsed :
  taskIdOf line = Some parsed → forallb isDot line = true →
  isTarget taskId line = bool_decide (parsed = taskId).
Proof.
  unfold taskIdOf, isTarget. destruct (exec taskRe line) as [m|] eqn:E; [|done].
  intros [= <-] Hdot.
  destruct (taskRe_sound _ _ E)
    as (ws & c & ws' & ds & rest & -> & Hws & Hc & Hws' & Hds & Hne & Hstop & ->).
  rewrite exec_markRe; try done.
  - change (group' 4 _) with (js "T" ++ ds).
    rewrite trim_keeps; [done|]. js_norm. simpl. apply digits_noSpace.
    by apply plus_elim in Hds as [].
  - apply plus_intro; [done|].
    apply (forallb_app_r isDot
             (js "-" ++ ws ++ js "[" ++ c :: js "]" ++ ws' ++ js "T" ++ ds)).
    etrans; [|exact Hdot]. f_equal. js_norm. by list_norm.
Qed.

(** A line that ends with its id: the mutator reads the last digit as the
    text of the task, and the digits before it as the id. *)
Example isTarget_prefix :
  isTarget (js "T001") (js "- [ ] T0012") = true
  ∧ taskIdOf (js "- [ ] T0012") = None.
Proof. split; reflexivity. Qed.


End Agreement.

(** ** The lines the mutator rewrites *)

Section TargetLines.

Implicit Types (line taskId : str) (p : N → bool).

Lemma span_exists p (s : str) :
  ∃ w r, s = w ++ r ∧ forallb p w = true ∧ stops p r = true.
Proof.
  induction s as [|a s (w & r & -> & Hw & Hr)]; [by exists [], []|].
  destruct (p a) eqn:E.
  - exists (a :: w), r. simpl. by rewrite E.
  - exists [], (a :: w ++ r). simpl. by rewrite E.
Qed.

Lemma runs_two p (w : str) d :
  w ≠ [] → forallb p w = true → p d = true →
  ∃ l, runs p (w ++ [d]) = [] :: [d] :: l.
Proof.
  intros Hne Hw Hd. induction w as [|a w IH]; [done|]. clear Hne.
  simpl in Hw. apply andb_true_iff in Hw as [Ha Hw].
  cbn [app runs]. rewrite Ha. destruct w as [|b w].
  - cbn [app runs]. rewrite Hd. by exists [].
  - destruct IH as [l ->]; [done|done|]. by eexists.
Qed.

(** A group [(x p+)] before a pattern that cannot read the empty input,
    on [x], [p]-characters and nothing else: the group gives back its last
    character. *)
Lemma run_Seq_Grp_Chr_Plus_back i x p r (w : str) d :
  plus p w = true → p d = true → run r [] = [] →
  ∃ l, run (Seq (Grp i (Seq (Chr x) (Seq (Plus p) Eps))) r) (x :: w ++ [d])
       = map (capture i (x :: w)) (run r [d]) ++ l.
Proof.
  intros [Hne Hw]%plus_elim Hd Hnil.
  rewrite run_Seq_Grp, run_Seq_Chr, N.eqb_refl, run_Seq_Plus.
  pose (full := x :: w ++ [d]).
  pose (G := λ '(s1, c1),
         map (λ '(s2, c2),
                (s2, (i, take (length full - length s1) full) :: c1 ++ c2))
             (run r s1)).
  change (∃ l, flat_map G (flat_map (run Eps) (runs p (w ++ [d])))
               = map (capture i (x :: w)) (run r [d]) ++ l).
  rewrite flat_map_run_Eps.
  destruct (runs_two p w d Hne Hw Hd) as [l ->].
  cbn [flat_map]. eexists.
  assert (G ([], []) = []) as -> by (unfold G; by rewrite Hnil).
  rewrite app_nil_l. f_equal.
  unfold G, full. change (x :: w ++ [d]) with ((x :: w) ++ [d]).
  rewrite length_app, Nat.add_sub, take_app_length.
  apply map_ext. by intros [].
Qed.

Lemma digit_dot d : isDigit d = true → isDot d = true.
Proof.
  unfold isDigit, isDot, isLineTerminator.
  intros [H1%N.leb_le H2%N.leb_le]%andb_true_iff.
  apply negb_true_iff. rewrite !orb_false_iff.
  repeat split; apply N.eqb_neq; lia.
Qed.

(** A line that ends with the digits of its id: the last digit is read as
    the text. *)
Lemma exec_markRe_back ws c ws' ds d :
  plus isSpace ws = true → isBox c = true → plus isSpace ws' = true →
  plus isDigit ds = true → isDigit d = true →
  exec markRe (js "-" ++ ws ++ js "[" ++ c :: js "]" ++ ws' ++ js "T" ++ ds
               ++ [d])
  = Some [(1%nat, js "-" ++ ws ++ js "["); (2%nat, [c]);
          (3%nat, js "]" ++ ws'); (4%nat, js "T" ++ ds); (5%nat, [d])].
Proof.
  intros Hws Hc Hws' Hds Hd. js_norm. cbn [app].
  set (line := 45 :: ws ++ 91 :: c :: 93 :: ws' ++ 84 :: ds ++ [d]).
  change markRe
    with (Seq (Grp 1 (Seq (Chr 45) (Seq (Plus isSpace) (Seq (Chr 91) Eps))))
            (Seq (Grp 2 (Cls isBox))
               (Seq (Grp 3 (Seq (Chr 93) (Seq (Plus isSpace) Eps)))
                  (Seq (Grp 4 (Seq (Chr 84) (Seq (Plus isDigit) Eps)))
                     (Seq (Grp 5 (Plus isDot)) Eps))))).
  assert (run (Seq (Chr 45) (Seq (Plus isSpace) (Seq (Chr 91) Eps))) line
          = [(c :: 93 :: ws' ++ 84 :: ds ++ [d], [])]) as Hhead.
  { unfold line. rewrite run_Seq_Chr. cbn [N.eqb Pos.eqb].
    rewrite run_Seq_Plus_max; [|done|done|].
    - by rewrite run_Seq_Chr.
    - intros a t Ha. rewrite run_Seq_Chr. by rewrite (space_not a 91). }
  assert (take (length line - length (c :: 93 :: ws' ++ 84 :: ds ++ [d])) line
          = 45 :: ws ++ [91]) as Htake.
  { unfold line.
    replace (45 :: ws ++ 91 :: c :: 93 :: ws' ++ 84 :: ds ++ [d])
      with ((45 :: ws ++ [91]) ++ c :: 93 :: ws' ++ 84 :: ds ++ [d])
      by (by list_norm).
    by rewrite length_app, Nat.add_sub, take_app_length. }
  destruct (run_Seq_Grp_Chr_Plus_back 4 84 isDigit
              (Seq (Grp 5 (Plus isDot)) Eps) ds d Hds Hd) as [l Hl];
    [done|].
  eapply exec_first.
  rewrite run_Seq_Grp, Hhead. cbn [flat_map]. rewrite app_nil_r.
  rewrite run_Seq_Grp_Cls, Hc.
  rewrite run_Seq_Grp_Chr_Plus; [|done|done|].
  - rewrite Hl, run_Seq_Eps_r. cbn [run runs]. rewrite (digit_dot d Hd).
    cbn [map app capture fst snd].
    by rewrite Nat.sub_0_r, firstn_all, Htake.
  - intros a t Ha. rewrite run_Seq_Grp, run_Seq_Chr.
    by rewrite (space_not a 84).
Qed.

(** The test of the mutator, [taskMatch && taskMatch[4] === taskId], holds
    of the target lines and of no other line. *)
Lemma isTarget_of_targetLine taskId line :
  targetLine taskId line → isTarget taskId line = true.
Proof.
  intros (ws & c & ws' & ds & rest & -> & -> & Hws & Hc & Hws' & Hds & Hrest
          & Hlast).
  rewrite <- (app_assoc (js "T")). unfold isTarget.
  assert (stops isDigit rest = true
          ∨ ∃ d, rest = [d] ∧ isDigit d = true) as [Hstop|(d & -> & Hd)].
  { destruct Hlast as [|Hlen]; [by left|].
    destruct rest as [|d [|? ?]]; [done| |done].
    destruct (isDigit d) eqn:E; [right; by exists d|left]. simpl.
    by rewrite E. }
  - rewrite exec_markRe by done. by apply bool_decide_eq_true.
  - rewrite exec_markRe_back by done. by apply bool_decide_eq_true.
Qed.

Lemma targetLine_of_isTarget taskId line :
  isTarget taskId line = true → targetLine taskId line.
Proof.
  unfold isTarget. destruct (exec markRe line) as [m|] eqn:E; [|done].
  intros Hid%bool_decide_eq_true.
  destruct (markRe_sound _ _ E)
    as (ws & c & ws' & ds & rest & Hline & Hws1 & Hws2 & Hc & Hws1' & Hws2'
        & Hds1 & Hds2 & Hrest1 & Hrest2 & ->).
  change (group' 4 _) with (js "T" ++ ds) in Hid. subst taskId.
  assert (plus isSpace ws = true) as Hws by (by apply plus_intro).
  assert (plus isSpace ws' = true) as Hws' by (by apply plus_intro).
  assert (plus isDigit ds = true) as Hds by (by apply plus_intro).
  assert (line = js "-" ++ ws ++ js "[" ++ c :: js "]" ++ ws' ++ js "T" ++ ds
                 ++ rest) as Hline' by (by rewrite Hline).
  clear Hline. subst line.
  exists ws, c, ws', ds, rest.
  split; [by rewrite <- (app_assoc (js "T"))|]. split; [done|].
  split; [done|]. split; [done|]. split; [done|]. split; [done|].
  split; [by apply plus_intro|].
  destruct (span_exists isDigit rest) as (D & r2 & -> & HD & Hr2).
  destruct D as [|d0 D]; [by left|].
  rewrite forallb_app in Hrest2. apply andb_true_iff in Hrest2 as [_ Hr2dot].
  assert (∀ ds', ds' ≠ ds →
            exec markRe (js "-" ++ ws ++ js "[" ++ c :: js "]" ++ ws'
                         ++ js "T" ++ ds ++ (d0 :: D) ++ r2)
            ≠ Some [(1%nat, js "-" ++ ws ++ js "["); (2%nat, [c]);
                    (3%nat, js "]" ++ ws'); (4%nat, js "T" ++ ds');
                    (5%nat, drop (length ds' - length ds) ((d0 :: D) ++ r2))])
    as Hother.
  { intros ds' Hne. rewrite E. intros [= H4 _].
    apply Hne. symmetry. revert H4. js_norm. by intros [= ->]. }
  destruct r2 as [|a r2].
  - rewrite app_nil_r in *. destruct D as [|d1 D]; [by right|]. exfalso.
    destruct (exists_last (l := d0 :: d1 :: D)) as (D' & e & HD'); [done|].
    assert (D' ≠ []) as HneD'.
    { intros ->. simpl in HD'. discriminate. }
    rewrite HD' in *. rewrite forallb_app in HD.
    apply andb_true_iff in HD as [HD1 HD2].
    simpl in HD2. apply andb_true_iff in HD2 as [He _].
    apply (Hother (ds ++ D')).
    { intros H. apply HneD'.
      rewrite <- (app_nil_r ds) in H at 2. by apply app_inv_head in H. }
    rewrite length_app, Nat.add_comm, Nat.add_sub, drop_app_length.
    rewrite (app_assoc ds D' [e]).
    apply exec_markRe_back; try done.
    apply plus_intro; [by destruct ds|]. rewrite forallb_app. by rewrite Hds2.
  - exfalso. apply (Hother (ds ++ d0 :: D)).
    { intros H. rewrite <- (app_nil_r ds) in H at 2.
      by apply app_inv_head in H. }
    rewrite length_app, Nat.add_comm, Nat.add_sub, drop_app_length.
    rewrite (app_assoc ds (d0 :: D) (a :: r2)).
    apply exec_markRe; try done.
    all: apply plus_intro; [by destruct ds|].
    all: rewrite forallb_app; by rewrite Hds2.
Qed.

(** [X] in the checkbox of a line is one text. *)
Lemma ticked_fun line line1 line2 :
  ticked line line1 → ticked line line2 → line1 = line2.
Proof.
  intros (ws1 & c1 & post1 & -> & Hws1 & _ & ->)
         (ws2 & c2 & post2 & Heq & Hws2 & _ & ->).
  apply plus_elim in Hws1 as [_ Hws1]. apply plus_elim in Hws2 as [_ Hws2].
  revert Heq. js_norm. cbn [app]. intros [= Heq].
  apply (span_unique isSpace) in Heq as [-> [= _ ->]]; done.
Qed.

Lemma markLine_ticked taskId line :
  targetLine taskId line → ticked line (markLine taskId line).
Proof.
  intros H%isTarget_of_targetLine.
  destruct (markLine_target _ _ H) as (ws & c & post & ? & ? & ? & ? & _).
  by exists ws, c, post.
Qed.


(** A line the parser reads as the task [taskId] is a target line when it
    holds no line terminator. *)
Lemma taskLine_targetLine taskId line :
  taskLine taskId line → targetLine taskId line.
Proof.
  intros [Hid Hdot]. apply targetLine_of_isTarget.
  rewrite (isTarget_task_line _ _ _ Hid Hdot). by apply bool_decide_eq_true.
Qed.

End TargetLines.

(** ** The mutator: markTaskComplete *)

Section MutatorTargets.

Implicit Types (w : World) (filePath taskId content line : str).




(** C2 (as the code has it).  On a target line, or a line the parser
    reads as the task with the id, whose checkbox holds [x] or [X],
    markTaskComplete writes [X] into the checkbox: a line marked with the
    upper-case [X] comes back as it was, a line marked with the lower-case
    [x] comes back with [X] in place of [x] and is otherwise the same
    text. *)
Theorem markTaskComplete_already_complete
    w filePath taskId content (i : nat) line ws c post :
  filePath ≠ [] → trim taskId ≠ [] → holds w filePath content →
  split LF content !! i = Some line →
  targetLine taskId line ∨ taskLine taskId line →
  line = js "-" ++ ws ++ js "[" ++ c :: js "]" ++ post →
  plus isSpace ws = true → c = 120 ∨ c = 88 →
  ∃ w' content',
    markTaskComplete filePath taskId w = (inr tt, w')
    ∧ files w' !! filePath = Some content'
    ∧ split LF content' !! i
      = Some (js "-" ++ ws ++ js "[" ++ 88 :: js "]" ++ post)
    ∧ (c = 88 → split LF content' !! i = Some line).
Proof.
  intros Hp Hid Hh Hi Ht Hline Hws Hc.
  destruct (markTaskComplete_lines _ _ _ _ Hp Hid Hh)
    as (w' & content' & Hrun & Hw' & Hlines).
  assert (targetLine taskId line) as Htarget.
  { destruct Ht as [|Ht]; [done|by apply taskLine_targetLine]. }
  assert (markLine taskId line
          = js "-" ++ ws ++ js "[" ++ 88 :: js "]" ++ post) as Hmark.
  { apply (ticked_fun line); [by apply markLine_ticked|].
    exists ws, c, post. repeat split; try done.
    destruct Hc as [-> | ->]; reflexivity. }
  assert (split LF content' !! i = Some (markLine taskId line)) as Hi'.
  { rewrite Hlines.
    change (map (markLine taskId)) with (fmap (M:=list) (markLine taskId)).
    by rewrite list_lookup_fmap, Hi. }
  exists w', content'. split; [done|]. split; [done|].
  rewrite Hmark in Hi'. split; [exact Hi'|].
  intros ->. by rewrite Hline.
Qed.

Lemma markTaskComplete_already_complete_witness :
  (∃ w' content',
     markTaskComplete (js "tasks.md") (js "T002")
       (oneFile (js "tasks.md")
          (document ["- [ ] T001 Setup"; "- [x] T002 Already done"]))
     = (inr tt, w')
     ∧ files w' !! js "tasks.md" = Some content'
     ∧ split LF content' !! 1%nat = Some (js "- [X] T002 Already done"))
  ∧ (∃ w' content',
       markTaskComplete (js "tasks.md") (js "T002")
         (oneFile (js "tasks.md")
            (document ["- [ ] T001 Setup"; "- [X] T002 Already done"]))
       = (inr tt, w')
       ∧ files w' !! js "tasks.md" = Some content'
       ∧ split LF content' !! 1%nat = Some (js "- [X] T002 Already done")).
Proof.
  split.
  - destruct (markTaskComplete_already_complete
                (oneFile (js "tasks.md")
                   (document ["- [ ] T001 Setup"; "- [x] T002 Already done"]))
                (js "tasks.md") (js "T002")
                (document ["- [ ] T001 Setup"; "- [x] T002 Already done"])
                1%nat (js "- [x] T002 Already done") (js " ") 120
                (js " T002 Already done"))
      as (w' & content' & Hrun & Hfile & Hline & _).
    + discriminate.
    + vm_compute. discriminate.
    + apply oneFile_holds.
    + reflexivity.
    + right. split; reflexivity.
    + reflexivity.
    + reflexivity.
    + left. reflexivity.
    + by exists w', content'.
  - destruct (markTaskComplete_already_complete
                (oneFile (js "tasks.md")
                   (document ["- [ ] T001 Setup"; "- [X] T002 Already done"]))
                (js "tasks.md") (js "T002")
                (document ["- [ ] T001 Setup"; "- [X] T002 Already done"])
                1%nat (js "- [X] T002 Already done") (js " ") 88
                (js " T002 Already done"))
      as (w' & content' & Hrun & Hfile & _ & Hline).
    + discriminate.
    + vm_compute. discriminate.
    + apply oneFile_holds.
    + reflexivity.
    + right. split; reflexivity.
    + reflexivity.
    + reflexivity.
    + right. reflexivity.
    + exists w', content'. split; [exact Hrun|]. split; [exact Hfile|].
      by apply Hline.
Defined.

(** C2, the claim as stated fails: a lower-case marker is not preserved. *)
Lemma markTaskComplete_uppercases_marker :
  let content := document ["- [x] T001 done"] in
  ∃ w' content',
    markTaskComplete (js "tasks.md") (js "T001")
      (oneFile (js "tasks.md") content) = (inr tt, w')
    ∧ files w' !! js "tasks.md" = Some content'
    ∧ (taskIdOf <$> split LF content) = [Some (js "T001")]
    ∧ (completed <$> parseContent content) = [true]
    ∧ split LF content' = [js "- [X] T001 done"]
    ∧ split LF content' !! 0%nat ≠ split LF content !! 0%nat.
Proof.
  eexists _, _. split; [vm_compute; reflexivity|].
  split; [vm_compute; reflexivity|].
  split; [vm_compute; reflexivity|].
  split; [vm_compute; reflexivity|].
  split; [vm_compute; reflexivity|].
  vm_compute. discriminate.
Qed.




End MutatorTargets.

(** ** The workflow state store *)

Section StoreFacts.

Variable path_join : str → str → str.
Variable JSON_stringify : WorkflowState → str.
Variable JSON_parse : str → option WorkflowState.

Implicit Types (w : World) (dir : str) (st : WorkflowState)
  (step : Step) (stepData : gmap str json).

Local Abbreviation get := (getWorkflowState path_join JSON_parse).
Local Abbreviation put := (setWorkflowState path_join JSON_stringify).
Local Abbreviation init := (initWorkflowState path_join JSON_stringify).
Local Abbreviation update :=
  (updateWorkflowState path_join JSON_stringify JSON_parse).
Local Abbreviation statePath := (State.statePath path_join).
Local Abbreviation found := (State.found path_join JSON_parse).
Local Abbreviation consistent := (State.consistent path_join JSON_parse).
Local Abbreviation base := (State.base path_join JSON_parse).

Lemma sameFiles_logged e w : sameFiles w (logged e w).
Proof. done. Qed.

(** getWorkflowState never throws: it returns what it finds. *)
Lemma getWorkflowState_run w dir :
  ∃ w', get dir w = (inr (found w dir), w') ∧ sameFiles w w'.
Proof.
  unfold getWorkflowState, State.found, bind, fileExists, catch, readFile.
  fold (statePath dir). simpl.
  destruct (files w !! statePath dir) as [content|] eqn:E.
  - rewrite bool_decide_eq_true_2 by eauto. simpl. rewrite E.
    unfold ret, throw.
    destruct (decide (statePath dir ∈ unreadable w)); simpl.
    { eexists. split; [reflexivity|]. by unfold sameFiles. }
    destruct (JSON_parse content); simpl;
      (eexists; split; [reflexivity|]; by unfold sameFiles).
  - rewrite bool_decide_eq_false_2 by (by intros [? ?]). simpl.
    eexists. split; [reflexivity|]. by unfold sameFiles.
Qed.

Lemma setWorkflowState_run w st :
  statePath (featureDir st) ∉ unwritable w →
  ∃ w', put st w = (inr tt, w')
        ∧ files w' = <[statePath (featureDir st) := JSON_stringify st]> (files w)
        ∧ unreadable w' = unreadable w ∧ unwritable w' = unwritable w
        ∧ clock w' = clock w.
Proof.
  intros Hw. unfold setWorkflowState, writeFile. fold (statePath (featureDir st)).
  rewrite decide_False by done. by eexists.
Qed.

Lemma base_path w dir :
  consistent w dir → statePath (featureDir (base w dir)) = statePath dir.
Proof.
  unfold State.consistent, State.base. intros H.
  destruct (found w dir) as [st|]; simpl; [by apply H|done].
Qed.

(** On a consistent store whose file can be written, updateWorkflowState
    returns the stepped state and leaves it in the file. *)
Lemma updateWorkflowState_run w dir step stepData :
  consistent w dir → statePath dir ∉ unwritable w →
  ∃ w', update dir step stepData w
        = (inr (stepped step stepData (base w dir)), w')
        ∧ files w' !! statePath dir
          = Some (JSON_stringify (stepped step stepData (base w dir)))
        ∧ unreadable w' = unreadable w ∧ unwritable w' = unwritable w.
Proof.
  intros Hcons Hw. pose proof (base_path w dir Hcons) as Hpath.
  change (update dir step stepData)
    with (bind (get dir)
            (λ found,
               bind (match found with
                     | Some state => ret state
                     | None => initWorkflowState path_join JSON_stringify dir []
                     end)
                    (λ state,
                       bind (put (stepped step stepData state))
                            (λ _, ret (stepped step stepData state))))).
  unfold bind at 1.
  destruct (getWorkflowState_run w dir) as (w0 & -> & Hf0 & Hr0 & Hw0 & Hc0).
  unfold State.base in *. destruct (found w dir) as [st|].
  - change (default _ (Some st)) with st in *. unfold bind, ret.
    destruct (setWorkflowState_run w0 (stepped step stepData st))
      as (w1 & -> & Hf1 & Hr1 & Hw1 & _).
    { change (featureDir (stepped step stepData st)) with (featureDir st).
      by rewrite Hpath, Hw0. }
    eexists. split; [done|].
    change (featureDir (stepped step stepData st)) with (featureDir st) in Hf1.
    rewrite Hf1, Hpath, lookup_insert_eq. by rewrite Hr1, Hw1, Hr0, Hw0.
  - change (default ?d None) with d in *.
    change (initWorkflowState path_join JSON_stringify dir [])
      with (bind toISOString_now
              (λ startedAt, bind (put (initial dir [] startedAt))
                              (λ _, ret (initial dir [] startedAt)))).
    unfold bind at 1 2. unfold toISOString_now. unfold bind at 1.
    destruct (setWorkflowState_run (logged Now w0) (initial dir [] (clock w0)))
      as (w1 & -> & Hf1 & Hr1 & Hw1 & _).
    { change (statePath dir ∉ unwritable w0). by rewrite Hw0. }
    simpl in Hr1, Hw1. unfold ret at 1. unfold bind, ret. rewrite Hc0.
    destruct (setWorkflowState_run w1
                (stepped step stepData (initial dir [] (clock w))))
      as (w2 & -> & Hf2 & Hr2 & Hw2 & _).
    { change (statePath dir ∉ unwritable w1). by rewrite Hw1, Hw0. }
    eexists. split; [done|]. simpl in Hf2. rewrite Hf2, lookup_insert_eq.
    by rewrite Hr2, Hw2, Hr1, Hw1, Hr0, Hw0.
Qed.

(** The store is consistent when no state file exists, and an update of a
    consistent store leaves it consistent when the state it wrote reads
    back as it was written. *)
Lemma consistent_no_file w dir :
  files w !! statePath dir = None → consistent w dir.
Proof. intros H st. unfold State.found. by rewrite H. Qed.

Lemma updateWorkflowState_consistent w dir step stepData st w' :
  consistent w dir → statePath dir ∉ unwritable w →
  update dir step stepData w = (inr st, w') →
  JSON_parse (JSON_stringify st) = Some st →
  consistent w' dir.
Proof.
  intros Hcons Hw Hrun Hback.
  destruct (updateWorkflowState_run w dir step stepData Hcons Hw)
    as (w1 & Hrun1 & Hf & Hr & _).
  rewrite Hrun in Hrun1. injection Hrun1 as -> ->.
  intros st'. unfold State.found. rewrite Hf.
  destruct (decide _); [done|]. rewrite Hback. intros [= <-].
  apply (base_path w dir Hcons).
Qed.

(** what a read finds after a write *)
Lemma found_written w' st :
  files w' !! statePath (featureDir st) = Some (JSON_stringify st) →
  statePath (featureDir st) ∉ unreadable w' →
  JSON_parse (JSON_stringify st) = Some st →
  found w' (featureDir st) = Some st.
Proof.
  intros Hf Hr Hback. unfold State.found. rewrite Hf.
  by rewrite decide_False.
Qed.

Lemma setWorkflowState_fails w st :
  statePath (featureDir st) ∈ unwritable w →
  ∃ w', put st w = (inl (WriteFailed (statePath (featureDir st))), w')
        ∧ sameFiles w w'.
Proof.
  intros Hw. unfold setWorkflowState, writeFile.
  fold (statePath (featureDir st)). rewrite decide_True by done.
  by eexists.
Qed.

Lemma initWorkflowState_run w dir description :
  statePath dir ∉ unwritable w →
  ∃ w', init dir description w = (inr (initial dir description (clock w)), w')
        ∧ files w'
          = <[statePath dir
              := JSON_stringify (initial dir description (clock w))]> (files w)
        ∧ unreadable w' = unreadable w ∧ unwritable w' = unwritable w
        ∧ clock w' = clock w.
Proof.
  intros Hw.
  change (init dir description)
    with (bind toISOString_now
            (λ startedAt, bind (put (initial dir description startedAt))
                            (λ _, ret (initial dir description startedAt)))).
  unfold bind at 1. unfold toISOString_now. unfold bind.
  destruct (setWorkflowState_run (logged Now w)
              (initial dir description (clock w)))
    as (w1 & -> & Hf1 & Hr1 & Hw1 & Hc1); [done|].
  by exists w1.
Qed.

(** The general form of an update: it starts from the state found, or
    from a new one, and writes to the file of the directory that state
    names. *)
Lemma updateWorkflowState_to w dir step stepData :
  statePath (featureDir (base w dir)) ∉ unwritable w →
  ∃ w', update dir step stepData w
        = (inr (stepped step stepData (base w dir)), w')
        ∧ files w'
          = <[statePath (featureDir (base w dir))
              := JSON_stringify (stepped step stepData (base w dir))]>
              (match found w dir with
               | Some _ => files w
               | None => <[statePath dir
                           := JSON_stringify (initial dir [] (clock w))]>
                           (files w)
               end)
        ∧ unreadable w' = unreadable w ∧ unwritable w' = unwritable w.
Proof.
  intros Hw.
  change (update dir step stepData)
    with (bind (get dir)
            (λ found,
               bind (match found with
                     | Some state => ret state
                     | None => init dir []
                     end)
                    (λ state,
                       bind (put (stepped step stepData state))
                            (λ _, ret (stepped step stepData state))))).
  unfold bind at 1.
  destruct (getWorkflowState_run w dir)
    as (w0 & -> & Hf0 & Hr0 & Hw0 & Hc0).
  unfold State.base in *. destruct (found w dir) as [old|].
  - change (default _ (Some old)) with old in *. unfold bind, ret.
    destruct (setWorkflowState_run w0
                (stepped step stepData old))
      as (w1 & -> & Hf1 & Hr1 & Hw1 & _).
    { change (featureDir (stepped step stepData old)) with (featureDir old).
      by rewrite Hw0. }
    exists w1. split; [done|].
    change (featureDir (stepped step stepData old)) with (featureDir old) in Hf1.
    by rewrite Hf1, Hf0, Hr1, Hw1, Hr0, Hw0.
  - change (default ?d None) with d in *.
    change (featureDir (initial dir [] (clock w))) with dir in *.
    unfold bind at 1.
    destruct (initWorkflowState_run w0 dir [])
      as (w1 & -> & Hf1 & Hr1 & Hw1 & Hc1); [by rewrite Hw0|].
    unfold bind, ret. rewrite Hc0.
    destruct (setWorkflowState_run w1
                (stepped step stepData (initial dir [] (clock w))))
      as (w2 & -> & Hf2 & Hr2 & Hw2 & _).
    { change (statePath dir ∉ unwritable w1). by rewrite Hw1, Hw0. }
    exists w2. split; [done|].
    change (featureDir (stepped step stepData (initial dir [] (clock w))))
      with dir in Hf2.
    by rewrite Hf2, Hf1, Hc0, Hf0, Hr2, Hw2, Hr1, Hw1, Hr0, Hw0.
Qed.

(** An update whose write fails. *)
Lemma updateWorkflowState_fails w dir step stepData :
  statePath (featureDir (base w dir)) ∈ unwritable w →
  ∃ w', update dir step stepData w
        = (inl (WriteFailed (statePath (featureDir (base w dir)))), w')
        ∧ sameFiles w w'.
Proof.
  intros Hw.
  change (update dir step stepData)
    with (bind (get dir)
            (λ found,
               bind (match found with
                     | Some state => ret state
                     | None => init dir []
                     end)
                    (λ state,
                       bind (put (stepped step stepData state))
                            (λ _, ret (stepped step stepData state))))).
  unfold bind at 1.
  destruct (getWorkflowState_run w dir)
    as (w0 & -> & Hf0 & Hr0 & Hw0 & Hc0).
  unfold State.base in *. destruct (found w dir) as [old|].
  - change (default _ (Some old)) with old in *. unfold bind, ret.
    destruct (setWorkflowState_fails w0 (stepped step stepData old))
      as (w1 & -> & Hf1 & Hr1 & Hw1 & Hc1).
    { change (featureDir (stepped step stepData old)) with (featureDir old).
      by rewrite Hw0. }
    exists w1. split; [done|]. unfold sameFiles.
    by rewrite Hf1, Hr1, Hw1, Hc1.
  - change (default ?d None) with d in *.
    change (featureDir (initial dir [] (clock w))) with dir in *.
    change (init dir [])
      with (bind toISOString_now
              (λ startedAt, bind (put (initial dir [] startedAt))
                              (λ _, ret (initial dir [] startedAt)))).
    unfold bind at 1 2. unfold toISOString_now. unfold bind at 1.
    destruct (setWorkflowState_fails (logged Now w0)
                (initial dir [] (clock w0)))
      as (w1 & -> & Hf1 & Hr1 & Hw1 & Hc1).
    { change (statePath dir ∈ unwritable w0). by rewrite Hw0. }
    exists w1. split; [done|]. unfold sameFiles. simpl in Hf1, Hr1, Hw1, Hc1.
    by rewrite Hf1, Hr1, Hw1, Hc1.
Qed.

End StoreFacts.

Section StoreClaims.

Variable path_join : str → str → str.
Variable JSON_stringify : WorkflowState → str.
Variable JSON_parse : str → option WorkflowState.

Implicit Types (w : World) (dir : str) (st : WorkflowState)
  (step : Step) (stepData : gmap str json).

Local Abbreviation get := (getWorkflowState path_join JSON_parse).
Local Abbreviation update :=
  (updateWorkflowState path_join JSON_stringify JSON_parse).
Local Abbreviation statePath := (State.statePath path_join).
Local Abbreviation consistent := (State.consistent path_join JSON_parse).
Local Abbreviation wellFormed :=
  (State.wellFormed path_join JSON_stringify JSON_parse).
Local Abbreviation found := (State.found path_join JSON_parse).
Local Abbreviation base := (State.base path_join JSON_parse).

Lemma mergeStep_completed old stepData :
  mergeStep old stepData !! js "completed" = Some (JBool true).
Proof. unfold mergeStep. apply lookup_insert_eq. Qed.

Lemma mergeStep_new old stepData k v :
  stepData !! k = Some v → k ≠ js "completed" →
  mergeStep old stepData !! k = Some v.
Proof.
  intros Hk Hne. unfold mergeStep. rewrite lookup_insert_ne by done.
  by apply lookup_union_Some_l.
Qed.

Lemma mergeStep_old old stepData k v :
  old !! k = Some v → stepData !! k = None → k ≠ js "completed" →
  mergeStep (Some old) stepData !! k = Some v.
Proof.
  intros Hk Hnone Hne. unfold mergeStep. rewrite lookup_insert_ne by done.
  simpl. by rewrite lookup_union_r.
Qed.

(** C6 (as the code has it).  Two successive updates of the same step, on
    a store whose state file is missing, is refused by [JSON.parse] or
    holds the text of a state that names this same directory, and can be
    read and written, the first written state being read back by
    [JSON.parse] as it was: both return, and the status of the step in the
    state the second returns holds [completed: true], every key of the
    second update with its value, and every key of the first update that
    the second does not set, with the value the first gave it; the status
    after the first update holds [completed: true] as well. *)
Theorem updateWorkflowState_merges w dir step first second :
  wellFormed w dir → consistent w dir →
  statePath dir ∉ unwritable w → statePath dir ∉ unreadable w →
  (∀ st w1, update dir step first w = (inr st, w1) →
            JSON_parse (JSON_stringify st) = Some st) →
  ∃ st1 w1 st2 w2 status1 status2,
    update dir step first w = (inr st1, w1)
    ∧ update dir step second w1 = (inr st2, w2)
    ∧ stepStatus st1 !! step = Some status1
    ∧ status1 !! js "completed" = Some (JBool true)
    ∧ stepStatus st2 !! step = Some status2
    ∧ status2 !! js "completed" = Some (JBool true)
    ∧ (∀ k v, second !! k = Some v → k ≠ js "completed" →
              status2 !! k = Some v)
    ∧ (∀ k v, first !! k = Some v → second !! k = None →
              k ≠ js "completed" → status2 !! k = Some v).
Proof.
  intros _ Hcons Hw Hr Hback.
  destruct (updateWorkflowState_run path_join JSON_stringify JSON_parse
              w dir step first Hcons Hw) as (w1 & Hrun1 & Hf1 & Hr1 & Hw1).
  set (st1 := stepped step first (base w dir)) in *.
  assert (found w1 dir = Some st1) as Hfound.
  { unfold State.found. rewrite Hf1, Hr1.
    rewrite decide_False by done. by apply Hback with w1. }
  assert (consistent w1 dir) as Hcons1.
  { intros st. rewrite Hfound. intros [= <-].
    apply (base_path path_join JSON_parse w dir Hcons). }
  destruct (updateWorkflowState_run path_join JSON_stringify JSON_parse
              w1 dir step second Hcons1) as (w2 & Hrun2 & _).
  { by rewrite Hw1. }
  assert (base w1 dir = st1) as Hbase.
  { unfold State.base. by rewrite Hfound. }
  rewrite Hbase in Hrun2.
  exists st1, w1, (stepped step second st1), w2.
  eexists _, _. split; [done|]. split; [done|].
  split; [apply lookup_insert_eq|]. split; [apply mergeStep_completed|].
  split; [apply lookup_insert_eq|]. split; [apply mergeStep_completed|].
  split.
  - intros k v Hk Hne. by apply mergeStep_new.
  - intros k v Hk Hnone Hne. simpl. rewrite lookup_insert_eq.
    apply mergeStep_old; [|done..]. by apply mergeStep_new.
Qed.

(** C7.  getWorkflowState returns [null], and throws nothing, both when
    the directory has no state file and when the content of its state file
    does not parse: the caller receives the same value in the two cases,
    and no file has changed. *)
Theorem getWorkflowState_absent w dir :
  files w !! statePath dir = None
  ∨ (∃ content, files w !! statePath dir = Some content
                ∧ JSON_parse content = None) →
  ∃ w', get dir w = (inr None, w') ∧ files w' = files w.
Proof.
  intros H.
  destruct (getWorkflowState_run path_join JSON_parse w dir)
    as (w' & Hrun & Hfiles & _).
  exists w'. split; [|done]. rewrite Hrun. do 2 f_equal.
  unfold State.found. destruct H as [->|(content & -> & Hparse)]; [done|].
  by destruct (decide _).
Qed.



End StoreClaims.

(** C6, the claim as stated fails on a directory whose state file holds a
    state that names another directory, as after a copy: both updates of
    the step [plan] return, the first state goes to the other directory,
    and the status the second returns has lost the key of the first. *)
Lemma updateWorkflowState_loses_keys :
  ∃ st1 w1 st2 w2 status2,
    updateWorkflowState Json.pathJoin Json.stringify Json.parse
      (js "feat") plan {[ js "planPath" := JStr (js "/a") ]} copied
    = (inr st1, w1)
    ∧ updateWorkflowState Json.pathJoin Json.stringify Json.parse
        (js "feat") plan {[ js "artifacts" := JArr [JStr (js "/b")] ]} w1
      = (inr st2, w2)
    ∧ stepStatus st2 !! plan = Some status2
    ∧ status2 !! js "artifacts" = Some (JArr [JStr (js "/b")])
    ∧ status2 !! js "planPath" = None.
Proof.
  eexists _, _, _, _, _. split; [vm_compute; reflexivity|].
  split; [vm_compute; reflexivity|].
  split; [vm_compute; reflexivity|].
  split; vm_compute; reflexivity.
Qed.

Section StoreExamples.

Local Abbreviation update :=
  (updateWorkflowState Json.pathJoin Json.stringify Json.parse).
Local Abbreviation get := (getWorkflowState Json.pathJoin Json.parse).

Lemma updateWorkflowState_merges_witness :
  ∃ st1 w1 st2 w2 status1 status2,
    update (js "feat") plan {[ js "planPath" := JStr (js "/a") ]} noFiles
    = (inr st1, w1)
    ∧ update (js "feat") plan {[ js "artifacts" := JArr [JStr (js "/b")] ]} w1
      = (inr st2, w2)
    ∧ stepStatus st1 !! plan = Some status1
    ∧ status1 !! js "completed" = Some (JBool true)
    ∧ stepStatus st2 !! plan = Some status2
    ∧ status2 !! js "completed" = Some (JBool true)
    ∧ (∀ k v, ({[ js "artifacts" := JArr [JStr (js "/b")] ]} : gmap str json) !! k
              = Some v →
              k ≠ js "completed" → status2 !! k = Some v)
    ∧ (∀ k v, ({[ js "planPath" := JStr (js "/a") ]} : gmap str json) !! k
              = Some v →
              ({[ js "artifacts" := JArr [JStr (js "/b")] ]} : gmap str json) !! k
              = None →
              k ≠ js "completed" → status2 !! k = Some v).
Proof.
  apply (updateWorkflowState_merges Json.pathJoin Json.stringify Json.parse
           noFiles (js "feat") plan).
  - intros content H. vm_compute in H. discriminate.
  - intros st H. vm_compute in H. discriminate.
  - apply not_elem_of_empty.
  - apply not_elem_of_empty.
  - intros st w1 H. vm_compute in H. injection H as <- _.
    vm_compute. reflexivity.
Defined.

Lemma getWorkflowState_absent_witness :
  ∃ w', get (js "feat")
          (oneFile (Json.pathJoin (js "feat") STATE_FILE) (js "{ oops"))
        = (inr None, w')
        ∧ files w'
          = files (oneFile (Json.pathJoin (js "feat") STATE_FILE) (js "{ oops")).
Proof.
  apply (getWorkflowState_absent Json.pathJoin Json.parse).
  right. exists (js "{ oops"). split; reflexivity.
Defined.


End StoreExamples.

(** * Further properties of the checklist functions *)

Section MarkTwice.

Implicit Types (w : World) (filePath taskId content line : str).

(** Marking a marked line changes nothing. *)
Lemma markLine_idem taskId line :
  markLine taskId (markLine taskId line) = markLine taskId line.
Proof.
  destruct (isTarget taskId line) eqn:E;
    [|by rewrite !(markLine_other _ line)].
  destruct (markLine_target _ _ E) as (ws & c & post & _ & Hm & Hws & _).
  rewrite Hm.
  destruct (isTarget taskId (js "-" ++ ws ++ js "[" ++ 88 :: js "]" ++ post))
    eqn:E'; [|by rewrite markLine_other].
  destruct (markLine_target _ _ E')
    as (ws2 & c2 & post2 & Heq & Hm2 & Hws2 & Hc2 & _).
  rewrite Hm2.
  apply plus_elim in Hws as [_ Hws]. apply plus_elim in Hws2 as [_ Hws2].
  revert Heq. js_norm. cbn [app]. intros [= Heq].
  apply (span_unique isSpace) in Heq as [<- [= <- <-]]; done.
Qed.

Lemma markContent_idem taskId content :
  markContent taskId (markContent taskId content) = markContent taskId content.
Proof.
  unfold markContent at 1. rewrite markContent_lines, map_map.
  unfold markContent. f_equal. apply map_ext. intros line. apply markLine_idem.
Qed.

Lemma length_join_map (f : str → str) (lines : list str) :
  (∀ l, length (f l) = length l) →
  length (join LF (map f lines)) = length (join LF lines).
Proof.
  intros Hf. induction lines as [|l [|l' ls] IH]; simpl in *; [done|apply Hf|].
  rewrite !length_app. simpl. by rewrite Hf, IH.
Qed.

(** What a run that returns leaves: the marked text, readable and writable
    as before, and every other file and the clock as they were. *)
Lemma markTaskComplete_leaves w filePath taskId content :
  filePath ≠ [] → trim taskId ≠ [] → holds w filePath content →
  ∃ w', markTaskComplete filePath taskId w = (inr tt, w')
        ∧ holds w' filePath (markContent taskId content)
        ∧ (∀ other, other ≠ filePath → files w' !! other = files w !! other)
        ∧ unreadable w' = unreadable w ∧ unwritable w' = unwritable w
        ∧ clock w' = clock w.
Proof.
  intros Hp Hid Hh. eexists. split; [by apply markTaskComplete_run|].
  destruct Hh as (_ & Hr & Hw). unfold holds. simpl. repeat split; try done.
  - by rewrite lookup_insert_eq.
  - intros other Hne. by rewrite lookup_insert_ne.
Qed.

(** X1.  Marking is idempotent: a second run of markTaskComplete with the
    same id, after a first that returned, returns as well and writes back
    the very document the first one left. *)
Theorem markTaskComplete_twice w filePath taskId content :
  filePath ≠ [] → trim taskId ≠ [] → holds w filePath content →
  ∃ w1 w2 content1,
    markTaskComplete filePath taskId w = (inr tt, w1)
    ∧ files w1 !! filePath = Some content1
    ∧ markTaskComplete filePath taskId w1 = (inr tt, w2)
    ∧ files w2 !! filePath = Some content1.
Proof.
  intros Hp Hid Hh.
  destruct (markTaskComplete_leaves _ _ _ _ Hp Hid Hh)
    as (w1 & Hrun1 & Hh1 & _).
  destruct (markTaskComplete_leaves _ _ _ _ Hp Hid Hh1)
    as (w2 & Hrun2 & Hh2 & _).
  exists w1, w2, (markContent taskId content).
  rewrite markContent_idem in Hh2.
  split; [done|]. split; [apply Hh1|]. split; [done|apply Hh2].
Qed.

Lemma markTaskComplete_twice_witness :
  ∃ w1 w2 content1,
    markTaskComplete (js "tasks.md") (js "T001")
      (oneFile (js "tasks.md") checklist) = (inr tt, w1)
    ∧ files w1 !! js "tasks.md" = Some content1
    ∧ markTaskComplete (js "tasks.md") (js "T001") w1 = (inr tt, w2)
    ∧ files w2 !! js "tasks.md" = Some content1.
Proof.
  apply (markTaskComplete_twice (oneFile (js "tasks.md") checklist)
           (js "tasks.md") (js "T001") checklist).
  - discriminate.
  - vm_compute. discriminate.
  - apply oneFile_holds.
Defined.

(** X2.  markTaskComplete keeps the size of the document: the text written
    back has the length and the number of lines of the text read. *)
Theorem markTaskComplete_same_size w filePath taskId content :
  filePath ≠ [] → trim taskId ≠ [] → holds w filePath content →
  ∃ w' content',
    markTaskComplete filePath taskId w = (inr tt, w')
    ∧ files w' !! filePath = Some content'
    ∧ length content' = length content
    ∧ length (split LF content') = length (split LF content).
Proof.
  intros Hp Hid Hh.
  destruct (markTaskComplete_written _ _ _ _ Hp Hid Hh) as (w' & Hrun & Hf).
  exists w', (markContent taskId content). split; [done|]. split; [done|].
  split.
  - unfold markContent. rewrite length_join_map by apply markLine_length.
    by rewrite join_split.
  - by rewrite markContent_lines, length_map.
Qed.

Lemma markTaskComplete_same_size_witness :
  ∃ w' content',
    markTaskComplete (js "tasks.md") (js "T003")
      (oneFile (js "tasks.md") checklist) = (inr tt, w')
    ∧ files w' !! js "tasks.md" = Some content'
    ∧ length content' = length checklist
    ∧ length (split LF content') = length (split LF checklist).
Proof.
  apply (markTaskComplete_same_size (oneFile (js "tasks.md") checklist)
           (js "tasks.md") (js "T003") checklist).
  - discriminate.
  - vm_compute. discriminate.
  - apply oneFile_holds.
Defined.

End MarkTwice.

(** ** Reading a marked checklist *)

Section Reparse.

Implicit Types (w : World) (filePath taskId content line : str).
Implicit Types (t : Task).

Lemma box_not_bracket c : isBox c = true → (91 =? c) = false ∧ (80 =? c) = false.
Proof.
  intros H. split; apply N.eqb_neq; intros <-; vm_compute in H; done.
Qed.

Lemma includes_skip p a s :
  startsWith p (a :: s) = false → includes p (a :: s) = includes p s.
Proof.
  intros H.
  change (includes p (a :: s)) with (startsWith p (a :: s) || includes p s).
  by rewrite H.
Qed.

Lemma startsWith_cons a p b s :
  startsWith (a :: p) (b :: s) = (a =? b) && startsWith p s.
Proof. done. Qed.

(** The text of a task line up to its checkbox character holds no [[P]]. *)
Lemma includes_tagP_box ws c rest :
  forallb isSpace ws = true → isBox c = true →
  includes (js "[P]") (js "-" ++ ws ++ js "[" ++ c :: rest)
  = includes (js "[P]") rest.
Proof.
  intros Hws Hc. destruct (box_not_bracket _ Hc) as [H91 H80]. js_norm.
  cbn [app]. rewrite includes_skip by done.
  induction ws as [|a ws IH].
  - cbn [app]. rewrite includes_skip by (by rewrite !startsWith_cons, H80).
    apply includes_skip. by rewrite startsWith_cons, H91.
  - simpl in Hws. apply andb_true_iff in Hws as [Ha Hws]. cbn [app].
    rewrite includes_skip; [by apply IH|].
    rewrite startsWith_cons, N.eqb_sym, (space_not a 91); done.
Qed.

(** A line that is marked starts with a hyphen, as it did. *)
Lemma phaseRe_markLine taskId line :
  exec phaseRe (markLine taskId line) = exec phaseRe line.
Proof.
  destruct (isTarget taskId line) eqn:E; [|by rewrite markLine_other].
  destruct (markLine_target _ _ E) as (ws & c & post & -> & -> & _).
  by rewrite !exec_phaseRe_head.
Qed.

(** The record read from a marked line is the record read from the line,
    finished when the line was a target. *)
Lemma mkTask_markLine taskId line currentPhase :
  match exec taskRe line with
  | Some m =>
      ∃ m', exec taskRe (markLine taskId line) = Some m'
            ∧ mkTask (markLine taskId line) currentPhase m'
              = if isTarget taskId line
                then finished (mkTask line currentPhase m)
                else mkTask line currentPhase m
  | None => exec taskRe (markLine taskId line) = None
  end.
Proof.
  destruct (isTarget taskId line) eqn:E.
  - destruct (markLine_target _ _ E) as (ws & c & post & -> & -> & Hws & Hc & _).
    rewrite !exec_taskRe by done. rewrite Hc. change (isBox 88) with true.
    cbv iota. destruct (exec taskRest (js "]" ++ post)) as [m|]; [|done].
    eexists. split; [reflexivity|].
    apply plus_elim in Hws as [_ Hws].
    unfold mkTask, finished.
    rewrite !(includes_tagP_box ws) by done. reflexivity.
  - rewrite markLine_other by done. destruct (exec taskRe line); eauto.
Qed.

Lemma parseLoop_marked taskId lines currentPhase acc acc' :
  Forall2 marked acc acc' →
  Forall2 marked (parseLoop lines currentPhase acc)
    (parseLoop (map (markLine taskId) lines) currentPhase acc').
Proof.
  revert currentPhase acc acc'.
  induction lines as [|line rest IH]; intros currentPhase acc acc' Hacc; [done|].
  cbn [parseLoop map]. rewrite phaseRe_markLine.
  destruct (exec phaseRe line); [by apply IH|].
  pose proof (mkTask_markLine taskId line currentPhase) as H.
  destruct (exec taskRe line) as [m|].
  - destruct H as (m' & -> & ->). apply IH, Forall2_app; [done|].
    constructor; [|done]. destruct (isTarget taskId line); [by right|by left].
  - rewrite H. by apply IH.
Qed.

(** X3.  Reading the checklist, marking a task and reading again gives the
    same records in the same order, each one as it was or with its
    completion flag set: marking adds and removes no task, changes no id,
    description, phase, parallel flag or story, and never clears a flag. *)
Theorem markTaskComplete_keeps_records w filePath taskId content :
  filePath ≠ [] → trim taskId ≠ [] → holds w filePath content →
  ∃ before after w0 w1 w2,
    parseTasksMd filePath w = (inr before, w0)
    ∧ markTaskComplete filePath taskId w0 = (inr tt, w1)
    ∧ parseTasksMd filePath w1 = (inr after, w2)
    ∧ Forall2 marked before after.
Proof.
  intros Hp Hid Hh.
  assert (readable w filePath content) as Hr by (split; apply Hh).
  assert (holds (logged (Read filePath) w) filePath content) as Hh0 by done.
  destruct (markTaskComplete_leaves _ _ _ _ Hp Hid Hh0)
    as (w1 & Hrun & Hh1 & _).
  exists (parseContent content), (parseContent (markContent taskId content)),
    (logged (Read filePath) w), w1, (logged (Read filePath) w1).
  split; [by apply parseTasksMd_run|]. split; [done|].
  split; [apply parseTasksMd_run; [done|split; apply Hh1]|].
  unfold parseContent. rewrite markContent_lines. by apply parseLoop_marked.
Qed.

Lemma markTaskComplete_keeps_records_witness :
  ∃ before after w0 w1 w2,
    parseTasksMd (js "tasks.md") (oneFile (js "tasks.md") checklist)
    = (inr before, w0)
    ∧ markTaskComplete (js "tasks.md") (js "T001") w0 = (inr tt, w1)
    ∧ parseTasksMd (js "tasks.md") w1 = (inr after, w2)
    ∧ Forall2 marked before after.
Proof.
  apply (markTaskComplete_keeps_records (oneFile (js "tasks.md") checklist)
           (js "tasks.md") (js "T001") checklist).
  - discriminate.
  - vm_compute. discriminate.
  - apply oneFile_holds.
Defined.

End Reparse.

(** ** What the records say about the lines *)

Section Records.

Implicit Types (w : World) (filePath taskId content line : str).
Implicit Types (t : Task).

(** A property of every record made from a line of the document holds of
    every record of the result. *)
Lemma parseLoop_Forall (P : Task → Prop) lines currentPhase acc :
  (∀ line ph m, line ∈ lines → exec taskRe line = Some m →
                P (mkTask line ph m)) →
  Forall P acc → Forall P (parseLoop lines currentPhase acc).
Proof.
  revert currentPhase acc.
  induction lines as [|line rest IH]; intros currentPhase acc HP Hacc; [done|].
  cbn [parseLoop].
  assert (∀ line ph m, line ∈ rest → exec taskRe line = Some m →
                       P (mkTask line ph m)) as HP'.
  { intros l ph m Hl. apply HP. by right. }
  destruct (exec phaseRe line); [by apply IH|].
  destruct (exec taskRe line) as [m|] eqn:E; [|by apply IH].
  apply IH; [done|]. apply Forall_app. split; [done|].
  constructor; [|done]. apply HP; [by left|done].
Qed.

Lemma join_elem_of sep (ls : list str) l c : l ∈ ls → c ∈ l → c ∈ join sep ls.
Proof.
  induction ls as [|l' [|l'' ls] IH]; intros Hl Hc.
  - by apply elem_of_nil in Hl.
  - apply list_elem_of_singleton in Hl as ->. done.
  - change (c ∈ l' ++ sep :: join sep (l'' :: ls)).
    apply elem_of_cons in Hl as [->|Hl].
    + apply elem_of_app. by left.
    + apply elem_of_app. right. right. by apply IH.
Qed.

(** A line of a text whose only line terminators are line feeds holds
    none. *)
Lemma plainLines_line content line :
  plainLines content = true → line ∈ split LF content →
  forallb isDot line = true.
Proof.
  intros Hc Hl. apply forallb_forall. intros c Hin%list_elem_of_In.
  assert (c ∈ content) as Hcc.
  { rewrite <- (join_split LF content). by apply (join_elem_of _ _ line). }
  unfold plainLines in Hc. rewrite forallb_forall in Hc.
  apply list_elem_of_In, Hc in Hcc. apply orb_true_iff in Hcc as [|Heq]; [done|].
  apply N.eqb_eq in Heq as ->.
  pose proof (split_lineOk LF content) as Hok.
  rewrite Forall_forall in Hok. by destruct (Hok _ Hl).
Qed.

(** The record read from a marked line whose id is the target is
    complete. *)
Lemma mkTask_target_completed taskId line currentPhase m' :
  forallb isDot line = true →
  exec taskRe (markLine taskId line) = Some m' →
  id (mkTask (markLine taskId line) currentPhase m') = taskId →
  completed (mkTask (markLine taskId line) currentPhase m') = true.
Proof.
  intros Hdot Hm' Hid.
  assert (taskIdOf line = Some taskId) as Hline.
  { rewrite <- (taskIdOf_markLine taskId). unfold taskIdOf. by rewrite Hm', <- Hid. }
  pose proof (isTarget_task_line _ taskId _ Hline Hdot) as Ht.
  rewrite bool_decide_eq_true_2 in Ht by done.
  pose proof (mkTask_markLine taskId line currentPhase) as H.
  unfold taskIdOf in Hline. destruct (exec taskRe line) as [m|]; [|done].
  destruct H as (m'' & Hm'' & Heq). rewrite Hm' in Hm''. injection Hm'' as <-.
  by rewrite Heq, Ht.
Qed.

(** X4.  After markTaskComplete has returned on a checklist whose line
    ends are line feeds, getIncompleteTasks returns no task with the
    marked id. *)
Theorem markTaskComplete_not_incomplete w filePath taskId content :
  filePath ≠ [] → trim taskId ≠ [] → holds w filePath content →
  plainLines content = true →
  ∃ w1 w2 incomplete,
    markTaskComplete filePath taskId w = (inr tt, w1)
    ∧ getIncompleteTasks filePath w1 = (inr incomplete, w2)
    ∧ ∀ t, t ∈ incomplete → id t ≠ taskId.
Proof.
  intros Hp Hid Hh Hplain.
  destruct (markTaskComplete_leaves _ _ _ _ Hp Hid Hh)
    as (w1 & Hrun & Hh1 & _).
  exists w1, (logged (Read filePath) w1),
    (filter (λ task, negb (completed task) = true)
            (parseContent (markContent taskId content))).
  split; [done|]. split.
  - unfold getIncompleteTasks. destruct filePath; [done|]. cbn [falsy].
    unfold bind. rewrite (parseTasksMd_run _ _ (markContent taskId content));
      [done|done|split; apply Hh1].
  - intros t [Hnot Hin]%list_elem_of_filter Heq.
    assert (Forall (λ t, id t = taskId → completed t = true)
              (parseContent (markContent taskId content))) as Hall.
    { unfold parseContent. rewrite markContent_lines.
      apply parseLoop_Forall; [|done].
      intros line ph m (l & -> & Hl)%list_elem_of_fmap Hm.
      apply mkTask_target_completed; [|done].
      by apply (plainLines_line content). }
    rewrite Forall_forall in Hall. rewrite (Hall _ Hin Heq) in Hnot. done.
Qed.

Lemma markTaskComplete_not_incomplete_witness :
  ∃ w1 w2 incomplete,
    markTaskComplete (js "tasks.md") (js "T001")
      (oneFile (js "tasks.md") checklist) = (inr tt, w1)
    ∧ getIncompleteTasks (js "tasks.md") w1 = (inr incomplete, w2)
    ∧ ∀ t, t ∈ incomplete → id t ≠ js "T001".
Proof.
  apply (markTaskComplete_not_incomplete (oneFile (js "tasks.md") checklist)
           (js "tasks.md") (js "T001") checklist).
  - discriminate.
  - vm_compute. discriminate.
  - apply oneFile_holds.
  - reflexivity.
Defined.

(** X5.  Every record parseTasksMd returns decodes a line of the file: the
    line is a hyphen, white space, a checkbox, white space, [T] and digits
    and more text that does not go on with a digit; the record's id is
    that [T] with all its digits and nothing else, its completion flag
    says whether the checkbox holds [x] or [X], and its parallel flag
    whether the line holds [[P]] anywhere. *)
Theorem parseTasksMd_decodes w filePath content :
  filePath ≠ [] → readable w filePath content →
  ∃ parsed w',
    parseTasksMd filePath w = (inr parsed, w')
    ∧ ∀ t, t ∈ parsed →
        ∃ line ws c ws' ds rest,
          line ∈ split LF content
          ∧ line = js "-" ++ ws ++ js "[" ++ c :: js "]" ++ ws' ++ js "T"
                   ++ ds ++ rest
          ∧ plus isSpace ws = true ∧ plus isSpace ws' = true
          ∧ plus isDigit ds = true ∧ rest ≠ [] ∧ stops isDigit rest = true
          ∧ id t = js "T" ++ ds
          ∧ completed t = (c =? 120) || (c =? 88)
          ∧ parallel t = includes (js "[P]") line.
Proof.
  intros Hp Hr. exists (parseContent content), (logged (Read filePath) w).
  split; [by apply parseTasksMd_run|].
  apply Forall_forall. unfold parseContent. apply parseLoop_Forall; [|done].
  intros line ph m Hl Hm.
  destruct (taskRe_sound _ _ Hm)
    as (ws & c & ws' & ds & rest & Hline & Hws & Hc & Hws' & Hds & Hrest
        & Hstop & Hg).
  exists line, ws, c, ws', ds, rest. repeat split; try done.
  - unfold mkTask. cbn [id]. rewrite Hg. apply trim_keeps.
    apply plus_elim in Hds as [_ Hds]. apply digits_noSpace in Hds.
    js_norm. unfold noSpace in *. cbn [app forallb]. by rewrite Hds.
  - subst line. rewrite exec_taskRe, Hc in Hm by done.
    destruct (exec taskRest _); [|done]. by injection Hm as <-.
Qed.

Lemma parseTasksMd_decodes_witness :
  ∃ parsed w',
    parseTasksMd (js "tasks.md") (oneFile (js "tasks.md") checklist)
    = (inr parsed, w')
    ∧ ∀ t, t ∈ parsed →
        ∃ line ws c ws' ds rest,
          line ∈ split LF checklist
          ∧ line = js "-" ++ ws ++ js "[" ++ c :: js "]" ++ ws' ++ js "T"
                   ++ ds ++ rest
          ∧ plus isSpace ws = true ∧ plus isSpace ws' = true
          ∧ plus isDigit ds = true ∧ rest ≠ [] ∧ stops isDigit rest = true
          ∧ id t = js "T" ++ ds
          ∧ completed t = (c =? 120) || (c =? 88)
          ∧ parallel t = includes (js "[P]") line.
Proof.
  apply (parseTasksMd_decodes (oneFile (js "tasks.md") checklist)
           (js "tasks.md") checklist).
  - discriminate.
  - apply oneFile_readable.
Defined.

End Records.

(** ** Line ends *)

Section LineEnds.

Implicit Types (w : World) (filePath taskId content line : str).

(** What a pattern that ends with a group of one or more [p]-characters
    reads ends with a [p]-character. *)
Lemma matches_seq_last rs i p s c :
  matches (seq (rs ++ [Grp i (Plus p)])) s c →
  ∃ pre x, s = pre ++ x ∧ x ≠ [] ∧ forallb p x = true.
Proof.
  revert s c. induction rs as [|r rs IH]; intros s c H.
  - cbn in H.
    inversion H as [| | | |r1 r2 w1 w2 c1 c2 H1 H2| | |]; subst.
    inversion H2; subst.
    inversion H1 as [| | | | | | |i' r' w' c' H3]; subst.
    inversion H3 as [| | |p' w'' Hne Hall| | | |]; subst.
    exists [], w1. by rewrite app_nil_r.
  - change (seq ((r :: rs) ++ [Grp i (Plus p)]))
      with (Seq r (seq (rs ++ [Grp i (Plus p)]))) in H.
    inversion H as [| | | |r1 r2 w1 w2 c1 c2 H1 H2| | |]; subst.
    destruct (IH _ _ H2) as (pre & x & -> & Hx & Hp).
    exists (w1 ++ pre), x. by rewrite app_assoc.
Qed.

Lemma exec_endsLine rs i line :
  endsLine line = true → exec (seq (rs ++ [Grp i (Plus isDot)])) line = None.
Proof.
  intros Hend. destruct (exec _ line) as [m|] eqn:E; [|done].
  apply exec_matches, matches_seq_last in E as (pre & x & -> & Hx & Hp).
  destruct (last x) as [c|] eqn:El; [|by apply last_is_Some in Hx as [? ?]; congruence].
  unfold endsLine in Hend. rewrite last_app, El in Hend.
  apply last_Some_elem_of, list_elem_of_In in El.
  rewrite forallb_forall in Hp. apply Hp in El. unfold isDot in El.
  by rewrite Hend in El.
Qed.

Lemma taskRe_ends : ∃ rs, taskRe = seq (rs ++ [Grp 4 (Plus isDot)]).
Proof. by exists (removelast (taskHead ++ taskTail)). Qed.

Lemma phaseRe_ends : ∃ rs, phaseRe = seq (rs ++ [Grp 1 (Plus isDot)]).
Proof.
  by exists (lit "##" ++ [Plus isSpace] ++ litI "Phase" ++
             [Plus isSpace; Plus isDigit;
              Plus (fun c => (c =? 58) || isSpace c)]).
Qed.

Lemma markRe_ends : ∃ rs, markRe = seq (rs ++ [Grp 5 (Plus isDot)]).
Proof.
  by exists [Grp 1 (seq (lit "-" ++ [Plus isSpace] ++ lit "["));
             Grp 2 (Cls isBox);
             Grp 3 (seq (lit "]" ++ [Plus isSpace]));
             Grp 4 (seq (lit "T" ++ [Plus isDigit]))].
Qed.

(** A line that is empty or ends with a line terminator is no task line, no
    heading and no target. *)
Lemma endsLine_no_match taskId line :
  endsLine line = true →
  exec taskRe line = None ∧ exec phaseRe line = None
  ∧ markLine taskId line = line.
Proof.
  intros H. destruct taskRe_ends as [rs1 ->], phaseRe_ends as [rs2 ->].
  split; [by apply exec_endsLine|]. split; [by apply exec_endsLine|].
  unfold markLine. destruct markRe_ends as [rs3 ->].
  by rewrite exec_endsLine.
Qed.

Lemma parseLoop_endsLine lines currentPhase acc :
  Forall (λ line, endsLine line = true) lines →
  parseLoop lines currentPhase acc = acc.
Proof.
  intros H. revert currentPhase acc.
  induction H as [|line rest Hl _ IH]; intros currentPhase acc; [done|].
  cbn [parseLoop].
  destruct (endsLine_no_match [] line Hl) as (-> & -> & _). apply IH.
Qed.

(** X6.  A checklist whose lines all end with a carriage return (a file
    with CR LF line ends) or another line terminator, or are empty, has no
    task for the parser and no target for the mutator: parseTasksMd returns
    the empty list and markTaskComplete writes the text back as it was. *)
Theorem line_terminators_hide_tasks w filePath taskId content :
  filePath ≠ [] → trim taskId ≠ [] → holds w filePath content →
  Forall (λ line, endsLine line = true) (split LF content) →
  ∃ w1 w2,
    parseTasksMd filePath w = (inr [], w1)
    ∧ markTaskComplete filePath taskId w = (inr tt, w2)
    ∧ files w2 !! filePath = Some content.
Proof.
  intros Hp Hid Hh Hends.
  exists (logged (Read filePath) w).
  destruct (markTaskComplete_leaves _ _ _ _ Hp Hid Hh) as (w2 & Hrun & Hh2 & _).
  exists w2. split.
  - rewrite (parseTasksMd_run _ _ content); [|done|split; apply Hh].
    unfold parseContent. by rewrite parseLoop_endsLine.
  - split; [done|]. destruct Hh2 as [-> _]. f_equal.
    unfold markContent. rewrite <- (join_split LF content) at 2. f_equal.
    rewrite <- (map_id (split LF content)) at 2.
    apply Forall_fmap_ext_1. eapply Forall_impl; [exact Hends|].
    intros line Hl. by destruct (endsLine_no_match taskId line Hl) as (_ & _ & ->).
Qed.

Lemma line_terminators_hide_tasks_witness :
  ∃ w1 w2,
    parseTasksMd (js "tasks.md")
      (oneFile (js "tasks.md")
         (js "- [ ] T001 Setup" ++ [13; 10] ++ js "- [x] T002 Build" ++ [13; 10]))
    = (inr [], w1)
    ∧ markTaskComplete (js "tasks.md") (js "T001")
        (oneFile (js "tasks.md")
           (js "- [ ] T001 Setup" ++ [13; 10] ++ js "- [x] T002 Build"
            ++ [13; 10]))
      = (inr tt, w2)
    ∧ files w2 !! js "tasks.md"
      = Some (js "- [ ] T001 Setup" ++ [13; 10] ++ js "- [x] T002 Build"
              ++ [13; 10]).
Proof.
  apply (line_terminators_hide_tasks
           (oneFile (js "tasks.md")
              (js "- [ ] T001 Setup" ++ [13; 10] ++ js "- [x] T002 Build"
               ++ [13; 10]))
           (js "tasks.md") (js "T001")).
  - discriminate.
  - vm_compute. discriminate.
  - apply oneFile_holds.
  - vm_compute. repeat constructor.
Defined.

End LineEnds.

(** ** Failures and other files *)

Section Frame.

Implicit Types (w : World) (filePath taskId content line : str).

(** X7.  markTaskComplete changes no file but the checklist, whatever it
    returns, and when it throws, for a missing argument, a file it cannot
    read or a file it cannot write, it has changed no file at all. *)
Theorem markTaskComplete_frame w filePath taskId result w' :
  markTaskComplete filePath taskId w = (result, w') →
  (∀ other, other ≠ filePath → files w' !! other = files w !! other)
  ∧ (∀ e, result = inl e → files w' = files w).
Proof.
  unfold markTaskComplete. destruct (falsy filePath).
  { intros [= <- <-]. done. }
  destruct (falsy taskId || falsy (trim taskId)).
  { intros [= <- <-]. done. }
  unfold bind, readFile, writeFile.
  destruct (files w !! filePath) as [content|]; [|by intros [= <- <-]].
  destruct (decide (filePath ∈ unreadable w)); [by intros [= <- <-]|].
  cbn [unwritable logged].
  destruct (decide (filePath ∈ unwritable w)); intros [= <- <-]; [done|].
  split; [|done]. intros other Hne. simpl. by rewrite lookup_insert_ne.
Qed.

Lemma markTaskComplete_frame_witness :
  (∀ other, other ≠ js "tasks.md" →
            files (markTaskComplete (js "tasks.md") (js "T001")
                     (oneFile (js "tasks.md") checklist)).2 !! other
            = files (oneFile (js "tasks.md") checklist) !! other)
  ∧ (∀ e, (markTaskComplete (js "tasks.md") (js "T001")
             (oneFile (js "tasks.md") checklist)).1 = inl e →
          files (markTaskComplete (js "tasks.md") (js "T001")
                   (oneFile (js "tasks.md") checklist)).2
          = files (oneFile (js "tasks.md") checklist)).
Proof.
  apply (markTaskComplete_frame (oneFile (js "tasks.md") checklist)
           (js "tasks.md") (js "T001")).
  apply surjective_pairing.
Defined.

Lemma markTaskComplete_absent w filePath taskId :
  filePath ≠ [] → trim taskId ≠ [] → files w !! filePath = None →
  ∃ w', markTaskComplete filePath taskId w = (inl (ReadFailed filePath), w')
        ∧ files w' = files w.
Proof.
  intros Hp Hid Hnone. unfold markTaskComplete.
  destruct filePath; [done|]. cbn [falsy].
  destruct taskId as [|a taskId]; [done|]. cbn [falsy orb].
  destruct (trim (a :: taskId)); [done|]. cbn [falsy].
  unfold bind, readFile. rewrite Hnone. eauto.
Qed.

(** X8.  A checklist that is missing is not created: markTaskComplete
    with a path that names no file throws the read failure and leaves the
    path without a file. *)
Theorem markTaskComplete_missing w filePath taskId :
  filePath ≠ [] → trim taskId ≠ [] → files w !! filePath = None →
  ∃ w', markTaskComplete filePath taskId w = (inl (ReadFailed filePath), w')
        ∧ files w' !! filePath = None.
Proof.
  intros Hp Hid Hnone.
  destruct (markTaskComplete_absent w filePath taskId Hp Hid Hnone)
    as (w' & Hrun & Hf).
  exists w'. by rewrite Hf.
Qed.

Lemma markTaskComplete_missing_witness :
  ∃ w', markTaskComplete (js "tasks.md") (js "T001") noFiles
        = (inl (ReadFailed (js "tasks.md")), w')
        ∧ files w' !! js "tasks.md" = None.
Proof.
  apply (markTaskComplete_missing noFiles (js "tasks.md") (js "T001")).
  - discriminate.
  - vm_compute. discriminate.
  - reflexivity.
Defined.

(** X9.  parseTasksMd and getIncompleteTasks only read: whatever they
    return or throw, files, permissions and clock are as before, and
    getIncompleteTasks returns, in the order of parseTasksMd, the records
    whose completion flag is not set. *)
Theorem getIncompleteTasks_reads w filePath :
  ∃ w',
    sameFiles w w'
    ∧ match parseTasksMd filePath w with
      | (inr parsed, w1) =>
          sameFiles w w1
          ∧ getIncompleteTasks filePath w
            = (inr (filter (λ t, completed t = false) parsed), w')
      | (inl e, w1) =>
          sameFiles w w1 ∧ getIncompleteTasks filePath w = (inl e, w')
      end.
Proof.
  unfold getIncompleteTasks, parseTasksMd. destruct (falsy filePath).
  { exists w. by repeat split. }
  unfold bind, readFile, ret.
  exists (logged (Read filePath) w).
  destruct (files w !! filePath) as [content|]; [|by repeat split].
  destruct (decide (filePath ∈ unreadable w)); [by repeat split|].
  repeat split. f_equal. f_equal.
  apply list_filter_iff. intros t. by destruct (completed t).
Qed.

End Frame.

(** ** Longer checklists *)

Section Append.

Implicit Types (w : World) (filePath content more line : str).

Lemma split_app sep (s more : str) :
  split sep (s ++ sep :: more) = split sep s ++ split sep more.
Proof.
  induction s as [|c s IH]; cbn [app split].
  - by rewrite N.eqb_refl.
  - rewrite IH. destruct (c =? sep); [done|].
    pose proof (split_nonempty sep s) as Hne.
    by destruct (split sep s).
Qed.

Lemma parseLoop_app (before after : list str) currentPhase acc :
  parseLoop (before ++ after) currentPhase acc
  = parseLoop after (phaseFrom currentPhase before)
      (parseLoop before currentPhase acc).
Proof.
  revert currentPhase acc.
  induction before as [|line rest IH]; intros currentPhase acc; [done|].
  cbn [app parseLoop]. rewrite phaseFrom_cons. unfold phaseTitle.
  destruct (exec phaseRe line); [apply IH|].
  destruct (exec taskRe line); apply IH.
Qed.

Lemma parseLoop_acc (lines : list str) currentPhase acc :
  parseLoop lines currentPhase acc = acc ++ parseLoop lines currentPhase [].
Proof. by rewrite (parseLoop_spec _ _ acc), (parseLoop_spec _ _ []). Qed.

(** X10.  Text appended to a checklist after a line feed changes no record
    already there: the longer file reads as the records of the shorter,
    followed by the records of the added lines, which start in the phase
    of the last heading of the shorter file. *)
Theorem parseTasksMd_appended w w' filePath content more :
  filePath ≠ [] →
  readable w filePath content →
  readable w' filePath (content ++ LF :: more) →
  ∃ shorter w1 w1',
    parseTasksMd filePath w = (inr shorter, w1)
    ∧ parseTasksMd filePath w'
      = (inr (shorter ++ parseLoop (split LF more)
                           (nearestPhase (split LF content)) []), w1').
Proof.
  intros Hp Hr Hr'.
  exists (parseContent content), (logged (Read filePath) w),
    (logged (Read filePath) w').
  rewrite (parseTasksMd_run w _ content), (parseTasksMd_run w' _ _ Hp Hr') by done.
  split; [done|]. do 2 f_equal. unfold parseContent, nearestPhase.
  by rewrite split_app, parseLoop_app, parseLoop_acc.
Qed.

Lemma parseTasksMd_appended_witness :
  ∃ shorter w1 w1',
    parseTasksMd (js "tasks.md") (oneFile (js "tasks.md") checklist)
    = (inr shorter, w1)
    ∧ parseTasksMd (js "tasks.md")
        (oneFile (js "tasks.md") (checklist ++ LF :: js "- [ ] T004 More"))
      = (inr (shorter ++ parseLoop (split LF (js "- [ ] T004 More"))
                           (nearestPhase (split LF checklist)) []), w1').
Proof.
  apply (parseTasksMd_appended (oneFile (js "tasks.md") checklist)
           (oneFile (js "tasks.md") (checklist ++ LF :: js "- [ ] T004 More"))
           (js "tasks.md") checklist (js "- [ ] T004 More")).
  - discriminate.
  - apply oneFile_readable.
  - apply oneFile_readable.
Defined.

End Append.

(** * Further properties of the workflow state store *)

Section StoreMore.

Variable path_join : str → str → str.
Variable JSON_stringify : WorkflowState → str.
Variable JSON_parse : str → option WorkflowState.

Implicit Types (w : World) (dir : str) (st old : WorkflowState)
  (step : Step) (stepData : gmap str json).

Local Abbreviation get := (getWorkflowState path_join JSON_parse).
Local Abbreviation put := (setWorkflowState path_join JSON_stringify).
Local Abbreviation init := (initWorkflowState path_join JSON_stringify).
Local Abbreviation update :=
  (updateWorkflowState path_join JSON_stringify JSON_parse).
Local Abbreviation statePath := (State.statePath path_join).
Local Abbreviation found := (State.found path_join JSON_parse).
Local Abbreviation consistent := (State.consistent path_join JSON_parse).
Local Abbreviation base := (State.base path_join JSON_parse).

(** X11.  What setWorkflowState stores, getWorkflowState returns: after a
    write that returned, a read of the directory the state names gives the
    state back, when its file can be read and [JSON.parse] undoes
    [JSON.stringify] on it. *)
Theorem setWorkflowState_then_get w st :
  statePath (featureDir st) ∉ unwritable w →
  statePath (featureDir st) ∉ unreadable w →
  JSON_parse (JSON_stringify st) = Some st →
  ∃ w1 w2, put st w = (inr tt, w1)
           ∧ get (featureDir st) w1 = (inr (Some st), w2).
Proof.
  intros Hw Hr Hback.
  destruct (setWorkflowState_run path_join JSON_stringify w st Hw)
    as (w1 & Hput & Hf1 & Hr1 & _).
  destruct (getWorkflowState_run path_join JSON_parse w1 (featureDir st))
    as (w2 & Hget & _).
  exists w1, w2. split; [done|]. rewrite Hget. do 2 f_equal.
  apply (found_written path_join JSON_stringify JSON_parse); [|by rewrite Hr1|done].
  by rewrite Hf1, lookup_insert_eq.
Qed.

(** X12.  initWorkflowState starts over: whatever the state file of the
    directory held, the call returns a state at the step [specify] with no
    step status, the given description and the time of the call, and a
    read of the directory finds that state. *)
Theorem initWorkflowState_resets w dir description :
  statePath dir ∉ unwritable w → statePath dir ∉ unreadable w →
  JSON_parse (JSON_stringify (initial dir description (clock w)))
  = Some (initial dir description (clock w)) →
  ∃ st w1 w2,
    init dir description w = (inr st, w1)
    ∧ featureDir st = dir ∧ currentStep st = specify ∧ stepStatus st = ∅
    ∧ metadata st = {| startedAt := Some (clock w); completedAt := None;
                       featureDescription := Some description |}
    ∧ get dir w1 = (inr (Some st), w2).
Proof.
  intros Hw Hr Hback.
  destruct (initWorkflowState_run path_join JSON_stringify w dir description Hw)
    as (w1 & Hinit & Hf1 & Hr1 & _).
  destruct (getWorkflowState_run path_join JSON_parse w1 dir)
    as (w2 & Hget & _).
  exists (initial dir description (clock w)), w1, w2.
  repeat split; [done|]. rewrite Hget. do 2 f_equal.
  apply (found_written path_join JSON_stringify JSON_parse w1 (initial dir description (clock w)));
    [|by rewrite Hr1|done].
  by rewrite Hf1, lookup_insert_eq.
Qed.

(** X13.  An update of a directory in which no state is found, because the
    state file is missing, cannot be read or does not parse, does not
    fail: it starts a new state with the empty description, so the state
    returned has the one step status of this update and nothing of what
    the file held. *)
Theorem updateWorkflowState_fresh w dir step stepData :
  found w dir = None → statePath dir ∉ unwritable w →
  ∃ st w',
    update dir step stepData w = (inr st, w')
    ∧ featureDir st = dir ∧ currentStep st = step
    ∧ stepStatus st
      = {[ step := <[js "completed" := JBool true]> stepData ]}
    ∧ metadata st = {| startedAt := Some (clock w); completedAt := None;
                       featureDescription := Some [] |}
    ∧ files w' !! statePath dir = Some (JSON_stringify st).
Proof.
  intros Hnone Hw.
  destruct (updateWorkflowState_to path_join JSON_stringify JSON_parse w dir step stepData)
    as (w' & Hrun & Hf & _).
  { unfold State.base. by rewrite Hnone. }
  unfold State.base in *. rewrite Hnone in *. simpl in Hrun, Hf.
  eexists _, w'. split; [exact Hrun|]. repeat split.
  - simpl. unfold mergeStep. rewrite lookup_empty. simpl.
    by rewrite (right_id ∅ (∪)), insert_empty.
  - by rewrite Hf, lookup_insert_eq.
Qed.

(** X14.  An update touches one step only: the state returned has the
    directory, the metadata and the status of every other step of the
    state found. *)
Theorem updateWorkflowState_other_steps w dir step stepData old :
  found w dir = Some old → statePath (featureDir old) ∉ unwritable w →
  ∃ st w',
    update dir step stepData w = (inr st, w')
    ∧ featureDir st = featureDir old ∧ metadata st = metadata old
    ∧ ∀ other, other ≠ step →
               stepStatus st !! other = stepStatus old !! other.
Proof.
  intros Hold Hw.
  destruct (updateWorkflowState_to path_join JSON_stringify JSON_parse w dir step stepData) as (w' & Hrun & _).
  { unfold State.base. by rewrite Hold. }
  unfold State.base in Hrun. rewrite Hold in Hrun. simpl in Hrun.
  eexists _, w'. split; [exact Hrun|]. repeat split.
  intros other Hne. simpl. by rewrite lookup_insert_ne.
Qed.

(** X15.  An update that cannot write fails as a whole: when the file of
    the state it starts from cannot be written, updateWorkflowState throws
    the write failure, no file has changed, and a read of the directory
    finds what it found before. *)
Theorem updateWorkflowState_unwritable w dir step stepData :
  statePath (featureDir (base w dir)) ∈ unwritable w →
  ∃ w' w'',
    update dir step stepData w
    = (inl (WriteFailed (statePath (featureDir (base w dir)))), w')
    ∧ files w' = files w
    ∧ get dir w' = (inr (found w dir), w'').
Proof.
  intros Hw.
  destruct (updateWorkflowState_fails path_join JSON_stringify JSON_parse w dir step stepData Hw)
    as (w' & Hrun & Hf & Hr & _).
  destruct (getWorkflowState_run path_join JSON_parse w' dir)
    as (w'' & Hget & _).
  exists w', w''. split; [done|]. split; [done|].
  rewrite Hget. do 2 f_equal. unfold State.found. by rewrite Hf, Hr.
Qed.

(** X16.  The update goes where the stored state points: when the state
    found in [dir] names another directory, the new state is written to
    the file of that directory, the file of [dir] is as before, and a
    later read of [dir] finds the old state. *)
Theorem updateWorkflowState_follows_featureDir w dir step stepData old :
  found w dir = Some old →
  statePath (featureDir old) ≠ statePath dir →
  statePath (featureDir old) ∉ unwritable w →
  ∃ st w' w'',
    update dir step stepData w = (inr st, w')
    ∧ files w' !! statePath (featureDir old) = Some (JSON_stringify st)
    ∧ files w' !! statePath dir = files w !! statePath dir
    ∧ get dir w' = (inr (Some old), w'').
Proof.
  intros Hold Hne Hw.
  destruct (updateWorkflowState_to path_join JSON_stringify JSON_parse w dir step stepData)
    as (w' & Hrun & Hf & Hr & _).
  { unfold State.base. by rewrite Hold. }
  unfold State.base in *. rewrite Hold in *. simpl in Hrun, Hf.
  destruct (getWorkflowState_run path_join JSON_parse w' dir)
    as (w'' & Hget & _).
  eexists _, w', w''. split; [exact Hrun|].
  split; [by rewrite Hf, lookup_insert_eq|].
  assert (files w' !! statePath dir = files w !! statePath dir) as Hsame
    by (by rewrite Hf, lookup_insert_ne).
  split; [done|]. rewrite Hget. do 2 f_equal. rewrite <- Hold.
  unfold State.found. by rewrite Hsame, Hr.
Qed.

Lemma mergeStep_twice (status : option (gmap str json)) stepData :
  mergeStep (Some (mergeStep status stepData)) stepData
  = mergeStep status stepData.
Proof.
  unfold mergeStep. simpl. apply map_eq. intros k.
  destruct (decide (k = js "completed")) as [->|Hne].
  - by rewrite !lookup_insert_eq.
  - rewrite !lookup_insert_ne by done.
    destruct (stepData !! k) as [v|] eqn:E.
    + by rewrite !(lookup_union_Some_l _ _ _ v).
    + rewrite lookup_union_r, lookup_insert_ne by done.
      by rewrite !lookup_union_r.
Qed.

Lemma stepped_twice step stepData st :
  stepped step stepData (stepped step stepData st) = stepped step stepData st.
Proof.
  unfold stepped. simpl. f_equal.
  by rewrite lookup_insert_eq, insert_insert_eq, mergeStep_twice.
Qed.

(** X17.  Updating is idempotent: a second update of the same step with the
    same data, on a consistent store whose file can be read and written
    and reads back as written, returns the state the first returned and
    leaves every file as the first left it. *)
Theorem updateWorkflowState_twice w dir step stepData :
  consistent w dir →
  statePath dir ∉ unwritable w → statePath dir ∉ unreadable w →
  (∀ st w1, update dir step stepData w = (inr st, w1) →
            JSON_parse (JSON_stringify st) = Some st) →
  ∃ st w1 w2,
    update dir step stepData w = (inr st, w1)
    ∧ update dir step stepData w1 = (inr st, w2)
    ∧ files w2 = files w1.
Proof.
  intros Hcons Hw Hr Hback.
  pose proof (base_path path_join JSON_parse w dir Hcons) as Hpath.
  destruct (updateWorkflowState_to path_join JSON_stringify JSON_parse w dir step stepData)
    as (w1 & Hrun1 & Hf1 & Hr1 & Hw1); [by rewrite Hpath|].
  assert (found w1 dir = Some (stepped step stepData (base w dir))) as Hfound.
  { unfold State.found. rewrite Hf1, Hpath, lookup_insert_eq, Hr1.
    rewrite decide_False by done. by apply Hback with w1. }
  assert (base w1 dir = stepped step stepData (base w dir)) as Hbase.
  { unfold State.base at 1. by rewrite Hfound. }
  destruct (updateWorkflowState_to path_join JSON_stringify JSON_parse w1 dir step stepData)
    as (w2 & Hrun2 & Hf2 & _).
  { rewrite Hbase. simpl. by rewrite Hpath, Hw1. }
  rewrite Hfound, !Hbase, stepped_twice in Hf2.
  rewrite !Hbase, stepped_twice in Hrun2.
  eexists _, w1, w2. split; [exact Hrun1|]. split; [exact Hrun2|].
  rewrite Hf2.
  change (featureDir (stepped step stepData (base w dir)))
    with (featureDir (base w dir)).
  rewrite Hf1. apply insert_insert_eq.
Qed.

(** X18.  getWorkflowState never throws and never writes, whatever the
    state file holds; it returns [null] also when the state file is there
    and cannot be read. *)
Theorem getWorkflowState_total w dir :
  ∃ result w',
    get dir w = (inr result, w') ∧ sameFiles w w'
    ∧ (statePath dir ∈ unreadable w → result = None).
Proof.
  destruct (getWorkflowState_run path_join JSON_parse w dir)
    as (w' & Hget & Hsame).
  exists (found w dir), w'. split; [done|]. split; [done|].
  intros Hin. unfold State.found.
  destruct (files w !! statePath dir); [|done]. by rewrite decide_True.
Qed.

End StoreMore.

Section StoreMoreExamples.

Local Abbreviation update :=
  (updateWorkflowState Json.pathJoin Json.stringify Json.parse).
Local Abbreviation get := (getWorkflowState Json.pathJoin Json.parse).
Local Abbreviation put := (setWorkflowState Json.pathJoin Json.stringify).
Local Abbreviation init := (initWorkflowState Json.pathJoin Json.stringify).
Local Abbreviation t0 := (js "2025-01-01T00:00:00.000Z").

Lemma setWorkflowState_then_get_witness :
  ∃ w1 w2, put (initial (js "feat") (js "demo") t0) noFiles = (inr tt, w1)
           ∧ get (js "feat") w1
             = (inr (Some (initial (js "feat") (js "demo") t0)), w2).
Proof.
  apply (setWorkflowState_then_get Json.pathJoin Json.stringify Json.parse
           noFiles (initial (js "feat") (js "demo") t0)).
  - apply not_elem_of_empty.
  - apply not_elem_of_empty.
  - vm_compute. reflexivity.
Defined.

Lemma initWorkflowState_resets_witness :
  ∃ st w1 w2,
    init (js "feat") (js "demo") implementing = (inr st, w1)
    ∧ featureDir st = js "feat" ∧ currentStep st = specify ∧ stepStatus st = ∅
    ∧ metadata st = {| startedAt := Some (clock implementing);
                       completedAt := None;
                       featureDescription := Some (js "demo") |}
    ∧ get (js "feat") w1 = (inr (Some st), w2).
Proof.
  apply (initWorkflowState_resets Json.pathJoin Json.stringify Json.parse
           implementing (js "feat") (js "demo")).
  - apply not_elem_of_empty.
  - apply not_elem_of_empty.
  - vm_compute. reflexivity.
Defined.

Lemma updateWorkflowState_fresh_witness :
  ∃ st w',
    update (js "feat") plan {[ js "planPath" := JStr (js "/a") ]} broken
    = (inr st, w')
    ∧ featureDir st = js "feat" ∧ currentStep st = plan
    ∧ stepStatus st
      = {[ plan
           := <[js "completed" := JBool true]>
                {[ js "planPath" := JStr (js "/a") ]} ]}
    ∧ metadata st = {| startedAt := Some (clock broken); completedAt := None;
                       featureDescription := Some [] |}
    ∧ files w' !! Json.pathJoin (js "feat") STATE_FILE
      = Some (Json.stringify st).
Proof.
  apply (updateWorkflowState_fresh Json.pathJoin Json.stringify Json.parse
           broken (js "feat") plan).
  - reflexivity.
  - apply not_elem_of_empty.
Defined.

Lemma updateWorkflowState_other_steps_witness :
  ∃ st w',
    update (js "feat") plan ∅ implementing = (inr st, w')
    ∧ featureDir st
      = featureDir (stepped State.implement ∅ (initial (js "feat") [] t0))
    ∧ metadata st
      = metadata (stepped State.implement ∅ (initial (js "feat") [] t0))
    ∧ ∀ other, other ≠ plan →
               stepStatus st !! other
               = stepStatus (stepped State.implement ∅
                               (initial (js "feat") [] t0)) !! other.
Proof.
  apply (updateWorkflowState_other_steps
           Json.pathJoin Json.stringify Json.parse
           implementing (js "feat") plan ∅).
  - vm_compute. reflexivity.
  - apply not_elem_of_empty.
Defined.

Lemma updateWorkflowState_unwritable_witness :
  ∃ w' w'',
    update (js "feat") plan ∅ locked
    = (inl (WriteFailed
              (Json.pathJoin
                 (featureDir (State.base Json.pathJoin Json.parse locked
                                (js "feat")))
                 STATE_FILE)), w')
    ∧ files w' = files locked
    ∧ get (js "feat") w'
      = (inr (State.found Json.pathJoin Json.parse locked (js "feat")), w'').
Proof.
  apply (updateWorkflowState_unwritable
           Json.pathJoin Json.stringify Json.parse
           locked (js "feat") plan ∅).
  vm_compute. reflexivity.
Defined.

Lemma updateWorkflowState_follows_featureDir_witness :
  ∃ st w' w'',
    update (js "feat") plan ∅ copied = (inr st, w')
    ∧ files w' !! Json.pathJoin
                    (featureDir (initial (js "other") (js "demo") t0))
                    STATE_FILE
      = Some (Json.stringify st)
    ∧ files w' !! Json.pathJoin (js "feat") STATE_FILE
      = files copied !! Json.pathJoin (js "feat") STATE_FILE
    ∧ get (js "feat") w'
      = (inr (Some (initial (js "other") (js "demo") t0)), w'').
Proof.
  apply (updateWorkflowState_follows_featureDir
           Json.pathJoin Json.stringify Json.parse
           copied (js "feat") plan ∅).
  - vm_compute. reflexivity.
  - vm_compute. discriminate.
  - apply not_elem_of_empty.
Defined.

Lemma updateWorkflowState_twice_witness :
  ∃ st w1 w2,
    update (js "feat") plan {[ js "planPath" := JStr (js "/a") ]} noFiles
    = (inr st, w1)
    ∧ update (js "feat") plan {[ js "planPath" := JStr (js "/a") ]} w1
      = (inr st, w2)
    ∧ files w2 = files w1.
Proof.
  apply (updateWorkflowState_twice Json.pathJoin Json.stringify Json.parse
           noFiles (js "feat") plan).
  - intros st H. vm_compute in H. discriminate.
  - apply not_elem_of_empty.
  - apply not_elem_of_empty.
  - intros st w1 H. vm_compute in H. injection H as <- _.
    vm_compute. reflexivity.
Defined.

End StoreMoreExamples.

(** * The implementation tool *)

Section ImplementFacts.

Variable path_join : str → str → str.
Variable path_isAbsolute : str → bool.
Variable path_basename : str → str.
Variable JSON_stringify : WorkflowState → str.
Variable JSON_parse : str → option WorkflowState.
Variable root : str.
Variable executeScriptJSON : str → list str → str → IO (option FeaturePaths).
Variable invalidPaths : option FeaturePaths → string.

Implicit Types (w : World) (dir taskId content : str).

Local Abbreviation paths :=
  (getFeaturePaths path_join path_isAbsolute path_basename root
     executeScriptJSON).
Local Abbreviation implement :=
  (speckitImplement path_join path_isAbsolute path_basename root
     executeScriptJSON invalidPaths).
Local Abbreviation mark :=
  (markTaskAsComplete path_join path_isAbsolute path_basename JSON_stringify
     JSON_parse root executeScriptJSON invalidPaths).
Local Abbreviation tasksPath :=
  (Implement.tasksPath path_join path_isAbsolute root).
Local Abbreviation located :=
  (logged (Exec (js "git rev-parse --show-toplevel"))).
Local Abbreviation update :=
  (updateWorkflowState path_join JSON_stringify JSON_parse).
Local Abbreviation statePath := (State.statePath path_join).
Local Abbreviation found := (State.found path_join JSON_parse).
Local Abbreviation consistent := (State.consistent path_join JSON_parse).
Local Abbreviation base := (State.base path_join JSON_parse).

(** With a directory given, getFeaturePaths runs git, touches no file and
    names the checklist of the directory. *)
Lemma getFeaturePaths_dir w dir rT iT pO :
  dir ≠ [] →
  ∃ p, paths {| requireTasks := rT; includeTasks := iT; pathsOnly := pO;
                optFeatureDir := Some dir |} w = (inr (Some p), located w)
       ∧ TASKS p = tasksPath dir.
Proof. intros Hd. destruct dir; [done|]. eexists. split; reflexivity. Qed.

Lemma completedCount_split (parsed : list Task) :
  (completedCount parsed
   + length (filter (λ t, negb (completed t) = true) parsed))%nat
  = length parsed.
Proof.
  unfold completedCount. induction parsed as [|t l IH]; [done|].
  rewrite !filter_cons. destruct (completed t); simpl in *; lia.
Qed.

Lemma completedCount_le (parsed : list Task) :
  (completedCount parsed ≤ length parsed)%nat.
Proof. pose proof (completedCount_split parsed). lia. Qed.

Lemma completedCount_marked (before after : list Task) :
  Forall2 marked before after →
  length after = length before
  ∧ (completedCount before ≤ completedCount after)%nat.
Proof.
  unfold completedCount.
  induction 1 as [|t t' l l' Ht _ IH]; [done|].
  rewrite !filter_cons. destruct IH as [IH1 IH2].
  destruct Ht as [->| ->]; simpl.
  - destruct (completed t); simpl; lia.
  - destruct (completed t); simpl; lia.
Qed.

(** The tool up to its return, on a checklist that can be read. *)
Lemma speckitImplement_run w dir autoContinue content :
  dir ≠ [] → tasksPath dir ≠ [] → readable w (tasksPath dir) content →
  ∃ w',
    implement dir autoContinue w
    = (inr {| success := true;
              tasksCompleted := completedCount (parseContent content);
              totalTasks := length (parseContent content);
              filesCreated := [];
              filesModified := [];
              message :=
                js "Found "
                ++ Json.showZ
                     (Z.of_nat
                        (length (filter (λ t, negb (completed t) = true)
                                   (parseContent content))))
                ++ js " incomplete tasks. Implementation should proceed automatically without interruptions." |},
       w')
    ∧ sameFiles w w'.
Proof.
  intros Hd Hp Hr. unfold speckitImplement. unfold bind at 1.
  destruct (getFeaturePaths_dir w dir true true false Hd) as (p & -> & Hp').
  unfold noTasks. cbn [fmap option_fmap option_map default from_option].
  unfold Datatypes.id. rewrite Hp'.
  destruct (tasksPath dir) as [|a q] eqn:E; [done|]. cbn [falsy].
  rewrite <- E in *. clear E a q.
  unfold bind at 1. unfold fileExists.
  change (files (located w)) with (files w).
  rewrite bool_decide_eq_true_2 by (destruct Hr as [-> _]; eauto).
  cbn [negb]. unfold bind at 1.
  rewrite (parseTasksMd_run _ _ content) by (done || by destruct Hr).
  unfold bind at 1. unfold getIncompleteTasks.
  destruct (tasksPath dir) as [|a q] eqn:E; [done|]. cbn [falsy].
  rewrite <- E in *. clear E a q.
  unfold bind at 1.
  rewrite (parseTasksMd_run _ _ content) by (done || by destruct Hr).
  unfold ret. eexists. split; [reflexivity|]. by destruct Hr.
Qed.

(** X19.  speckitImplement only reports: it changes no file, its total is
    the number of task records of the checklist, and the tasks it counts
    as completed and the incomplete tasks its message counts add up to the
    total. *)
Theorem speckitImplement_counts w dir autoContinue content :
  dir ≠ [] → tasksPath dir ≠ [] → readable w (tasksPath dir) content →
  ∃ r w' incomplete,
    implement dir autoContinue w = (inr r, w')
    ∧ sameFiles w w'
    ∧ totalTasks r = length (parseContent content)
    ∧ message r
      = js "Found " ++ Json.showZ (Z.of_nat incomplete)
        ++ js " incomplete tasks. Implementation should proceed automatically without interruptions."
    ∧ (tasksCompleted r + incomplete)%nat = totalTasks r.
Proof.
  intros Hd Hp Hr.
  destruct (speckitImplement_run w dir autoContinue content Hd Hp Hr)
    as (w' & Hrun & Hsame).
  eexists _, w', _. split; [exact Hrun|]. split; [done|].
  split; [done|]. split; [done|]. apply completedCount_split.
Qed.

(** X20.  Without a checklist speckitImplement throws its own error, whatever
    else the directory holds, and has changed no file. *)
Theorem speckitImplement_missing w dir autoContinue :
  dir ≠ [] → tasksPath dir ≠ [] → files w !! tasksPath dir = None →
  ∃ w', implement dir autoContinue w
        = (inl (Error "tasks.md not found. Run speckit_tasks first."), w')
        ∧ sameFiles w w'.
Proof.
  intros Hd Hp Hnone. unfold speckitImplement. unfold bind at 1.
  destruct (getFeaturePaths_dir w dir true true false Hd) as (p & -> & Hp').
  unfold noTasks. cbn [fmap option_fmap option_map default from_option].
  unfold Datatypes.id. rewrite Hp'.
  destruct (tasksPath dir) as [|a q] eqn:E; [done|]. cbn [falsy].
  rewrite <- E in *. clear E a q.
  unfold bind at 1. unfold fileExists.
  change (files (located w)) with (files w).
  rewrite bool_decide_eq_false_2 by (rewrite Hnone; by intros [? ?]).
  cbn [negb]. unfold throw. by eexists.
Qed.

(** The state store does not see a write to another file. *)
Lemma marked_store w w' dir :
  (∀ other, other ≠ tasksPath dir → files w' !! other = files w !! other) →
  unreadable w' = unreadable w → clock w' = clock w →
  tasksPath dir ≠ statePath dir → consistent w dir →
  found w' dir = found w dir ∧ base w' dir = base w dir ∧ consistent w' dir.
Proof.
  intros Hother Hr Hc Hne Hcons.
  assert (found w' dir = found w dir) as Hfound.
  { unfold State.found. by rewrite Hother, Hr. }
  split; [done|]. split.
  - unfold State.base. by rewrite Hfound, Hc.
  - intros st. rewrite Hfound. apply Hcons.
Qed.

(** The steps of markTaskAsComplete after its two tests. *)
Lemma markTaskAsComplete_steps w dir taskId :
  dir ≠ [] → tasksPath dir ≠ [] → trim taskId ≠ [] →
  mark dir taskId w
  = (markTaskComplete (tasksPath dir) taskId ;;;
     parsed <- parseTasksMd (tasksPath dir) ;;
     update dir State.implement
       {[ js "tasksCompleted" := JNum (Z.of_nat (completedCount parsed));
          js "totalTasks" := JNum (Z.of_nat (length parsed)) ]} ;;;
     ret tt) (located w).
Proof.
  intros Hd Hp Hid. unfold markTaskAsComplete. unfold bind at 1.
  destruct (getFeaturePaths_dir w dir true true false Hd) as (p & -> & Hp').
  unfold noTasks. cbn [fmap option_fmap option_map default from_option].
  unfold Datatypes.id. rewrite Hp'.
  destruct (tasksPath dir) as [|a q] eqn:E; [done|]. cbn [falsy].
  destruct taskId as [|c taskId]; [done|]. cbn [falsy orb].
  by destruct (trim (c :: taskId)).
Qed.

(** X21.  markTaskAsComplete marks the checklist and records the counts:
    the checklist holds the marked text, and the state file of the
    directory holds a state at the step [implement] whose status has as
    [totalTasks] the number of records a read of the checklist now gives,
    which is the number before marking, and as [tasksCompleted] the number
    of those records that are completed, no less than before marking.  The
    status says [completed: true] whether or not tasks remain. *)
Theorem markTaskAsComplete_records w dir taskId content :
  dir ≠ [] → tasksPath dir ≠ [] → trim taskId ≠ [] →
  holds w (tasksPath dir) content →
  tasksPath dir ≠ statePath dir →
  consistent w dir → statePath dir ∉ unwritable w →
  ∃ w' st status after w'',
    mark dir taskId w = (inr tt, w')
    ∧ files w' !! tasksPath dir = Some (markContent taskId content)
    ∧ files w' !! statePath dir = Some (JSON_stringify st)
    ∧ currentStep st = State.implement
    ∧ stepStatus st !! State.implement = Some status
    ∧ status !! js "completed" = Some (JBool true)
    ∧ parseTasksMd (tasksPath dir) w' = (inr after, w'')
    ∧ status !! js "totalTasks" = Some (JNum (Z.of_nat (length after)))
    ∧ status !! js "tasksCompleted"
      = Some (JNum (Z.of_nat (completedCount after)))
    ∧ length after = length (parseContent content)
    ∧ (completedCount (parseContent content) ≤ completedCount after)%nat.
Proof.
  intros Hd Hp Hid Hh Hne Hcons Hw.
  rewrite markTaskAsComplete_steps by done. unfold bind at 1.
  destruct (markTaskComplete_leaves (located w) _ _ _ Hp Hid Hh)
    as (w1 & -> & Hh1 & Hother & Hr1 & Hw1 & Hc1).
  unfold bind at 1.
  rewrite (parseTasksMd_run _ _ (markContent taskId content))
    by (done || split; apply Hh1).
  set (after := parseContent (markContent taskId content)).
  set (w2 := logged (Read (tasksPath dir)) w1).
  destruct (marked_store w w2 dir Hother Hr1 Hc1 Hne Hcons)
    as (Hfound & Hbase & Hcons2).
  pose proof (base_path path_join JSON_parse w dir Hcons) as Hpath.
  unfold bind at 1.
  destruct (updateWorkflowState_to path_join JSON_stringify JSON_parse
              w2 dir State.implement
              {[ js "tasksCompleted" := JNum (Z.of_nat (completedCount after));
                 js "totalTasks" := JNum (Z.of_nat (length after)) ]})
    as (w3 & -> & Hf3 & Hr3 & _).
  { rewrite Hbase, Hpath. change (unwritable w2) with (unwritable w1).
    by rewrite Hw1. }
  rewrite Hbase, Hpath in Hf3.
  destruct (completedCount_marked (parseContent content) after) as [Hlen Hcount].
  { unfold after, parseContent. rewrite markContent_lines.
    by apply parseLoop_marked. }
  assert (files w3 !! tasksPath dir = Some (markContent taskId content))
    as Htasks.
  { rewrite Hf3, lookup_insert_ne by done.
    destruct (found w2 dir); [|rewrite lookup_insert_ne by done]; apply Hh1. }
  eexists w3, _, _, after, (logged (Read (tasksPath dir)) w3).
  split; [reflexivity|]. split; [done|].
  split; [by rewrite Hf3, lookup_insert_eq|].
  split; [done|]. split; [apply lookup_insert_eq|].
  split; [apply mergeStep_completed|].
  split.
  { apply parseTasksMd_run; [done|]. split; [done|].
    rewrite Hr3. apply Hh1. }
  split.
  { apply mergeStep_new; [|by vm_compute].
    rewrite lookup_insert_ne by (by vm_compute). apply lookup_singleton_eq. }
  split.
  { apply mergeStep_new; [|by vm_compute]. apply lookup_insert_eq. }
  done.
Qed.

(** X22.  markTaskAsComplete, called with a directory and a task id that
    is empty or white space, throws [Task ID is required] when it has run
    git to find the repository and nothing else: no file is looked for,
    read or written, and the state is not updated. *)
Theorem markTaskAsComplete_blank_id w dir taskId :
  dir ≠ [] → tasksPath dir ≠ [] → trim taskId = [] →
  mark dir taskId w
  = (inl (Error "Task ID is required"),
     logged (Exec (js "git rev-parse --show-toplevel")) w).
Proof.
  intros Hd Hp Hid. unfold markTaskAsComplete. unfold bind at 1.
  destruct (getFeaturePaths_dir w dir true true false Hd) as (p & -> & Hp').
  unfold noTasks. cbn [fmap option_fmap option_map default from_option].
  unfold Datatypes.id. rewrite Hp'.
  destruct (tasksPath dir) as [|a q] eqn:E; [done|]. cbn [falsy].
  rewrite Hid. cbn [falsy]. by rewrite orb_true_r.
Qed.

(** X23.  The two writes of markTaskAsComplete are not one: when the state
    file cannot be written the call throws the write failure, and the
    checklist is marked all the same. *)
Theorem markTaskAsComplete_state_unwritable w dir taskId content :
  dir ≠ [] → tasksPath dir ≠ [] → trim taskId ≠ [] →
  holds w (tasksPath dir) content →
  tasksPath dir ≠ statePath dir →
  consistent w dir → statePath dir ∈ unwritable w →
  ∃ w',
    mark dir taskId w = (inl (WriteFailed (statePath dir)), w')
    ∧ files w' !! tasksPath dir = Some (markContent taskId content)
    ∧ files w' !! statePath dir = files w !! statePath dir.
Proof.
  intros Hd Hp Hid Hh Hne Hcons Hw.
  rewrite markTaskAsComplete_steps by done. unfold bind at 1.
  destruct (markTaskComplete_leaves (located w) _ _ _ Hp Hid Hh)
    as (w1 & -> & Hh1 & Hother & Hr1 & Hw1 & Hc1).
  unfold bind at 1.
  rewrite (parseTasksMd_run _ _ (markContent taskId content))
    by (done || split; apply Hh1).
  set (after := parseContent (markContent taskId content)).
  set (w2 := logged (Read (tasksPath dir)) w1).
  destruct (marked_store w w2 dir Hother Hr1 Hc1 Hne Hcons)
    as (Hfound & Hbase & Hcons2).
  pose proof (base_path path_join JSON_parse w dir Hcons) as Hpath.
  unfold bind at 1.
  destruct (updateWorkflowState_fails path_join JSON_stringify JSON_parse
              w2 dir State.implement
              {[ js "tasksCompleted" := JNum (Z.of_nat (completedCount after));
                 js "totalTasks" := JNum (Z.of_nat (length after)) ]})
    as (w3 & -> & Hf3 & _).
  { rewrite Hbase, Hpath. change (unwritable w2) with (unwritable w1).
    by rewrite Hw1. }
  rewrite Hbase, Hpath. exists w3. split; [done|]. rewrite Hf3.
  split; [apply Hh1|]. change (files w2) with (files w1). by apply Hother.
Qed.

(** X24.  Without a checklist to mark, markTaskAsComplete throws the read
    failure and the workflow state is left alone: no file has changed. *)
Theorem markTaskAsComplete_missing w dir taskId :
  dir ≠ [] → tasksPath dir ≠ [] → trim taskId ≠ [] →
  files w !! tasksPath dir = None →
  ∃ w', mark dir taskId w = (inl (ReadFailed (tasksPath dir)), w')
        ∧ files w' = files w.
Proof.
  intros Hd Hp Hid Hnone.
  rewrite markTaskAsComplete_steps by done. unfold bind at 1.
  destruct (markTaskComplete_absent (located w) (tasksPath dir) taskId Hp Hid
              Hnone) as (w1 & -> & Hf1). by exists w1.
Qed.

End ImplementFacts.

Section ImplementExamples.

Local Abbreviation implement :=
  (speckitImplement Json.pathJoin Posix.isAbsolute Posix.basename
     Posix.repoRoot Posix.noScript Posix.invalid).
Local Abbreviation mark :=
  (markTaskAsComplete Json.pathJoin Posix.isAbsolute Posix.basename
     Json.stringify Json.parse Posix.repoRoot Posix.noScript Posix.invalid).
Local Abbreviation tasksPath :=
  (Implement.tasksPath Json.pathJoin Posix.isAbsolute Posix.repoRoot).
Local Abbreviation dir := (js "/repo/feat").

Lemma speckitImplement_counts_witness :
  ∃ r w' incomplete,
    implement dir true Posix.feature = (inr r, w')
    ∧ sameFiles Posix.feature w'
    ∧ totalTasks r = length (parseContent checklist)
    ∧ message r
      = js "Found " ++ Json.showZ (Z.of_nat incomplete)
        ++ js " incomplete tasks. Implementation should proceed automatically without interruptions."
    ∧ (tasksCompleted r + incomplete)%nat = totalTasks r.
Proof.
  apply (speckitImplement_counts Json.pathJoin Posix.isAbsolute Posix.basename
           Posix.repoRoot Posix.noScript Posix.invalid
           Posix.feature dir true checklist).
  - discriminate.
  - vm_compute. discriminate.
  - apply oneFile_readable.
Defined.

Lemma speckitImplement_missing_witness :
  ∃ w', implement dir true noFiles
        = (inl (Error "tasks.md not found. Run speckit_tasks first."), w')
        ∧ sameFiles noFiles w'.
Proof.
  apply (speckitImplement_missing Json.pathJoin Posix.isAbsolute Posix.basename
           Posix.repoRoot Posix.noScript Posix.invalid noFiles dir true).
  - discriminate.
  - vm_compute. discriminate.
  - reflexivity.
Defined.

Lemma markTaskAsComplete_records_witness :
  ∃ w' st status after w'',
    mark dir (js "T001") Posix.feature = (inr tt, w')
    ∧ files w' !! tasksPath dir = Some (markContent (js "T001") checklist)
    ∧ files w' !! Json.pathJoin dir STATE_FILE = Some (Json.stringify st)
    ∧ currentStep st = State.implement
    ∧ stepStatus st !! State.implement = Some status
    ∧ status !! js "completed" = Some (JBool true)
    ∧ parseTasksMd (tasksPath dir) w' = (inr after, w'')
    ∧ status !! js "totalTasks" = Some (JNum (Z.of_nat (length after)))
    ∧ status !! js "tasksCompleted"
      = Some (JNum (Z.of_nat (completedCount after)))
    ∧ length after = length (parseContent checklist)
    ∧ (completedCount (parseContent checklist) ≤ completedCount after)%nat.
Proof.
  apply (markTaskAsComplete_records
           Json.pathJoin Posix.isAbsolute Posix.basename Json.stringify
           Json.parse Posix.repoRoot Posix.noScript Posix.invalid
           Posix.feature dir (js "T001") checklist).
  - discriminate.
  - vm_compute. discriminate.
  - vm_compute. discriminate.
  - apply oneFile_holds.
  - vm_compute. discriminate.
  - intros st H. vm_compute in H. discriminate.
  - apply not_elem_of_empty.
Defined.

Lemma markTaskAsComplete_blank_id_witness :
  mark dir (js "  ") Posix.feature
  = (inl (Error "Task ID is required"),
     logged (Exec (js "git rev-parse --show-toplevel")) Posix.feature).
Proof.
  apply (markTaskAsComplete_blank_id
           Json.pathJoin Posix.isAbsolute Posix.basename Json.stringify
           Json.parse Posix.repoRoot Posix.noScript Posix.invalid
           Posix.feature dir (js "  ")).
  - discriminate.
  - vm_compute. discriminate.
  - reflexivity.
Defined.

Lemma markTaskAsComplete_state_unwritable_witness :
  ∃ w',
    mark dir (js "T001") Posix.featureLocked
    = (inl (WriteFailed (Json.pathJoin dir STATE_FILE)), w')
    ∧ files w' !! tasksPath dir = Some (markContent (js "T001") checklist)
    ∧ files w' !! Json.pathJoin dir STATE_FILE
      = files Posix.featureLocked !! Json.pathJoin dir STATE_FILE.
Proof.
  apply (markTaskAsComplete_state_unwritable
           Json.pathJoin Posix.isAbsolute Posix.basename Json.stringify
           Json.parse Posix.repoRoot Posix.noScript Posix.invalid
           Posix.featureLocked dir (js "T001") checklist).
  - discriminate.
  - vm_compute. discriminate.
  - vm_compute. discriminate.
  - split; [reflexivity|]. split; [apply not_elem_of_empty|].
    intros H. vm_compute in H. discriminate.
  - vm_compute. discriminate.
  - intros st H. vm_compute in H. discriminate.
  - vm_compute. reflexivity.
Defined.

Lemma markTaskAsComplete_missing_witness :
  ∃ w', mark dir (js "T001") noFiles = (inl (ReadFailed (tasksPath dir)), w')
        ∧ files w' = files noFiles.
Proof.
  apply (markTaskAsComplete_missing
           Json.pathJoin Posix.isAbsolute Posix.basename Json.stringify
           Json.parse Posix.repoRoot Posix.noScript Posix.invalid
           noFiles dir (js "T001")).
  - discriminate.
  - vm_compute. discriminate.
  - vm_compute. discriminate.
  - reflexivity.
Defined.

End ImplementExamples.

(** * JSON in the output of a script *)

Section ExtractFacts.

Implicit Types (output pre post rest inner body jsonStr : str).
Implicit Types (braceCount bracketCount from : Z).

Local Open Scope Z_scope.

Lemma indexFrom_bound from c s :
  indexFrom from c s = -1 ∨ from ≤ indexFrom from c s.
Proof.
  revert from. induction s as [|a s IH]; intros from; simpl; [by left|].
  destruct (a =? c)%N; [right; lia|]. destruct (IH (from + 1)); [by left|].
  right. lia.
Qed.

Lemma indexFrom_app from c pre s :
  forallb (λ a, negb (a =? c)%N) pre = true →
  indexFrom from c (pre ++ s) = indexFrom (from + Z.of_nat (length pre)) c s.
Proof.
  revert from. induction pre as [|a pre IH]; intros from H; simpl.
  - by rewrite Z.add_0_r.
  - simpl in H. apply andb_true_iff in H as [Ha H].
    apply negb_true_iff in Ha. rewrite Ha, IH by done. f_equal. lia.
Qed.

Lemma indexFrom_none from c s :
  forallb (λ a, negb (a =? c)%N) s = true → indexFrom from c s = -1.
Proof.
  intros H. rewrite <- (app_nil_r s). by rewrite indexFrom_app.
Qed.

Lemma opens_not c a : opens a = false → (c = 123 ∨ c = 91)%N → (a =? c)%N = false.
Proof.
  unfold opens. intros [H1 H2]%orb_false_iff [->| ->]; done.
Qed.

Lemma no_opens_no c pre :
  forallb (λ a, negb (opens a)) pre = true → (c = 123 ∨ c = 91)%N →
  forallb (λ a, negb (a =? c)%N) pre = true.
Proof.
  intros H Hc. rewrite forallb_forall in *. intros a Ha.
  apply H, negb_true_iff in Ha. by rewrite (opens_not c a).
Qed.

(** The extraction starts at the first brace or bracket. *)
Lemma startOf_first pre x post :
  forallb (λ a, negb (opens a)) pre = true → opens x = true →
  startOf (pre ++ x :: post) = Z.of_nat (length pre).
Proof.
  intros Hpre Hx. unfold startOf, indexOf.
  rewrite !indexFrom_app by (apply no_opens_no; auto).
  rewrite !Z.add_0_l. cbn [indexFrom]. unfold opens in Hx.
  destruct (N.eqb_spec x 123) as [->|Hne].
  - change (123 =? 91)%N with false. cbv iota.
    destruct (indexFrom_bound (Z.of_nat (length pre) + 1) 91 post) as [->|Hge].
    + replace (Z.of_nat (length pre) =? -1) with false; [done|].
      symmetry. apply Z.eqb_neq. lia.
    + replace (Z.of_nat (length pre) =? -1) with false
        by (symmetry; apply Z.eqb_neq; lia).
      replace (Z.of_nat (length pre) <? indexFrom _ 91 post) with true
        by (symmetry; apply Z.ltb_lt; lia).
      by rewrite orb_true_r.
  - simpl in Hx. rewrite Hx. 
    replace (Z.of_nat (length pre) =? -1) with false
      by (symmetry; apply Z.eqb_neq; lia).
    destruct (indexFrom_bound (Z.of_nat (length pre) + 1) 123 post) as [->|Hge].
    + done.
    + replace (indexFrom (Z.of_nat (length pre) + 1) 123 post
               <? Z.of_nat (length pre)) with false
        by (symmetry; apply Z.ltb_ge; lia).
      by rewrite orb_false_r, andb_false_r.
Qed.

Lemma startOf_none output :
  forallb (λ a, negb (opens a)) output = true → startOf output = -1.
Proof.
  intros H. unfold startOf, indexOf.
  by rewrite !indexFrom_none by (apply no_opens_no; auto).
Qed.

Local Close Scope Z_scope.

(** A text has no brace and no bracket, or a first one. *)
Lemma first_opens output :
  forallb (λ a, negb (opens a)) output = true
  ∨ ∃ pre x post, output = pre ++ x :: post
                  ∧ forallb (λ a, negb (opens a)) pre = true
                  ∧ opens x = true.
Proof.
  induction output as [|a s IH]; [by left|].
  destruct (opens a) eqn:Ha.
  - right. exists [], a, s. by repeat split.
  - destruct IH as [IH|(pre & x & post & -> & Hpre & Hx)].
    + left. simpl. by rewrite Ha.
    + right. exists (a :: pre), x, post. simpl. rewrite Ha. by repeat split.
Qed.

(** What the loop adds to [jsonStr] is a prefix of what it is given. *)
Lemma extractLoop_prefix rest jsonStr braceCount bracketCount
    (inString escapeNext : bool) :
  ∃ j post,
    rest = j ++ post
    ∧ extractLoop rest jsonStr braceCount bracketCount inString escapeNext
      = jsonStr ++ j.
Proof.
  revert jsonStr braceCount bracketCount inString escapeNext.
  induction rest as [|char rest IH];
    intros jsonStr braceCount bracketCount inString escapeNext.
  { exists [], []. split; [done|]. cbn [extractLoop]. by rewrite app_nil_r. }
  assert (∀ bc kc i e,
            ∃ j post, char :: rest = j ++ post
                      ∧ extractLoop rest (jsonStr ++ [char]) bc kc i e
                        = jsonStr ++ j) as Hstep.
  { intros bc kc i e.
    destruct (IH (jsonStr ++ [char]) bc kc i e) as (j & post & -> & ->).
    exists (char :: j), post. by rewrite <- app_assoc. }
  assert (∃ j post, char :: rest = j ++ post
                    ∧ jsonStr ++ [char] = jsonStr ++ j) as Hstop
    by (exists [char], rest; by split).
  cbn [extractLoop].
  repeat (lazymatch goal with
          | |- context [if ?b then _ else _] => destruct b
          end; try apply Hstep; try apply Hstop).
Qed.

Lemma extractLoop_plain c rest jsonStr braceCount bracketCount :
  plain c = true →
  extractLoop (c :: rest) jsonStr braceCount bracketCount false false
  = extractLoop rest (jsonStr ++ [c]) braceCount bracketCount false false.
Proof.
  unfold plain. intros H%negb_true_iff.
  repeat (apply orb_false_iff in H as [H ?]). cbn [extractLoop].
  by repeat match goal with E : (_ =? _)%N = false |- _ => rewrite E; clear E end.
Qed.

(** Inside a string literal the loop counts nothing. *)
Lemma extractLoop_body body rest jsonStr braceCount bracketCount :
  stringBody body →
  extractLoop (body ++ rest) jsonStr braceCount bracketCount true false
  = extractLoop rest (jsonStr ++ body) braceCount bracketCount true false.
Proof.
  intros H. revert jsonStr.
  induction H as [|c s H34 H92 _ IH|c s _ IH]; intros jsonStr.
  - by rewrite app_nil_r.
  - cbn [app extractLoop]. rewrite H34, H92, IH. by rewrite <- app_assoc.
  - cbn [app extractLoop]. change (92 =? 92) with true. cbv iota.
    rewrite IH. by rewrite <- !app_assoc.
Qed.

(** Over nested text, inside an open brace or bracket, the loop comes back
    to the counts it started with and does not stop. *)
Lemma extractLoop_nested inner rest jsonStr braceCount bracketCount :
  nested inner → (0 ≤ braceCount)%Z → (0 ≤ bracketCount)%Z →
  (0 < braceCount + bracketCount)%Z →
  extractLoop (inner ++ rest) jsonStr braceCount bracketCount false false
  = extractLoop rest (jsonStr ++ inner) braceCount bracketCount false false.
Proof.
  intros H. revert rest jsonStr braceCount bracketCount.
  induction H as [|c s Hc _ IH|body s Hb _ IH|inner s _ IHi _ IH
                  |inner s _ IHi _ IH];
    intros rest jsonStr braceCount bracketCount Hb0 Hk0 Hpos.
  - by rewrite app_nil_r.
  - cbn [app]. rewrite extractLoop_plain, IH by done. by rewrite <- app_assoc.
  - change ((34 :: body ++ 34 :: s) ++ rest)
      with (34 :: (body ++ 34 :: s) ++ rest).
    rewrite <- app_assoc.
    change (extractLoop (34 :: body ++ (34 :: s) ++ rest) jsonStr braceCount
              bracketCount false false)
      with (extractLoop (body ++ (34 :: s) ++ rest) (jsonStr ++ [34])
              braceCount bracketCount true false).
    rewrite extractLoop_body by done.
    change (extractLoop ((34 :: s) ++ rest) ((jsonStr ++ [34]) ++ body)
              braceCount bracketCount true false)
      with (extractLoop (s ++ rest) (((jsonStr ++ [34]) ++ body) ++ [34])
              braceCount bracketCount false false).
    rewrite IH by done. f_equal. by rewrite <- !app_assoc.
  - change ((123 :: inner ++ 125 :: s) ++ rest)
      with (123 :: (inner ++ 125 :: s) ++ rest).
    rewrite <- app_assoc.
    change (extractLoop (123 :: inner ++ (125 :: s) ++ rest) jsonStr braceCount
              bracketCount false false)
      with (extractLoop (inner ++ (125 :: s) ++ rest) (jsonStr ++ [123])
              (braceCount + 1)%Z bracketCount false false).
    rewrite IHi by lia.
    change (extractLoop ((125 :: s) ++ rest) ((jsonStr ++ [123]) ++ inner)
              (braceCount + 1)%Z bracketCount false false)
      with (if (braceCount + 1 - 1 =? 0)%Z && (bracketCount =? 0)%Z
            then ((jsonStr ++ [123]) ++ inner) ++ [125]
            else extractLoop (s ++ rest)
                   (((jsonStr ++ [123]) ++ inner) ++ [125])
                   (braceCount + 1 - 1)%Z bracketCount false false).
    rewrite Z.add_simpl_r.
    replace ((braceCount =? 0)%Z && (bracketCount =? 0)%Z) with false.
    2:{ symmetry. apply andb_false_iff.
        destruct (Z.eqb_spec braceCount 0); [|by left]. right.
        apply Z.eqb_neq. lia. }
    rewrite IH by done. f_equal. by rewrite <- !app_assoc.
  - change ((91 :: inner ++ 93 :: s) ++ rest)
      with (91 :: (inner ++ 93 :: s) ++ rest).
    rewrite <- app_assoc.
    change (extractLoop (91 :: inner ++ (93 :: s) ++ rest) jsonStr braceCount
              bracketCount false false)
      with (extractLoop (inner ++ (93 :: s) ++ rest) (jsonStr ++ [91])
              braceCount (bracketCount + 1)%Z false false).
    rewrite IHi by lia.
    change (extractLoop ((93 :: s) ++ rest) ((jsonStr ++ [91]) ++ inner)
              braceCount (bracketCount + 1)%Z false false)
      with (if (braceCount =? 0)%Z && (bracketCount + 1 - 1 =? 0)%Z
            then ((jsonStr ++ [91]) ++ inner) ++ [93]
            else extractLoop (s ++ rest)
                   (((jsonStr ++ [91]) ++ inner) ++ [93])
                   braceCount (bracketCount + 1 - 1)%Z false false).
    rewrite Z.add_simpl_r.
    replace ((braceCount =? 0)%Z && (bracketCount =? 0)%Z) with false.
    2:{ symmetry. apply andb_false_iff.
        destruct (Z.eqb_spec braceCount 0); [|by left]. right.
        apply Z.eqb_neq. lia. }
    rewrite IH by done. f_equal. by rewrite <- !app_assoc.
Qed.

(** The loop, started at a brace or bracket that opens nested text, stops
    at the bracket that closes it. *)
Lemma extractLoop_value x inner post :
  opens x = true → nested inner →
  extractLoop (x :: inner ++ closing x :: post) [] 0 0 false false
  = x :: inner ++ [closing x].
Proof.
  intros Hx Hn. unfold opens in Hx.
  destruct (N.eqb_spec x 123) as [->|Hne].
  - change (closing 123) with 125.
    change (extractLoop (123 :: inner ++ 125 :: post) [] 0 0 false false)
      with (extractLoop (inner ++ 125 :: post) [123] (0 + 1)%Z 0%Z false false).
    by rewrite extractLoop_nested.
  - simpl in Hx. apply N.eqb_eq in Hx as ->.
    change (closing 91) with 93.
    change (extractLoop (91 :: inner ++ 93 :: post) [] 0 0 false false)
      with (extractLoop (inner ++ 93 :: post) [91] 0%Z (0 + 1)%Z false false).
    by rewrite extractLoop_nested.
Qed.

Section Parse.

Variable T : Type.
Variable JSON_parse : str → option T.

Local Abbreviation parseJSONFromOutput :=
  (Scripts.parseJSONFromOutput T JSON_parse).

(** X25.  parseJSONFromOutput finds a JSON value in the midst of other
    output: when the output as a whole does not parse, and its first brace
    or bracket opens text whose braces and brackets outside string
    literals are nested, the result is the parse of the text from that
    brace or bracket to the one that closes it, whatever comes before and
    after; braces, brackets and escaped quotes inside string literals do
    not count.  When that text does not parse the error is thrown, even
    if a value that would parse follows. *)
Theorem parseJSONFromOutput_extracts pre x inner post :
  forallb (λ a, negb (opens a)) pre = true → opens x = true →
  nested inner →
  JSON_parse (pre ++ x :: inner ++ closing x :: post) = None →
  parseJSONFromOutput (pre ++ x :: inner ++ closing x :: post)
  = match JSON_parse (x :: inner ++ [closing x]) with
    | Some value => inr value
    | None => inl (failed (pre ++ x :: inner ++ closing x :: post))
    end.
Proof.
  intros Hpre Hx Hn Hnone. unfold Scripts.parseJSONFromOutput.
  rewrite Hnone, startOf_first by done.
  replace (Z.of_nat (length pre) =? -1)%Z with false
    by (symmetry; apply Z.eqb_neq; lia).
  cbn [negb]. rewrite Nat2Z.id, drop_app_length.
  by rewrite extractLoop_value.
Qed.

(** X26.  parseJSONFromOutput makes nothing up: a value it returns is the
    parse of the whole output or of a part of it that starts at the first
    brace or bracket, and the error it throws always carries the whole
    output, and is thrown only when the whole output does not parse. *)
Theorem parseJSONFromOutput_sound output :
  match parseJSONFromOutput output with
  | inr value =>
      JSON_parse output = Some value
      ∨ ∃ pre x j post,
          output = pre ++ x :: j ++ post
          ∧ forallb (λ a, negb (opens a)) pre = true ∧ opens x = true
          ∧ JSON_parse (x :: j) = Some value
  | inl thrown => thrown = failed output ∧ JSON_parse output = None
  end.
Proof.
  unfold Scripts.parseJSONFromOutput.
  destruct (JSON_parse output) as [value|] eqn:E; [by left|].
  destruct (first_opens output) as [Hno|(pre & x & post & -> & Hpre & Hx)].
  - by rewrite startOf_none.
  - rewrite startOf_first by done.
    replace (Z.of_nat (length pre) =? -1)%Z with false
      by (symmetry; apply Z.eqb_neq; lia).
    cbn [negb]. rewrite Nat2Z.id, drop_app_length.
    destruct (JSON_parse (extractLoop _ _ _ _ _ _)) as [value|] eqn:E';
      [|done].
    right.
    assert (∃ j post', post = j ++ post'
                       ∧ extractLoop (x :: post) [] 0 0 false false = x :: j)
      as (j & post' & -> & Hj).
    { unfold opens in Hx. 
      destruct (N.eqb_spec x 123) as [->|Hne].
      - destruct (extractLoop_prefix post [123] (0 + 1)%Z 0%Z false false)
          as (j & post' & -> & Hj). by exists j, post'.
      - simpl in Hx. apply N.eqb_eq in Hx as ->.
        destruct (extractLoop_prefix post [91] 0%Z (0 + 1)%Z false false)
          as (j & post' & -> & Hj). by exists j, post'. }
    exists pre, x, j, post'. rewrite Hj in E'. done.
Qed.

End Parse.

End ExtractFacts.

Section ExtractExamples.

Lemma parseJSONFromOutput_extracts_witness :
  parseJSONFromOutput json Json.read
    ((js "Some text before" ++ [10]) ++ 123
     :: ([34] ++ js "key" ++ [34] ++ js ": " ++ [34] ++ js "value" ++ [34])
     ++ closing 123 :: [10] ++ js "Some text after")
  = match Json.read
            (123 :: ([34] ++ js "key" ++ [34] ++ js ": " ++ [34] ++ js "value"
                     ++ [34]) ++ [closing 123]) with
    | Some value => inr value
    | None =>
        inl (failed
               ((js "Some text before" ++ [10]) ++ 123
                :: ([34] ++ js "key" ++ [34] ++ js ": " ++ [34] ++ js "value"
                    ++ [34])
                ++ closing 123 :: [10] ++ js "Some text after"))
    end.
Proof.
  apply (parseJSONFromOutput_extracts json Json.read
           (js "Some text before" ++ [10]) 123
           ([34] ++ js "key" ++ [34] ++ js ": " ++ [34] ++ js "value" ++ [34])
           ([10] ++ js "Some text after")).
  - reflexivity.
  - reflexivity.
  - apply (n_string (js "key") (js ": " ++ [34] ++ js "value" ++ [34])).
    { repeat (apply sb_char; [reflexivity|reflexivity|]). apply sb_nil. }
    apply (n_plain 58); [reflexivity|]. apply (n_plain 32); [reflexivity|].
    apply (n_string (js "value") []); [|apply n_nil].
    repeat (apply sb_char; [reflexivity|reflexivity|]). apply sb_nil.
  - vm_compute. reflexivity.
Defined.

End ExtractExamples.

(** * The short name of a feature *)

Section ShortName.

Implicit Types (description name word : str).

Local Abbreviation nameChar := (λ c : N, isLowerAlnum c = true ∨ c = 45).

Lemma splitSpaces_words s word gap :
  Forall (λ c, isSpace c = false) word →
  Forall (Forall (λ c, c ∈ word ++ s ∧ isSpace c = false))
    (splitSpaces s word gap).
Proof.
  revert word gap. induction s as [|c s IH]; intros word gap Hw.
  - cbn [splitSpaces]. constructor; [|done]. rewrite app_nil_r.
    rewrite Forall_forall in *. intros a Ha. split; [done|by apply Hw].
  - cbn [splitSpaces]. destruct (isSpace c) eqn:Ec.
    + assert (Forall (Forall (λ a, a ∈ word ++ c :: s ∧ isSpace a = false))
                (splitSpaces s [] true)) as Hrest.
      { eapply Forall_impl; [by apply IH|]. intros w Hall.
        eapply Forall_impl; [exact Hall|]. intros a [Ha ?]. split; [|done].
        apply elem_of_app. right. by right. }
      destruct gap; [done|]. constructor; [|done].
      rewrite Forall_forall in *. intros a Ha. split; [|by apply Hw].
      apply elem_of_app. by left.
    + eapply Forall_impl; [apply IH|].
      * apply Forall_app. split; [done|]. by constructor.
      * intros w Hall. eapply Forall_impl; [exact Hall|]. intros a [Ha ?].
        split; [|done]. by rewrite <- app_assoc in Ha.
Qed.

Lemma join_nameChar (words : list str) :
  Forall (Forall (λ c, isLowerAlnum c = true)) words →
  Forall nameChar (join 45 words).
Proof.
  induction 1 as [|w [|w' ws] Hw _ IH]; [done| |].
  - simpl. eapply Forall_impl; [exact Hw|]. by left.
  - change (Forall nameChar (w ++ 45 :: join 45 (w' :: ws))).
    apply Forall_app. split.
    + eapply Forall_impl; [exact Hw|]. by left.
    + constructor; [by right|done].
Qed.

Lemma alnum_not_hyphen c : isLowerAlnum c = true → c ≠ 45.
Proof. intros H ->. done. Qed.

Lemma hyphens_app name1 name2 :
  hyphens (name1 ++ name2) = (hyphens name1 + hyphens name2)%nat.
Proof. unfold hyphens. by rewrite filter_app, length_app. Qed.

Lemma hyphens_word word :
  Forall (λ c, isLowerAlnum c = true) word → hyphens word = 0%nat.
Proof.
  unfold hyphens. induction 1 as [|c w Hc _ IH]; [done|].
  rewrite filter_cons_False; [done|]. by apply alnum_not_hyphen.
Qed.

Lemma join_hyphens (words : list str) :
  Forall (Forall (λ c, isLowerAlnum c = true)) words →
  hyphens (join 45 words) = pred (length words).
Proof.
  induction 1 as [|w [|w' ws] Hw _ IH]; [done| |].
  - simpl. by apply hyphens_word.
  - change (hyphens (w ++ 45 :: join 45 (w' :: ws))
            = S (pred (length (w' :: ws)))).
    rewrite hyphens_app, hyphens_word by done.
    change (45 :: join 45 (w' :: ws)) with ([45] ++ join 45 (w' :: ws)).
    rewrite hyphens_app, IH. done.
Qed.

Lemma hyphens_take n name : (hyphens (take n name) ≤ hyphens name)%nat.
Proof.
  rewrite <- (take_drop n name) at 2. rewrite hyphens_app. lia.
Qed.

Lemma join_head (words : list str) :
  Forall (λ w, Forall (λ c, isLowerAlnum c = true) w ∧ w ≠ []) words →
  head (join 45 words) ≠ Some 45.
Proof.
  intros H. destruct H as [|w ws [Hw Hne] _]; [done|].
  destruct w as [|c w]; [done|].
  assert (head (join 45 ((c :: w) :: ws)) = Some c) as ->
    by (by destruct ws).
  intros [= ->]. by apply Forall_cons in Hw as [Hc _].
Qed.

(** The words of the name: non-empty, of lower-case letters and digits. *)
Lemma shortName_words description :
  Forall (λ w, Forall (λ c, isLowerAlnum c = true) w ∧ w ≠ [])
    (take 4 (filter (λ w : str, (0 <? length w)%nat = true)
               (splitSpaces (keepWords (toLowerCase description)) [] false))).
Proof.
  apply Forall_take, Forall_forall.
  intros w [Hlen Hin]%list_elem_of_filter. split.
  - pose proof (splitSpaces_words (keepWords (toLowerCase description))
                  [] false (Forall_nil_2 _)) as Hall.
    rewrite Forall_forall in Hall. specialize (Hall w Hin).
    eapply Forall_impl; [exact Hall|]. intros c [Hc Hsp]. simpl in Hc.
    apply list_elem_of_filter in Hc as [Hkeep _].
    rewrite Hsp, orb_false_r in Hkeep. done.
  - intros ->. done.
Qed.

(** X27.  The short name generateShortName makes of any description is at
    most 50 characters long, consists of lower-case letters, digits and
    hyphens only, does not begin with a hyphen and holds at most three
    hyphens: whatever the description holds, no white space, quote or
    other character with a meaning for a shell or for git reaches the
    branch name made from it. *)
Theorem generateShortName_safe description :
  (length (generateShortName description) ≤ 50)%nat
  ∧ Forall (λ c, isLowerAlnum c = true ∨ c = 45) (generateShortName description)
  ∧ head (generateShortName description) ≠ Some 45
  ∧ (hyphens (generateShortName description) ≤ 3)%nat.
Proof.
  unfold generateShortName.
  pose proof (shortName_words description) as Hwords.
  set (words := take 4 _) in *.
  assert (Forall (Forall (λ c, isLowerAlnum c = true)) words) as Halnum.
  { eapply Forall_impl; [exact Hwords|]. by intros w [? _]. }
  split; [rewrite length_take; lia|].
  split; [by apply Forall_take, join_nameChar|].
  split.
  - pose proof (join_head words Hwords) as Hhead.
    destruct (join 45 words); done.
  - etrans; [apply hyphens_take|]. rewrite join_hyphens by done.
    assert (length words ≤ 4)%nat by (unfold words; rewrite length_take; lia).
    lia.
Qed.

End ShortName.
